(** * tsunami_ip_utils: similarity indices with propagated uncertainties

    A shallow embedding of the numerical core of [tsunami_ip_utils.py] and of
    [tsunami_ip_utils/readers.py].  Python floats are modelled by real
    numbers, so rounding, [nan] and [inf] are not represented; exceptions are
    modelled by an error monad, and the identity of the random variables of
    the [uncertainties] package by numeric tags drawn from a counter. *)

From Stdlib Require Import Reals Lra Lia Ascii String Bool Arith ZArith.
From Stdlib Require Import Permutation Sorted List.
Import ListNotations.
Open Scope string_scope.
Open Scope list_scope.
Open Scope R_scope.

(** ** Python exceptions and the allocation of fresh variables *)

Inductive exception : Type :=
| ValueError
| TypeError
| ZeroDivisionError
| IndexError
| KeyError
| NegativeStdDev
| ParseException
| UnboundLocalError
| AttributeError.

Inductive result (A : Type) : Type :=
| Ok (a : A)
| Raise (e : exception).

Arguments Ok {A} a.
Arguments Raise {A} e.

Definition rbind {A B : Type} (r : result A) (k : A -> result B) : result B :=
  match r with
  | Ok a => k a
  | Raise e => Raise e
  end.

(** A computation that may create [Variable] objects: the state is the next
    unused tag. *)
Definition M (A : Type) : Type := nat -> result (A * nat).

Definition ret {A : Type} (a : A) : M A := fun s => Ok (a, s).

Definition bind {A B : Type} (m : M A) (k : A -> M B) : M B :=
  fun s => match m s with
           | Ok (a, s') => k a s'
           | Raise e => Raise e
           end.

Definition raise {A : Type} (e : exception) : M A := fun _ => Raise e.

Definition lift {A : Type} (r : result A) : M A :=
  fun s => match r with
           | Ok a => Ok (a, s)
           | Raise e => Raise e
           end.

Definition fresh : M nat := fun s => Ok (s, S s).

Declare Scope monad_scope.
Delimit Scope monad_scope with monad.
Notation "x <- m ;; k" := (bind m (fun x => k))
  (at level 61, m at next level, right associativity) : monad_scope.
Notation "' p <- m ;; k" := (bind m (fun x => match x with p => k end))
  (at level 61, p pattern, m at next level, right associativity) : monad_scope.
Notation "x <~ r ;; k" := (rbind r (fun x => k))
  (at level 61, r at next level, right associativity) : monad_scope.
Open Scope monad_scope.

Fixpoint mapM {A B : Type} (f : A -> M B) (l : list A) : M (list B) :=
  match l with
  | [] => ret []
  | a :: l' => b <- f a ;; bs <- mapM f l' ;; ret (b :: bs)
  end.

Fixpoint foldM {A B : Type} (f : B -> A -> M B) (l : list A) (b : B) : M B :=
  match l with
  | [] => ret b
  | a :: l' => b' <- f b a ;; foldM f l' b'
  end.

Fixpoint rfold {A B : Type} (f : B -> A -> result B) (l : list A) (b : B)
  : result B :=
  match l with
  | [] => Ok b
  | a :: l' => b' <~ f b a ;; rfold f l' b'
  end.

Fixpoint rmap {A B : Type} (f : A -> result B) (l : list A)
  : result (list B) :=
  match l with
  | [] => Ok []
  | a :: l' => b <~ f a ;; bs <~ rmap f l' ;; Ok (b :: bs)
  end.

(** [l[i]] for a non-negative index. *)
Definition getitem {A : Type} (l : list A) (i : nat) : result A :=
  match nth_error l i with
  | Some a => Ok a
  | None => Raise IndexError
  end.

Definition Rsum (l : list R) : R := fold_left Rplus l 0.

(** Division of Python floats. *)
Definition float_div (x y : R) : result R :=
  if Req_dec_T y 0 then Raise ZeroDivisionError else Ok (x / y).

(** ** Insertion-ordered dictionaries with string keys *)

Definition dict (V : Type) : Type := list (string * V).

Fixpoint dict_get {V : Type} (d : dict V) (k : string) : option V :=
  match d with
  | [] => None
  | (k', v) :: d' => if String.eqb k' k then Some v else dict_get d' k
  end.

Definition dict_mem {V : Type} (d : dict V) (k : string) : bool :=
  match dict_get d k with
  | Some _ => true
  | None => false
  end.

(** [d[k] = v]: an existing key keeps its position, a new key goes last. *)
Fixpoint dict_set {V : Type} (d : dict V) (k : string) (v : V) : dict V :=
  match d with
  | [] => [(k, v)]
  | (k', v') :: d' =>
      if String.eqb k' k then (k', v) :: d' else (k', v') :: dict_set d' k v
  end.

Definition dict_keys {V : Type} (d : dict V) : list string := map fst d.

Definition dict_values {V : Type} (d : dict V) : list V := map snd d.

(** [d[k]] as an expression. *)
Definition dict_getitem {V : Type} (d : dict V) (k : string) : result V :=
  match dict_get d k with
  | Some v => Ok v
  | None => Raise KeyError
  end.

(** ** The [uncertainties] package: first-order error propagation

    A number with uncertainty is an affine function of independent random
    variables: a nominal value and a linear combination of the package's
    [Variable] objects ([UVariable] here).  Two of them are the same random
    variable when they are the same object, here when they carry the same
    tag. *)

Record UVariable : Type := { tag : nat; var_std_dev : R }.

Record UFloat : Type := {
  nominal_value : R;
  linear_part : list (R * UVariable)
}.

(** A plain float. *)
Definition uconst (x : R) : UFloat :=
  {| nominal_value := x; linear_part := [] |}.

Definition scale (c : R) (l : list (R * UVariable)) : list (R * UVariable) :=
  map (fun cv => (c * fst cv, snd cv)) l.

(** The coefficient of the variable tagged [t] in the expanded combination. *)
Fixpoint derivative_in (l : list (R * UVariable)) (t : nat) : R :=
  match l with
  | [] => 0
  | (c, v) :: l' =>
      if Nat.eqb (tag v) t then c + derivative_in l' t else derivative_in l' t
  end.

Definition derivative (x : UFloat) (t : nat) : R :=
  derivative_in (linear_part x) t.

(** The variables of a combination, each once, in order of first occurrence. *)
Fixpoint distinct_variables (l : list (R * UVariable)) (seen : list nat)
  : list UVariable :=
  match l with
  | [] => []
  | (_, v) :: l' =>
      if existsb (Nat.eqb (tag v)) seen then distinct_variables l' seen
      else v :: distinct_variables l' (tag v :: seen)
  end.

Definition error_components (x : UFloat) : list R :=
  map (fun v => Rabs (derivative x (tag v) * var_std_dev v))
      (distinct_variables (linear_part x) []).

Definition std_dev (x : UFloat) : R :=
  sqrt (Rsum (map (fun delta => delta ^ 2) (error_components x))).

(** [ufloat(nominal_value, std_dev)]: a new independent variable. *)
Definition ufloat (nv sd : R) : M UFloat :=
  if Rlt_dec sd 0 then raise NegativeStdDev
  else t <- fresh ;;
       ret {| nominal_value := nv;
              linear_part := [(1, {| tag := t; var_std_dev := sd |})] |}.

(** The result of an operation with partial derivatives [dx] and [dy]. *)
Definition affine2 (nv : R) (dx : R) (x : UFloat) (dy : R) (y : UFloat)
  : UFloat :=
  {| nominal_value := nv;
     linear_part := scale dx (linear_part x) ++ scale dy (linear_part y) |}.

Definition affine1 (nv : R) (dx : R) (x : UFloat) : UFloat :=
  {| nominal_value := nv; linear_part := scale dx (linear_part x) |}.

Definition uadd (x y : UFloat) : UFloat :=
  affine2 (nominal_value x + nominal_value y) 1 x 1 y.

Definition usub (x y : UFloat) : UFloat :=
  affine2 (nominal_value x - nominal_value y) 1 x (-1) y.

Definition umul (x y : UFloat) : UFloat :=
  affine2 (nominal_value x * nominal_value y)
          (nominal_value y) x (nominal_value x) y.

Definition uneg (x : UFloat) : UFloat :=
  affine1 (- nominal_value x) (-1) x.

Definition udiv (x y : UFloat) : result UFloat :=
  if Req_dec_T (nominal_value y) 0 then Raise ZeroDivisionError
  else Ok (affine2 (nominal_value x / nominal_value y)
                   (1 / nominal_value y) x
                   (- nominal_value x / nominal_value y ^ 2) y).

(** [x ** 2]. *)
Definition upow2 (x : UFloat) : UFloat :=
  affine1 (nominal_value x ^ 2) (2 * nominal_value x) x.

(** [x ** 0.5]: a negative base gives a complex number, which the package
    refuses.  At [x = 0] the package's coefficient is [nan]; the coefficient
    written here has no meaning there. *)
Definition upow_half (x : UFloat) : result UFloat :=
  if Rlt_dec (nominal_value x) 0 then Raise ValueError
  else Ok (affine1 (sqrt (nominal_value x))
                   (0.5 / sqrt (nominal_value x)) x).

(** [umath.sqrt(x)], with the same remark at [x = 0]. *)
Definition umath_sqrt (x : UFloat) : result UFloat :=
  if Rlt_dec (nominal_value x) 0 then Raise ValueError
  else Ok (affine1 (sqrt (nominal_value x))
                   (0.5 / sqrt (nominal_value x)) x).

(** Comparisons look at nominal values only. *)
Definition ult0 (x : UFloat) : bool :=
  if Rlt_dec (nominal_value x) 0 then true else false.

Definition ugt0 (x : UFloat) : bool :=
  if Rlt_dec 0 (nominal_value x) then true else false.

(** ** numpy and unumpy on one-dimensional arrays *)

Definition nominal_values (v : list UFloat) : list R := map nominal_value v.

Definition std_devs (v : list UFloat) : list R := map std_dev v.

(** [np.sum] and the reduction inside [np.dot] on arrays of objects start from
    the first element; the empty sum is the number [0]. *)
Definition np_sum (v : list UFloat) : UFloat :=
  match v with
  | [] => uconst 0
  | x :: v' => fold_left uadd v' x
  end.

Definition np_dot (a b : list UFloat) : result UFloat :=
  if Nat.eqb (length a) (length b)
  then Ok (np_sum (map (fun xy => umul (fst xy) (snd xy)) (combine a b)))
  else Raise ValueError.

(** [dot_product.n]: the dot product of two empty arrays is the integer [0],
    which has no nominal value. *)
Definition dot_nominal_value (operand : list UFloat) (dot_product : UFloat)
  : result R :=
  match operand with
  | [] => Raise AttributeError
  | _ :: _ => Ok (nominal_value dot_product)
  end.

(** [array / norm], element by element; [norm] may be [None]. *)
Definition truediv (x : UFloat) (norm : option UFloat) : result UFloat :=
  match norm with
  | Some y => udiv x y
  | None => Raise TypeError
  end.

Definition array_div (v : list UFloat) (norm : option UFloat)
  : result (list UFloat) :=
  rmap (fun x => truediv x norm) v.

(** numpy broadcasting of two one-dimensional arrays. *)
Definition broadcast {A B : Type} (a : list A) (b : list B)
  : result (list (A * B)) :=
  if Nat.eqb (length a) (length b) then Ok (combine a b)
  else match a, b with
       | [x], _ => Ok (map (fun y => (x, y)) b)
       | _, [y] => Ok (map (fun x => (x, y)) a)
       | _, _ => Raise ValueError
       end.

(** [unumpy.uarray(nominal_values, std_devs)]. *)
Definition uarray (noms sds : list R) : M (list UFloat) :=
  pairs <- lift (broadcast noms sds) ;;
  mapM (fun p => ufloat (fst p) (snd p)) pairs.

(** [np.concatenate] refuses an empty list of arrays. *)
Definition np_concatenate {A : Type} (arrays : list (list A))
  : result (list A) :=
  match arrays with
  | [] => Raise ValueError
  | _ => Ok (concat arrays)
  end.

(** [np.fill_diagonal(matrix, values)] on a square matrix. *)
Fixpoint fill_diagonal_from (i : nat) (matrix : list (list R))
  (values : list R) : list (list R) :=
  match matrix, values with
  | row :: matrix', d :: values' =>
      (firstn i row ++ d :: skipn (S i) row)
        :: fill_diagonal_from (S i) matrix' values'
  | _, _ => matrix
  end.

Definition fill_diagonal (matrix : list (list R)) (values : list R)
  : list (list R) :=
  fill_diagonal_from 0 matrix values.

(** ** [tsunami_ip_utils.py]: the similarity index and its uncertainty *)

Module Engine.

(** The uncertainties of the components of [v / ||v||], by the derivative
    matrix of the normalization.  numpy gives [nan] or [inf] where the norm
    is zero; the values of this function have no meaning there. *)
Definition unit_vector_uncertainty_propagation (vector : list UFloat)
  : list R :=
  let vector_norm :=
    sqrt (Rsum (map (fun x => x ^ 2) (nominal_values vector))) in
  let vector_uncertainties := std_devs vector in
  let derivative_matrix :=
    map (fun xi =>
           map (fun xj => - xi * xj / vector_norm ^ 3) (nominal_values vector))
        (nominal_values vector) in
  let derivative_matrix :=
    fill_diagonal derivative_matrix
      (map (fun xi => (vector_norm ^ 2 - xi ^ 2) / vector_norm ^ 3)
           (nominal_values vector)) in
  map (fun row =>
         sqrt (Rsum (map (fun ds => fst ds ^ 2 * snd ds ^ 2)
                         (combine row vector_uncertainties))))
      derivative_matrix.

(** One pass of the loop of [dot_product_uncertainty_propagation]. *)
Definition dot_product_step (vect1 vect2 : list UFloat)
  (dot_product_uncertainty : R) (i : nat) : result R :=
  v1 <~ getitem vect1 i ;;
  v2 <~ getitem vect2 i ;;
  product_uncertainty <~
    (if Req_dec_T (nominal_value v1) 0 then Ok 0
     else if Req_dec_T (nominal_value v2) 0 then Ok 0
     else r1 <~ float_div (std_dev v1) (nominal_value v1) ;;
          r2 <~ float_div (std_dev v2) (nominal_value v2) ;;
          Ok (nominal_value v1 * nominal_value v2 * sqrt (r1 ^ 2 + r2 ^ 2))) ;;
  Ok (dot_product_uncertainty + product_uncertainty ^ 2).

Definition dot_product_uncertainty_propagation (vect1 vect2 : list UFloat)
  : result R :=
  dot_product_uncertainty <~
    rfold (dot_product_step vect1 vect2) (seq 0 (length vect1)) 0 ;;
  Ok (sqrt dot_product_uncertainty).

Definition is_None {A : Type} (o : option A) : bool :=
  match o with
  | None => true
  | Some _ => false
  end.

(** [a != b] on two optional file names. *)
Definition filename_neq (a b : option string) : bool :=
  match a, b with
  | Some x, Some y => negb (String.eqb x y)
  | None, None => false
  | _, _ => true
  end.

(** [umath.sqrt(np.sum(vector**2))]. *)
Definition vector_norm (vector : list UFloat) : result UFloat :=
  umath_sqrt (np_sum (map upow2 vector)).

(** The norms used by the division: computed when neither was given. *)
Definition norms_for (application_vector experiment_vector : list UFloat)
  (experiment_norm application_norm : option UFloat)
  : result (option UFloat * option UFloat) :=
  let norms_not_provided :=
    is_None experiment_norm && is_None application_norm in
  if norms_not_provided then
    an <~ vector_norm application_vector ;;
    en <~ vector_norm experiment_vector ;;
    Ok (Some an, Some en)
  else Ok (application_norm, experiment_norm).

(** [np.array([ufloat(v.n, v.s) for v in unit_vector])]. *)
Definition break_dependency (unit_vector : list UFloat) : M (list UFloat) :=
  mapM (fun v => ufloat (nominal_value v) (std_dev v)) unit_vector.

Definition calculate_E_from_sensitivity_vecs
  (application_vector experiment_vector : list UFloat)
  (application_filename experiment_filename : option string)
  (uncertainties : string)
  (experiment_norm application_norm : option UFloat) : M UFloat :=
  if String.eqb uncertainties "automatic" then
    if is_None application_filename || is_None experiment_filename
    then raise ValueError
    else
      ' (application_norm, experiment_norm) <-
        lift (norms_for application_vector experiment_vector
                        experiment_norm application_norm) ;;
      application_unit_vector <-
        lift (array_div application_vector application_norm) ;;
      experiment_unit_vector <-
        lift (array_div experiment_vector experiment_norm) ;;
      ' (application_unit_vector, experiment_unit_vector) <-
        (if filename_neq application_filename experiment_filename then
           a <- break_dependency application_unit_vector ;;
           e <- break_dependency experiment_unit_vector ;;
           ret (a, e)
         else ret (application_unit_vector, experiment_unit_vector)) ;;
      lift (np_dot application_unit_vector experiment_unit_vector)
  else
    ' (application_norm, experiment_norm) <-
      lift (norms_for application_vector experiment_vector
                      experiment_norm application_norm) ;;
    application_unit_vector <-
      lift (array_div application_vector application_norm) ;;
    experiment_unit_vector <-
      lift (array_div experiment_vector experiment_norm) ;;
    dot_product <-
      lift (np_dot application_unit_vector experiment_unit_vector) ;;
    E <- lift (dot_nominal_value application_unit_vector dot_product) ;;
    let application_unit_vector_error :=
      unit_vector_uncertainty_propagation application_vector in
    let experiment_unit_vector_error :=
      unit_vector_uncertainty_propagation experiment_vector in
    application_unit_vector <-
      uarray (nominal_values application_unit_vector)
             application_unit_vector_error ;;
    experiment_unit_vector <-
      uarray (nominal_values experiment_unit_vector)
             experiment_unit_vector_error ;;
    E_uncertainty <-
      lift (dot_product_uncertainty_propagation application_unit_vector
                                                experiment_unit_vector) ;;
    ufloat E E_uncertainty.

(** [create_sensitivity_vector(sdfs)]: the profiles end to end, as new
    variables. *)
Definition create_sensitivity_vector (sdfs : list (list UFloat))
  : M (list UFloat) :=
  uncertainties <- lift (np_concatenate (map std_devs sdfs)) ;;
  senstivities <- lift (np_concatenate (map nominal_values sdfs)) ;;
  uarray senstivities uncertainties.

End Engine.


(** ** Sensitivity data files

    The pyparsing grammar is not modelled: a file is given by the tokens the
    grammar extracts from it. *)

(** The tokens of one profile block: the header fields, the summary line and
    the numbers of the data block. *)
Record sdf_match : Type := {
  m_isotope : string;
  m_reaction_type : string;
  m_zaid : string;
  m_reaction_mt : string;
  m_zone_number : Z;
  m_zone_volume : Z;
  m_energy_integrated_sensitivity : R * R;
  m_abs_sum_groupwise_sensitivities : R;
  m_sum_opposite_sign_groupwise_sensitivities : R * R;
  m_data_block : list R
}.

Record parsed_sdf : Type := {
  num_groups : nat;
  parsed_energy_boundaries : list R;
  parsed_matches : list sdf_match
}.

(** One entry of [sdf_data], a dictionary with the keys of [names] less
    ['uncertainties']. *)
Record sdf_profile : Type := {
  isotope : string;
  reaction_type : string;
  zaid : string;
  reaction_mt : string;
  zone_number : Z;
  zone_volume : Z;
  energy_integrated_sensitivity : UFloat;
  abs_sum_groupwise_sensitivities : R;
  sum_opposite_sign_groupwise_sensitivities : UFloat;
  sensitivities : list UFloat
}.

(** The conversion loop at the end of [_read_sdf], for one match whose data
    block was split into [sens] and [unc]. *)
Definition to_profile (m : sdf_match) (sens unc : list R) : M sdf_profile :=
  sensitivities <- uarray sens unc ;;
  eis <- ufloat (fst (m_energy_integrated_sensitivity m))
                (snd (m_energy_integrated_sensitivity m)) ;;
  sos <- ufloat (fst (m_sum_opposite_sign_groupwise_sensitivities m))
                (snd (m_sum_opposite_sign_groupwise_sensitivities m)) ;;
  ret {| isotope := m_isotope m;
         reaction_type := m_reaction_type m;
         zaid := m_zaid m;
         reaction_mt := m_reaction_mt m;
         zone_number := m_zone_number m;
         zone_volume := m_zone_volume m;
         energy_integrated_sensitivity := eis;
         abs_sum_groupwise_sensitivities :=
           m_abs_sum_groupwise_sensitivities m;
         sum_opposite_sign_groupwise_sensitivities := sos;
         sensitivities := sensitivities |}.

(** [sdf_data] of a region-integrated reader: the list of profiles, or after
    [convert_to_dict] a dictionary of dictionaries. *)
Inductive sdf_store : Type :=
| SdfList (profiles : list sdf_profile)
| SdfDict (by_nuclide : dict (dict sdf_profile)).

Record reader : Type := {
  filename : string;
  energy_boundaries : list R;
  sdf_data : sdf_store
}.

(** [self.sdf_data = sdf_data_dict]. *)
Definition set_sdf_data (self : reader) (d : dict (dict sdf_profile))
  : reader :=
  {| filename := filename self;
     energy_boundaries := energy_boundaries self;
     sdf_data := SdfDict d |}.

Definition region_integrated (p : sdf_profile) : bool :=
  Z.eqb (zone_number p) 0 && Z.eqb (zone_volume p) 0.

(** The loop of [convert_to_dict] over a list of profiles, with the two key
    functions. *)
Definition nest_profile (nuclide_of reaction_of : sdf_profile -> string)
  (sdf_data_dict : dict (dict sdf_profile)) (p : sdf_profile)
  : dict (dict sdf_profile) :=
  let nuclide := nuclide_of p in
  let inner := match dict_get sdf_data_dict nuclide with
               | Some d => d
               | None => []
               end in
  dict_set sdf_data_dict nuclide (dict_set inner (reaction_of p) p).

Definition nest_profiles (nuclide_of reaction_of : sdf_profile -> string)
  (profiles : list sdf_profile) : dict (dict sdf_profile) :=
  fold_left (nest_profile nuclide_of reaction_of) profiles [].

Record nuclide_contribution : Type := {
  nc_isotope : string;
  nc_contribution : UFloat
}.

Record reaction_contribution : Type := {
  rc_isotope : string;
  rc_reaction_type : string;
  rc_contribution : UFloat
}.

(** *** [tsunami_ip_utils.py] *)

Module Legacy.

Section Files.

(** The grammar applied to the content of a file. *)
Variable parse_sdf : string -> result parsed_sdf.

(** The order in which a set of strings is iterated. *)
Variable set_order : list string -> list string.

Definition _read_sdf (filename : string)
  : M (list R * list sdf_profile) :=
  data <- lift (parse_sdf filename) ;;
  sdf_data <-
    mapM (fun m =>
            to_profile m (firstn (num_groups data) (m_data_block m))
                         (skipn (num_groups data) (m_data_block m)))
         (parsed_matches data) ;;
  ret (parsed_energy_boundaries data, sdf_data).

(** The profiles a new [RegionIntegratedSdfReader] holds: those with
    zone number and zone volume both zero. *)
Definition region_integrated_sdf_data (filename : string)
  : M (list R * list sdf_profile) :=
  ' (energy_boundaries, sdf_data) <- _read_sdf filename ;;
  ret (energy_boundaries, filter region_integrated sdf_data).

Definition RegionIntegratedSdfReader (filename : string) : M reader :=
  ' (energy_boundaries, sdf_data) <- region_integrated_sdf_data filename ;;
  ret {| filename := filename;
         energy_boundaries := energy_boundaries;
         sdf_data := SdfList sdf_data |}.

(** The new value of [self.sdf_data].  Iterating a dictionary yields its
    keys, and a key cannot be indexed by ['isotope']. *)
Definition convert_to_dict (self : reader)
  : result (dict (dict sdf_profile)) :=
  match sdf_data self with
  | SdfList profiles => Ok (nest_profiles isotope reaction_type profiles)
  | SdfDict [] => Ok []
  | SdfDict (_ :: _) => Raise TypeError
  end.

(** The profiles are read from the file again. *)
Definition get_sensitivity_profiles (self : reader) (reaction : string)
  : M (list (list UFloat)) :=
  ' (_, profiles) <- region_integrated_sdf_data (filename self) ;;
  if String.eqb reaction "all"
  then ret (map sensitivities profiles)
  else ret (map sensitivities
                (filter (fun data =>
                           String.eqb (reaction_type data) reaction)
                        profiles)).

(** The values of [E_vals[i, j]], row by row. *)
Definition calculate_E (application_filenames experiment_filenames
                        : list string)
  (reaction uncertainties : string) : M (list (list UFloat)) :=
  application_sdfs <-
    mapM (fun filename =>
            r <- RegionIntegratedSdfReader filename ;;
            get_sensitivity_profiles r reaction)
         application_filenames ;;
  experiment_sdfs <-
    mapM (fun filename =>
            r <- RegionIntegratedSdfReader filename ;;
            get_sensitivity_profiles r reaction)
         experiment_filenames ;;
  E_vals <-
    mapM (fun _ => ufloat 0 0) (list_prod experiment_sdfs application_sdfs) ;;
  mapM (fun experiment =>
          mapM (fun application =>
                  application_vector <-
                    Engine.create_sensitivity_vector (snd application) ;;
                  experiment_vector <-
                    Engine.create_sensitivity_vector (snd experiment) ;;
                  Engine.calculate_E_from_sensitivity_vecs
                    application_vector experiment_vector
                    (Some (fst application)) (Some (fst experiment))
                    uncertainties None None)
               (combine application_filenames application_sdfs))
       (combine experiment_filenames experiment_sdfs).

(** [d[isotope][reaction]['sensitivities']]. *)
Definition profile_sensitivities (d : dict (dict sdf_profile))
  (isotope reaction : string) : result (list UFloat) :=
  by_reaction <~ dict_getitem d isotope ;;
  profile <~ dict_getitem by_reaction reaction ;;
  Ok (sensitivities profile).

Definition get_reaction_wise_E_contributions
  (application experiment : dict (dict sdf_profile)) (isotope : string)
  (all_reactions : list string) (application_norm experiment_norm : UFloat)
  : M (list reaction_contribution) :=
  mapM (fun reaction =>
          application_vector <-
            lift (profile_sensitivities application isotope reaction) ;;
          experiment_vector <-
            lift (profile_sensitivities experiment isotope reaction) ;;
          E_contribution <-
            Engine.calculate_E_from_sensitivity_vecs
              application_vector experiment_vector None None "manual"
              (Some experiment_norm) (Some application_norm) ;;
          ret {| rc_isotope := isotope;
                 rc_reaction_type := reaction;
                 rc_contribution := E_contribution |})
       all_reactions.

Definition isotope_does_not_contribute
  (application experiment : dict (dict sdf_profile)) (isotope : string)
  : bool :=
  negb (dict_mem application isotope) || negb (dict_mem experiment isotope).

(** One pass of the loop over [all_isotopes]; [acc] holds the two lists
    built so far. *)
Definition isotope_step
  (application experiment : dict (dict sdf_profile))
  (all_reactions : list string) (application_norm experiment_norm : UFloat)
  (acc : list nuclide_contribution * list reaction_contribution)
  (isotope : string)
  : M (list nuclide_contribution * list reaction_contribution) :=
  if isotope_does_not_contribute application experiment isotope then
    zero <- ufloat 0 0 ;;
    zeros <-
      mapM (fun reaction_type =>
              zero <- ufloat 0 0 ;;
              ret {| rc_isotope := isotope;
                     rc_reaction_type := reaction_type;
                     rc_contribution := zero |})
           all_reactions ;;
    ret (fst acc ++ [{| nc_isotope := isotope; nc_contribution := zero |}],
         snd acc ++ zeros)
  else
    application_profiles <-
      lift (rmap (profile_sensitivities application isotope)
                 all_reactions) ;;
    application_vector <-
      Engine.create_sensitivity_vector application_profiles ;;
    experiment_profiles <-
      lift (rmap (profile_sensitivities experiment isotope)
                 all_reactions) ;;
    experiment_vector <-
      Engine.create_sensitivity_vector experiment_profiles ;;
    E_isotope_contribution <-
      Engine.calculate_E_from_sensitivity_vecs
        application_vector experiment_vector None None "manual"
        (Some experiment_norm) (Some application_norm) ;;
    reaction_wise <-
      get_reaction_wise_E_contributions application experiment isotope
        all_reactions application_norm experiment_norm ;;
    ret (fst acc ++ [{| nc_isotope := isotope;
                        nc_contribution := E_isotope_contribution |}],
         snd acc ++ reaction_wise).

(** Returns the two lists and the two readers, which [convert_to_dict] has
    changed. *)
Definition get_nuclide_and_reaction_wise_E_contributions
  (application experiment : reader)
  : M ((list nuclide_contribution * list reaction_contribution)
       * (reader * reader)) :=
  application_profiles <- get_sensitivity_profiles application "all" ;;
  application_vector <-
    Engine.create_sensitivity_vector application_profiles ;;
  experiment_profiles <- get_sensitivity_profiles experiment "all" ;;
  experiment_vector <-
    Engine.create_sensitivity_vector experiment_profiles ;;
  application_norm <- lift (Engine.vector_norm application_vector) ;;
  experiment_norm <- lift (Engine.vector_norm experiment_vector) ;;
  application_dict <- lift (convert_to_dict application) ;;
  let application_reader := set_sdf_data application application_dict in
  let application := application_dict in
  experiment_dict <- lift (convert_to_dict experiment) ;;
  let experiment_reader := set_sdf_data experiment experiment_dict in
  let experiment := experiment_dict in
  let all_isotopes :=
    set_order (dict_keys application ++ dict_keys experiment) in
  arbitrary_nuclide <- lift (getitem (dict_keys application) 0) ;;
  by_reaction <- lift (dict_getitem application arbitrary_nuclide) ;;
  let all_reactions := dict_keys by_reaction in
  contributions <-
    foldM (isotope_step application experiment all_reactions
                        application_norm experiment_norm)
          all_isotopes ([], []) ;;
  ret (contributions, (application_reader, experiment_reader)).

(** The inner loop of [calculate_E_contributions] over the applications,
    for one experiment; the readers are shared between the passes. *)
Fixpoint contributions_row (experiment : reader) (applications : list reader)
  : M (list (list nuclide_contribution * list reaction_contribution)
       * (reader * list reader)) :=
  match applications with
  | [] => ret ([], (experiment, []))
  | application :: applications' =>
      ' (contributions, (application, experiment)) <-
        get_nuclide_and_reaction_wise_E_contributions application
                                                      experiment ;;
      ' (row, (experiment, applications')) <-
        contributions_row experiment applications' ;;
      ret (contributions :: row, (experiment, application :: applications'))
  end.

Fixpoint contributions_rows (experiments applications : list reader)
  : M (list (list (list nuclide_contribution
                   * list reaction_contribution))) :=
  match experiments with
  | [] => ret []
  | experiment :: experiments' =>
      ' (row, (_, applications)) <-
        contributions_row experiment applications ;;
      rows <- contributions_rows experiments' applications ;;
      ret (row :: rows)
  end.

Definition calculate_E_contributions
  (application_filenames experiment_filenames : list string)
  : M (list (list (list nuclide_contribution
                   * list reaction_contribution))) :=
  application_sdfs <- mapM RegionIntegratedSdfReader application_filenames ;;
  experiment_sdfs <- mapM RegionIntegratedSdfReader experiment_filenames ;;
  contributions_rows experiment_sdfs application_sdfs.

End Files.

End Legacy.

(** *** [tsunami_ip_utils/readers.py] *)

(** One line of the table of contributions by covariance matrix. *)
Record covariance_line : Type := {
  l_isotope1 : string;
  l_reaction1 : string;
  l_isotope2 : string;
  l_reaction2 : string;
  l_value : R;
  l_uncertainty : R
}.

Module Readers.

(** The split of a data block into sensitivities and uncertainties, each
    reversed. *)
Definition split_data_block (num_groups : nat) (data_block : list R)
  : list R * list R :=
  (rev (firstn num_groups data_block), rev (skipn num_groups data_block)).

(** The profiles [_read_sdf] builds from the tokens of a file. *)
Definition sdf_profiles (data : parsed_sdf) : M (list sdf_profile) :=
  mapM (fun m =>
          let halves := split_data_block (num_groups data) (m_data_block m) in
          to_profile m (fst halves) (snd halves))
       (parsed_matches data).

Section Files.

Variable parse_sdf : string -> result parsed_sdf.

Definition _read_sdf (filename : string)
  : M (list R * list sdf_profile) :=
  data <- lift (parse_sdf filename) ;;
  sdf_data <- sdf_profiles data ;;
  ret (parsed_energy_boundaries data, sdf_data).

Definition region_integrated_sdf_data (filename : string)
  : M (list R * list sdf_profile) :=
  ' (energy_boundaries, sdf_data) <- _read_sdf filename ;;
  ret (energy_boundaries, filter region_integrated sdf_data).

Definition RegionIntegratedSdfReader (filename : string) : M reader :=
  ' (energy_boundaries, sdf_data) <- region_integrated_sdf_data filename ;;
  ret {| filename := filename;
         energy_boundaries := energy_boundaries;
         sdf_data := SdfList sdf_data |}.

(** [convert_to_dict(key)]: a reader that already holds a dictionary is
    returned as it is; with a key other than ['names'] and ['numbers'] the
    first pass of the loop meets an unbound [nuclide]. *)
Definition convert_to_dict (self : reader) (key : string) : result reader :=
  match sdf_data self with
  | SdfDict _ => Ok self
  | SdfList profiles =>
      if String.eqb key "names"
      then Ok (set_sdf_data self
                 (nest_profiles isotope reaction_type profiles))
      else if String.eqb key "numbers"
      then Ok (set_sdf_data self (nest_profiles zaid reaction_mt profiles))
      else match profiles with
           | [] => Ok (set_sdf_data self [])
           | _ :: _ => Raise UnboundLocalError
           end
  end.

Definition get_sensitivity_profiles (self : reader) (reaction : string)
  : M (list (list UFloat)) :=
  match sdf_data self with
  | SdfList _ =>
      ' (_, profiles) <- region_integrated_sdf_data (filename self) ;;
      if String.eqb reaction "all"
      then ret (map sensitivities profiles)
      else ret (map sensitivities
                    (filter (fun data =>
                               String.eqb (reaction_type data) reaction)
                            profiles))
  | SdfDict d =>
      let profiles := concat (map (@dict_values sdf_profile)
                                  (dict_values d)) in
      if String.eqb reaction "all"
      then ret (map sensitivities profiles)
      else ret (map sensitivities
                    (filter (fun data =>
                               String.eqb (reaction_type data) reaction)
                            profiles))
  end.

End Files.

(** The dictionary built from one line of the table. *)
Definition isotope_reaction_entry (line : covariance_line)
  : M reaction_contribution :=
  contribution <- ufloat (l_value line) (l_uncertainty line) ;;
  ret {| rc_isotope := l_isotope1 line ++ " - " ++ l_isotope2 line;
         rc_reaction_type := l_reaction1 line ++ " - " ++ l_reaction2 line;
         rc_contribution := contribution |}.

(** One pass of the loop that adds up the signed squares. *)
Definition accumulate (isotope_totals : dict UFloat)
  (data : reaction_contribution) : M (dict UFloat) :=
  let isotope := rc_isotope data in
  let contribution := rc_contribution data in
  isotope_totals <-
    (if negb (dict_mem isotope_totals isotope)
     then zero <- ufloat 0 0 ;; ret (dict_set isotope_totals isotope zero)
     else ret isotope_totals) ;;
  total <- lift (dict_getitem isotope_totals isotope) ;;
  if ult0 contribution
  then ret (dict_set isotope_totals isotope
                     (usub total (upow2 (rc_contribution data))))
  else ret (dict_set isotope_totals isotope
                     (uadd total (upow2 (rc_contribution data)))).

Definition as_list (isotope_totals : dict UFloat)
  : list nuclide_contribution :=
  map (fun kv => {| nc_isotope := fst kv; nc_contribution := snd kv |})
      isotope_totals.

(** [total**0.5 if total > 0 else -(-total)**0.5]. *)
Definition signed_root (total : UFloat) : result UFloat :=
  if ugt0 total then upow_half total
  else r <~ upow_half (uneg total) ;; Ok (uneg r).

(** The nuclide totals of [read_uncertainty_contributions_out]. *)
Definition isotope_totals_out (isotope_reaction : list reaction_contribution)
  : M (list nuclide_contribution) :=
  isotope_totals <- foldM accumulate isotope_reaction [] ;;
  isotope_totals <-
    lift (rmap (fun kv => total <~ upow_half (snd kv) ;; Ok (fst kv, total))
               isotope_totals) ;;
  ret (as_list isotope_totals).

(** The nuclide totals of [read_uncertainty_contributions_sdf], for one
    application. *)
Definition isotope_totals_sdf (application : list reaction_contribution)
  : M (list nuclide_contribution) :=
  isotope_totals <- foldM accumulate application [] ;;
  isotope_totals <-
    lift (rmap (fun kv => total <~ signed_root (snd kv) ;; Ok (fst kv, total))
               isotope_totals) ;;
  ret (as_list isotope_totals).

(** [read_uncertainty_contributions_out], from the lines of the table. *)
Definition read_uncertainty_contributions_out (lines : list covariance_line)
  : M (list nuclide_contribution * list reaction_contribution) :=
  isotope_reaction <- mapM isotope_reaction_entry lines ;;
  isotope_totals <- isotope_totals_out isotope_reaction ;;
  ret (isotope_totals, isotope_reaction).

(** [read_uncertainty_contributions_sdf], from the tables found in the output
    of the solver, one per file. *)
Definition read_uncertainty_contributions_sdf
  (parsed_data : list (list covariance_line))
  : M (list (list nuclide_contribution) * list (list reaction_contribution)) :=
  isotope_reaction <- mapM (mapM isotope_reaction_entry) parsed_data ;;
  isotope_totals <- mapM isotope_totals_sdf isotope_reaction ;;
  ret (isotope_totals, isotope_reaction).

End Readers.

(** ** [utils.py] and the format conversion of [tsunami_ip_utils.py]

    Nuclide names are strings of ASCII characters. *)

Definition is_digit (c : ascii) : bool :=
  (48 <=? nat_of_ascii c)%nat && (nat_of_ascii c <=? 57)%nat.

(** The digits a string starts with. *)
Fixpoint leading_digits (s : string) : list ascii :=
  match s with
  | EmptyString => []
  | String c s' => if is_digit c then c :: leading_digits s' else []
  end.

(** [re.findall(r'\d+', isotope)], of which only the first match is used:
    the first maximal run of digits, if there is one. *)
Fixpoint findall_digits_first (isotope : string) : option (list ascii) :=
  match isotope with
  | EmptyString => None
  | String c s' =>
      if is_digit c then Some (c :: leading_digits s')
      else findall_digits_first s'
  end.

(** [int] of a string of digits. *)
Definition int_of_digits (ds : list ascii) : Z :=
  fold_left (fun n c => (10 * n + Z.of_nat (nat_of_ascii c - 48))%Z) ds 0%Z.

(** [list.sort(key=...)]: the keys are computed first, one per element, and
    the sort is stable. *)
Fixpoint insert_keyed (p : Z * string) (l : list (Z * string))
  : list (Z * string) :=
  match l with
  | [] => [p]
  | q :: l' =>
      if (fst p <=? fst q)%Z then p :: l else q :: insert_keyed p l'
  end.

Definition sort_keyed (l : list (Z * string)) : list (Z * string) :=
  fold_right insert_keyed [] l.

Definition sort_by_keys (keys : list Z) (l : list string) : list string :=
  map snd (sort_keyed (combine keys l)).

(** An element of a list of profiles or contributions: a dictionary with the
    keys ['isotope'] and ['reaction_type'], which hold strings, and other
    keys, which hold values of type [V]. *)
Record entry (V : Type) : Type := {
  entry_isotope : string;
  entry_reaction_type : string;
  entry_fields : dict V
}.

Arguments entry_isotope {V} _.
Arguments entry_reaction_type {V} _.
Arguments entry_fields {V} _.

(** [isotope_reaction[key]]. *)
Definition entry_get {V : Type} (isotope_reaction : entry V) (key : string)
  : option (string + V) :=
  if String.eqb key "isotope"
  then Some (inl (entry_isotope isotope_reaction))
  else if String.eqb key "reaction_type"
  then Some (inl (entry_reaction_type isotope_reaction))
  else option_map inr (dict_get (entry_fields isotope_reaction) key).

Definition entry_getitem {V : Type} (isotope_reaction : entry V)
  (key : string) : result (string + V) :=
  match entry_get isotope_reaction key with
  | Some value => Ok value
  | None => Raise KeyError
  end.

(** [{ isotope: {} for isotope in all_isotopes }]. *)
Definition empty_dicts {V : Type} (all_isotopes : list string)
  : dict (dict V) :=
  fold_left (fun d isotope => dict_set d isotope []) all_isotopes [].

(** One pass of the loop over [isotope_reaction_list]. *)
Definition store_entry {V : Type} (field_of_interest : string)
  (isotope_reaction_dict : dict (dict (string + V)))
  (isotope_reaction : entry V)
  : result (dict (dict (string + V))) :=
  let isotope := entry_isotope isotope_reaction in
  let reaction := entry_reaction_type isotope_reaction in
  value <~ entry_getitem isotope_reaction field_of_interest ;;
  inner <~ dict_getitem isotope_reaction_dict isotope ;;
  Ok (dict_set isotope_reaction_dict isotope (dict_set inner reaction value)).

Module Utils.

(** [-1] when the name has no digit. *)
Definition get_atomic_number (isotope : string) : Z :=
  match findall_digits_first isotope with
  | Some matches0 => int_of_digits matches0
  | None => (-1)%Z
  end.

Section NestedDict.

Context {V : Type}.

(** The order in which a set of strings built from a list is iterated. *)
Variable set_order : list string -> list string.

Definition isotope_reaction_list_to_nested_dict
  (isotope_reaction_list : list (entry V)) (field_of_interest : string)
  : result (dict (dict (string + V))) :=
  let all_isotopes := set_order (map entry_isotope isotope_reaction_list) in
  let all_isotopes :=
    sort_by_keys (map get_atomic_number all_isotopes) all_isotopes in
  let isotope_reaction_dict := empty_dicts all_isotopes in
  rfold (store_entry field_of_interest) isotope_reaction_list
        isotope_reaction_dict.

End NestedDict.

(** The dictionaries are iterated as their items; the keys of a dictionary
    are distinct. *)
Definition filter_redundant_reactions {V : Type} (data_dict : dict (dict V))
  (redundant_reactions : list string) : dict (dict V) :=
  map (fun item =>
         (fst item,
          filter (fun reaction_value =>
                    negb (existsb (String.eqb (fst reaction_value))
                                  redundant_reactions))
                 (snd item)))
      data_dict.

Definition default_redundant_reactions : list string :=
  ["chi"; "capture"; "nubar"; "total"].

Definition filter_by_nuclie_reaction_dict {V : Type}
  (data_dict : dict (dict V)) (nuclide_reactions : dict (list string))
  : result (dict (dict V)) :=
  rmap (fun item =>
          let nuclide := fst item in
          let reactions := snd item in
          match reactions with
          | [] => Ok (nuclide, [])
          | _ :: _ =>
              allowed <~ dict_getitem nuclide_reactions nuclide ;;
              Ok (nuclide,
                  filter (fun reaction_xs =>
                            existsb (String.eqb (fst reaction_xs)) allowed)
                         reactions)
          end)
       (filter (fun item => dict_mem nuclide_reactions (fst item)) data_dict).

End Utils.

Module LegacyUtils.

(** [int(re.findall(r'\d+', isotope)[0])]. *)
Definition get_atomic_number (isotope : string) : result Z :=
  match findall_digits_first isotope with
  | Some matches0 => Ok (int_of_digits matches0)
  | None => Raise IndexError
  end.

Section NestedDict.

Context {V : Type}.

Variable set_order : list string -> list string.

Definition isotope_reaction_list_to_nested_dict
  (isotope_reaction_list : list (entry V)) (field_of_interest : string)
  : result (dict (dict (string + V))) :=
  let all_isotopes := set_order (map entry_isotope isotope_reaction_list) in
  keys <~ rmap get_atomic_number all_isotopes ;;
  let all_isotopes := sort_by_keys keys all_isotopes in
  let isotope_reaction_dict := empty_dicts all_isotopes in
  rfold (store_entry field_of_interest) isotope_reaction_list
        isotope_reaction_dict.

End NestedDict.

End LegacyUtils.

(** ** Reference formulas

    The quantities the properties below are stated with. *)

(** The Euclidean norm of a list of reals. *)
Definition norm2 (x : list R) : R := sqrt (Rsum (map (fun xi => xi ^ 2) x)).

(** The dot product of [a] and [b] after division by [na] and [nb]. *)
Definition scaled_dot (a b : list R) (na nb : R) : R :=
  Rsum (map (fun ab => (fst ab / na) * (snd ab / nb)) (combine a b)).

(** [(a / ||a||) . (b / ||b||)]. *)
Definition normalized_dot (a b : list R) : R :=
  scaled_dot a b (norm2 a) (norm2 b).

(** The variables that [ufloat] creates from the counter value [s] on. *)
Fixpoint fresh_variables (s : nat) (ps : list (R * R)) : list UFloat :=
  match ps with
  | [] => []
  | p :: ps' =>
      {| nominal_value := fst p;
         linear_part := [(1, {| tag := s; var_std_dev := snd p |})] |}
        :: fresh_variables (S s) ps'
  end.

(** The variance that a pair of components with nominal values [a], [b] and
    uncertainties [sa], [sb] adds to the dot product in manual mode. *)
Definition product_variance (a sa b sb : R) : R :=
  if Req_dec_T a 0 then 0
  else if Req_dec_T b 0 then 0
  else (a * b) ^ 2 * ((sa / a) ^ 2 + (sb / b) ^ 2).

Definition contribution_variance (a b : UFloat) : R :=
  product_variance (nominal_value a) (std_dev a) (nominal_value b) (std_dev b).

(** The value of [x / y] when [y] is not zero. *)
Definition quotient (x y : UFloat) : UFloat :=
  affine2 (nominal_value x / nominal_value y)
          (1 / nominal_value y) x
          (- nominal_value x / nominal_value y ^ 2) y.

(** The value of [umath.sqrt(np.sum(vector**2))]. *)
Definition norm_value (vector : list UFloat) : UFloat :=
  affine1 (norm2 (nominal_values vector))
          (0.5 / norm2 (nominal_values vector))
          (np_sum (map upow2 vector)).

(** The value of [np.dot(a, b)] on arrays of one length. *)
Definition dot_value (a b : list UFloat) : UFloat :=
  np_sum (map (fun xy => umul (fst xy) (snd xy)) (combine a b)).

(** The uncertainty that manual mode attaches to [E] when the vectors are
    divided by [na] and [nb]. *)
Definition manual_uncertainty (a b : list UFloat) (na nb : R) : R :=
  let ua := map (fun x => x / na) (nominal_values a) in
  let ub := map (fun x => x / nb) (nominal_values b) in
  let ea := Engine.unit_vector_uncertainty_propagation a in
  let eb := Engine.unit_vector_uncertainty_propagation b in
  sqrt (Rsum (map (fun p => product_variance (fst (fst p)) (snd (fst p))
                                             (fst (snd p)) (snd (snd p)))
                  (combine (combine ua ea) (combine ub eb)))).

(** Entry [(i, j)] of the Jacobian of [x |-> x / ||x||]. *)
Definition jacobian_entry (x : list R) (i j : nat) : R :=
  if Nat.eqb i j
  then (norm2 x ^ 2 - nth i x 0 ^ 2) / norm2 x ^ 3
  else - nth i x 0 * nth j x 0 / norm2 x ^ 3.

(** The running signed sum of squares of a list of contributions. *)
Definition signed_sum_of_squares (contributions : list R) : R :=
  fold_left (fun total c => if Rlt_dec c 0 then total - c ^ 2
                            else total + c ^ 2)
            contributions 0.

(** The sign of a real number. *)
Definition Rsign (x : R) : R :=
  if Rlt_dec 0 x then 1 else if Rlt_dec x 0 then -1 else 0.

(** The root of the absolute value, with the sign of the argument. *)
Definition signed_sqrt (total : R) : R := Rsign total * sqrt (Rabs total).

(** The nominal contributions recorded for one isotope, in order. *)
Definition contributions_of (isotope : string)
  (records : list reaction_contribution) : list R :=
  map (fun data => nominal_value (rc_contribution data))
      (filter (fun data => String.eqb (rc_isotope data) isotope) records).

(** What [_read_sdf] stores for one block of a file that declares [N]
    groups. *)
Definition stored_reversed (N : nat) (m : sdf_match) (p : sdf_profile)
  : Prop :=
  length (sensitivities p) = N
  /\ nominal_values (sensitivities p) = rev (firstn N (m_data_block m))
  /\ std_devs (sensitivities p) = rev (skipn N (m_data_block m))
  /\ forall i, (i < N)%nat ->
       nominal_value (nth i (sensitivities p) (uconst 0))
       = nth (N - 1 - i) (m_data_block m) 0
       /\ std_dev (nth i (sensitivities p) (uconst 0))
          = nth (2 * N - 1 - i) (m_data_block m) 0.

(** The dictionary of running totals agrees with the records read so far. *)
Definition totals_track (d : dict UFloat) (records : list reaction_contribution)
  : Prop :=
  NoDup (dict_keys d)
  /\ forall iso,
       match dict_get d iso with
       | Some total =>
           In iso (map rc_isotope records)
           /\ nominal_value total
              = signed_sum_of_squares (contributions_of iso records)
       | None => ~ In iso (map rc_isotope records)
       end.

(** A contribution of value [0] and uncertainty [0]. *)
Definition is_zero (x : UFloat) : Prop :=
  nominal_value x = 0 /\ std_dev x = 0.

Section DecompositionSpec.

Variables application experiment : dict (dict sdf_profile).
Variable all_reactions : list string.

(** What one pass appends. *)
Definition step_appended (isotope : string)
  (acc acc' : list nuclide_contribution * list reaction_contribution)
  : Prop :=
  exists e rw,
    acc' = (fst acc ++ [e], snd acc ++ rw)
    /\ nc_isotope e = isotope
    /\ Forall2 (fun r x => rc_isotope x = isotope /\ rc_reaction_type x = r)
               all_reactions rw
    /\ (Legacy.isotope_does_not_contribute application experiment isotope
        = true ->
        is_zero (nc_contribution e)
        /\ Forall (fun x => is_zero (rc_contribution x)) rw).

(** Every entry recorded for an isotope that one side lacks is zero. *)
Definition zeros_for_absent_in
  (acc : list nuclide_contribution * list reaction_contribution) : Prop :=
  forall isotope,
    Legacy.isotope_does_not_contribute application experiment isotope = true ->
    (forall e, In e (fst acc) -> nc_isotope e = isotope ->
               is_zero (nc_contribution e))
    /\ (forall x, In x (snd acc) -> rc_isotope x = isotope ->
                  is_zero (rc_contribution x)).

(** The entries of an isotope are present. *)
Definition recorded_in (isotope : string)
  (acc : list nuclide_contribution * list reaction_contribution) : Prop :=
  (exists e, In e (fst acc) /\ nc_isotope e = isotope)
  /\ (forall r, In r all_reactions ->
        exists x, In x (snd acc)
                  /\ rc_isotope x = isotope /\ rc_reaction_type x = r).

End DecompositionSpec.

(** *** A small example: one file with a uranium profile, one with a
    hydrogen profile, one energy group each. *)

Definition example_match (iso reaction : string) (value : R) : sdf_match :=
  {| m_isotope := iso; m_reaction_type := reaction;
     m_zaid := "0"; m_reaction_mt := "0";
     m_zone_number := 0; m_zone_volume := 0;
     m_energy_integrated_sensitivity := (value, 0);
     m_abs_sum_groupwise_sensitivities := value;
     m_sum_opposite_sign_groupwise_sensitivities := (0, 0);
     m_data_block := [value; 0] |}.

Definition example_files (filename : string) : result parsed_sdf :=
  if String.eqb filename "app.sdf"
  then Ok {| num_groups := 1; parsed_energy_boundaries := [20; 0];
             parsed_matches := [example_match "u-235" "fission" 1] |}
  else if String.eqb filename "exp.sdf"
  then Ok {| num_groups := 1; parsed_energy_boundaries := [20; 0];
             parsed_matches := [example_match "h-1" "fission" 1] |}
  else Raise ParseException.

Definition example_profile (iso reaction : string) (value : R) (s : nat)
  : sdf_profile :=
  {| isotope := iso; reaction_type := reaction;
     zaid := "0"; reaction_mt := "0";
     zone_number := 0; zone_volume := 0;
     energy_integrated_sensitivity :=
       {| nominal_value := value;
          linear_part := [(1, {| tag := S s; var_std_dev := 0 |})] |};
     abs_sum_groupwise_sensitivities := value;
     sum_opposite_sign_groupwise_sensitivities :=
       {| nominal_value := 0;
          linear_part := [(1, {| tag := S (S s); var_std_dev := 0 |})] |};
     sensitivities := fresh_variables s [(value, 0)] |}.

Definition example_reader (filename iso : string) (s : nat) : reader :=
  {| filename := filename; energy_boundaries := [20; 0];
     sdf_data := SdfList [example_profile iso "fission" 1 s] |}.

(** The distinct strings of a list, in order of first occurrence. *)
Definition add_key (seen : list string) (k : string) : list string :=
  if existsb (String.eqb k) seen then seen else seen ++ [k].

Definition first_occurrences (l : list string) : list string :=
  fold_left add_key l [].

(** [d[nuclide][reaction]] in a dictionary of dictionaries, if present. *)
Definition lookup2 {V : Type} (d : dict (dict V)) (nuclide reaction : string)
  : option V :=
  match dict_get d nuclide with
  | Some inner => dict_get inner reaction
  | None => None
  end.

(** The last profile of a list with the given pair of keys. *)
Definition last_matching (nuclide_of reaction_of : sdf_profile -> string)
  (nuclide reaction : string) (profiles : list sdf_profile)
  : option sdf_profile :=
  fold_left (fun found p =>
               if String.eqb (nuclide_of p) nuclide
                  && String.eqb (reaction_of p) reaction
               then Some p else found)
            profiles None.

(** Every variable that [x] depends on is one of [vs]. *)
Definition variables_among (vs : list UVariable) (x : UFloat) : Prop :=
  forall cv, In cv (linear_part x) -> In (snd cv) vs.

(** The variables that [fresh_variables] creates. *)
Fixpoint fresh_tags (s : nat) (ps : list (R * R)) : list UVariable :=
  match ps with
  | [] => []
  | p :: ps' => {| tag := s; var_std_dev := snd p |} :: fresh_tags (S s) ps'
  end.

(** The blocks that [get_sensitivity_profiles(reaction)] takes from a file:
    region-integrated, and of the reaction asked for unless it is ['all']. *)
Definition selected (reaction : string) (m : sdf_match) : bool :=
  (Z.eqb (m_zone_number m) 0 && Z.eqb (m_zone_volume m) 0)
  && (String.eqb reaction "all" || String.eqb (m_reaction_type m) reaction).

(** The values of the sensitivity vector that [tsunami_ip_utils.py] builds
    from a file. *)
Definition legacy_sensitivity_values (data : parsed_sdf) (reaction : string)
  : list R :=
  concat (map (fun m => firstn (num_groups data) (m_data_block m))
              (filter (selected reaction) (parsed_matches data))).

(** Every block holds twice the number of groups, and no uncertainty is
    negative. *)
Definition well_formed_sdf (data : parsed_sdf) : Prop :=
  forall m, In m (parsed_matches data) ->
    length (m_data_block m) = (2 * num_groups data)%nat
    /\ Forall (fun sd => 0 <= sd) (skipn (num_groups data) (m_data_block m))
    /\ 0 <= snd (m_energy_integrated_sensitivity m)
    /\ 0 <= snd (m_sum_opposite_sign_groupwise_sensitivities m).

(** A profile built from a block by [tsunami_ip_utils.py]. *)
Definition legacy_profile_of (N : nat) (m : sdf_match) (p : sdf_profile)
  : Prop :=
  isotope p = m_isotope m
  /\ reaction_type p = m_reaction_type m
  /\ zone_number p = m_zone_number m
  /\ zone_volume p = m_zone_volume m
  /\ nominal_values (sensitivities p) = firstn N (m_data_block m)
  /\ std_devs (sensitivities p) = skipn N (m_data_block m).

(** What the reaction-wise pass of the decomposition records for one
    reaction of a nuclide. *)
Definition reaction_entry_of (application experiment : dict (dict sdf_profile))
  (application_norm experiment_norm : UFloat) (isotope r : string)
  (x : reaction_contribution) : Prop :=
  rc_isotope x = isotope
  /\ rc_reaction_type x = r
  /\ exists a b,
       Legacy.profile_sensitivities application isotope r = Ok a
       /\ Legacy.profile_sensitivities experiment isotope r = Ok b
       /\ length a = length b
       /\ nominal_value (rc_contribution x)
          = scaled_dot (nominal_values a) (nominal_values b)
                       (nominal_value application_norm)
                       (nominal_value experiment_norm).

(** The value of the field of the last entry of a list with the given pair
    of keys. *)
Definition last_entry_value {V : Type} (field nuclide reaction : string)
  (entries : list (entry V)) : option (string + V) :=
  fold_left (fun found e =>
               if String.eqb (entry_isotope e) nuclide
                  && String.eqb (entry_reaction_type e) reaction
               then entry_get e field else found)
            entries None.

(** The name holds a digit. *)
Fixpoint has_digit (s : string) : bool :=
  match s with
  | EmptyString => false
  | String c s' => is_digit c || has_digit s'
  end.

(** The iteration order of a set holds each element of the list once. *)
Definition iterates_once (set_order : list string -> list string) : Prop :=
  forall l, NoDup (set_order l) /\ forall k, In k (set_order l) <-> In k l.

(** No later name has a smaller atomic number. *)
Definition by_atomic_number (names : list string) : Prop :=
  StronglySorted (fun x y => (Utils.get_atomic_number x
                              <= Utils.get_atomic_number y)%Z) names.

(** A list of contributions: hydrogen twice with the same reaction, and
    carbon, whose name holds no digit. *)
Definition example_entries : list (entry Z) :=
  [ {| entry_isotope := "h-1"; entry_reaction_type := "capture";
       entry_fields := [("contribution", 1%Z)] |};
    {| entry_isotope := "c"; entry_reaction_type := "elastic";
       entry_fields := [("contribution", 2%Z)] |};
    {| entry_isotope := "h-1"; entry_reaction_type := "capture";
       entry_fields := [("contribution", 3%Z)] |} ].

(** The same without carbon. *)
Definition example_entries_with_digits : list (entry Z) :=
  [ {| entry_isotope := "u-235"; entry_reaction_type := "fission";
       entry_fields := [("contribution", 1%Z)] |};
    {| entry_isotope := "h-1"; entry_reaction_type := "capture";
       entry_fields := [("contribution", 3%Z)] |} ].
(** * Properties *)

#[local] Arguments pow _ _ : simpl never.

(** ** Sums of reals *)

Lemma fold_left_Rplus_acc (l : list R) (a : R) :
  fold_left Rplus l a = a + Rsum l.
Proof.
  unfold Rsum. revert a.
  induction l as [|x l IH]; intros a; simpl.
  - lra.
  - rewrite IH, (IH (0 + x)). lra.
Qed.

Lemma Rsum_nil : Rsum [] = 0.
Proof. reflexivity. Qed.

Lemma Rsum_cons (x : R) (l : list R) : Rsum (x :: l) = x + Rsum l.
Proof.
  unfold Rsum at 1. simpl. rewrite fold_left_Rplus_acc. lra.
Qed.

Lemma Rsum_app (l1 l2 : list R) : Rsum (l1 ++ l2) = Rsum l1 + Rsum l2.
Proof.
  induction l1 as [|x l1 IH]; simpl.
  - rewrite Rsum_nil. lra.
  - rewrite !Rsum_cons, IH. lra.
Qed.

Lemma Rsum_nonneg (l : list R) :
  Forall (fun x => 0 <= x) l -> 0 <= Rsum l.
Proof.
  induction 1 as [|x l Hx _ IH].
  - rewrite Rsum_nil. lra.
  - rewrite Rsum_cons. lra.
Qed.

Lemma Rsum_squares_nonneg (l : list R) : 0 <= Rsum (map (fun x => x ^ 2) l).
Proof.
  apply Rsum_nonneg. apply Forall_forall. intros y Hy.
  apply in_map_iff in Hy. destruct Hy as [x [<- _]]. nra.
Qed.

Lemma Rsum_all_zero (l : list R) : Forall (fun x => x = 0) l -> Rsum l = 0.
Proof.
  induction 1 as [|x l Hx _ IH].
  - apply Rsum_nil.
  - rewrite Rsum_cons. lra.
Qed.

Lemma Rsum_map_scal {A : Type} (c : R) (f : A -> R) (l : list A) :
  Rsum (map (fun a => c * f a) l) = c * Rsum (map f l).
Proof.
  induction l as [|a l IH]; simpl.
  - rewrite Rsum_nil. lra.
  - rewrite !Rsum_cons, IH. lra.
Qed.

Lemma Rsum_map_ext {A : Type} (f g : A -> R) (l : list A) :
  (forall a, In a l -> f a = g a) -> Rsum (map f l) = Rsum (map g l).
Proof.
  intros H. f_equal. apply map_ext_in. exact H.
Qed.

(** ** The algebra of numbers with uncertainty *)

Lemma derivative_in_app (l1 l2 : list (R * UVariable)) (t : nat) :
  derivative_in (l1 ++ l2) t = derivative_in l1 t + derivative_in l2 t.
Proof.
  induction l1 as [|[c v] l1 IH]; simpl.
  - lra.
  - destruct (Nat.eqb (tag v) t); rewrite IH; lra.
Qed.

Lemma derivative_in_scale (c : R) (l : list (R * UVariable)) (t : nat) :
  derivative_in (scale c l) t = c * derivative_in l t.
Proof.
  induction l as [|[d v] l IH]; simpl.
  - lra.
  - destruct (Nat.eqb (tag v) t); rewrite IH; lra.
Qed.

Lemma derivative_affine2 nv dx x dy y t :
  derivative (affine2 nv dx x dy y) t
  = dx * derivative x t + dy * derivative y t.
Proof.
  unfold derivative, affine2. simpl.
  now rewrite derivative_in_app, !derivative_in_scale.
Qed.

Lemma derivative_affine1 nv dx x t :
  derivative (affine1 nv dx x) t = dx * derivative x t.
Proof.
  unfold derivative, affine1. simpl. apply derivative_in_scale.
Qed.

Lemma derivative_uconst c t : derivative (uconst c) t = 0.
Proof. reflexivity. Qed.

Lemma std_dev_nonneg (x : UFloat) : 0 <= std_dev x.
Proof. unfold std_dev. apply sqrt_pos. Qed.

(** A number whose derivatives all vanish has no uncertainty. *)
Lemma std_dev_no_dependence (x : UFloat) :
  (forall t, derivative x t = 0) -> std_dev x = 0.
Proof.
  intros H. unfold std_dev, error_components.
  rewrite Rsum_all_zero; [apply sqrt_0|].
  apply Forall_forall. intros y Hy.
  apply in_map_iff in Hy. destruct Hy as [d [<- Hd]].
  apply in_map_iff in Hd. destruct Hd as [v [<- _]].
  rewrite H, Rmult_0_l, Rabs_R0. lra.
Qed.

Lemma std_dev_uconst c : std_dev (uconst c) = 0.
Proof. apply std_dev_no_dependence. intros t. apply derivative_uconst. Qed.

(** A new variable has the standard deviation it was created with. *)
Lemma std_dev_variable (nv sd : R) (t : nat) :
  0 <= sd ->
  std_dev {| nominal_value := nv;
             linear_part := [(1, {| tag := t; var_std_dev := sd |})] |} = sd.
Proof.
  intros Hsd. unfold std_dev, error_components, derivative. simpl.
  rewrite Nat.eqb_refl, Rsum_cons, Rsum_nil.
  replace ((1 + 0) * sd) with sd by lra.
  rewrite (Rabs_pos_eq sd Hsd).
  replace (sd ^ 2 + 0) with (sd * sd) by ring.
  now apply sqrt_square.
Qed.

Lemma ufloat_ok (nv sd : R) (s : nat) :
  0 <= sd ->
  ufloat nv sd s
  = Ok ({| nominal_value := nv;
           linear_part := [(1, {| tag := s; var_std_dev := sd |})] |}, S s).
Proof.
  intros Hsd. unfold ufloat.
  destruct (Rlt_dec sd 0) as [Hlt|_]; [lra|]. reflexivity.
Qed.

Lemma ufloat_negative (nv sd : R) (s : nat) :
  sd < 0 -> ufloat nv sd s = Raise NegativeStdDev.
Proof.
  intros Hsd. unfold ufloat.
  destruct (Rlt_dec sd 0) as [_|Hn]; [reflexivity|lra].
Qed.

Lemma nominal_fold_uadd (l : list UFloat) (x : UFloat) :
  nominal_value (fold_left uadd l x)
  = nominal_value x + Rsum (map nominal_value l).
Proof.
  revert x. induction l as [|y l IH]; intros x; simpl.
  - rewrite Rsum_nil. lra.
  - rewrite IH, Rsum_cons. simpl. lra.
Qed.

Lemma nominal_np_sum (l : list UFloat) :
  nominal_value (np_sum l) = Rsum (map nominal_value l).
Proof.
  destruct l as [|x l]; simpl.
  - now rewrite Rsum_nil.
  - rewrite nominal_fold_uadd, Rsum_cons. lra.
Qed.

Lemma derivative_fold_uadd (l : list UFloat) (x : UFloat) (t : nat) :
  derivative (fold_left uadd l x) t
  = derivative x t + Rsum (map (fun y => derivative y t) l).
Proof.
  revert x. induction l as [|y l IH]; intros x; simpl.
  - rewrite Rsum_nil. lra.
  - rewrite IH, Rsum_cons. unfold uadd. rewrite derivative_affine2. lra.
Qed.

Lemma derivative_np_sum (l : list UFloat) (t : nat) :
  derivative (np_sum l) t = Rsum (map (fun y => derivative y t) l).
Proof.
  destruct l as [|x l]; simpl.
  - now rewrite Rsum_nil.
  - rewrite derivative_fold_uadd, Rsum_cons. lra.
Qed.

(** ** Running the monads *)

Lemma mapM_ufloat_ok (ps : list (R * R)) (s : nat) :
  Forall (fun p => 0 <= snd p) ps ->
  mapM (fun p => ufloat (fst p) (snd p)) ps s
  = Ok (fresh_variables s ps, (s + length ps)%nat).
Proof.
  intros H. revert s.
  induction H as [|p ps Hp _ IH]; intros s; simpl.
  - unfold ret. now rewrite Nat.add_0_r.
  - unfold bind. rewrite (ufloat_ok _ _ _ Hp), IH. unfold ret.
    now rewrite Nat.add_succ_r.
Qed.

Lemma length_fresh_variables (s : nat) (ps : list (R * R)) :
  length (fresh_variables s ps) = length ps.
Proof.
  revert s. induction ps as [|p ps IH]; intros s; simpl; [|rewrite IH]; easy.
Qed.

Lemma nominal_values_fresh (s : nat) (ps : list (R * R)) :
  nominal_values (fresh_variables s ps) = map fst ps.
Proof.
  revert s. induction ps as [|p ps IH]; intros s; simpl; [|rewrite IH]; easy.
Qed.

Lemma std_devs_fresh (s : nat) (ps : list (R * R)) :
  Forall (fun p => 0 <= snd p) ps ->
  std_devs (fresh_variables s ps) = map snd ps.
Proof.
  intros H. revert s.
  induction H as [|p ps Hp _ IH]; intros s; simpl; [easy|].
  rewrite IH. now rewrite std_dev_variable.
Qed.

Lemma broadcast_same_length {A B : Type} (a : list A) (b : list B) :
  length a = length b -> broadcast a b = Ok (combine a b).
Proof.
  intros H. unfold broadcast. now rewrite H, Nat.eqb_refl.
Qed.

Lemma Forall_snd_combine {A : Type} (P : R -> Prop) (a : list A) (b : list R) :
  Forall P b -> Forall (fun p => P (snd p)) (combine a b).
Proof.
  intros H. apply Forall_forall. intros [x y] Hin.
  apply in_combine_r in Hin. simpl.
  rewrite Forall_forall in H. now apply H.
Qed.

Lemma map_fst_combine {A B : Type} (a : list A) (b : list B) :
  length a = length b -> map fst (combine a b) = a.
Proof.
  revert b. induction a as [|x a IH]; intros [|y b] H; simpl in *;
    try easy. f_equal. apply IH. lia.
Qed.

Lemma map_snd_combine {A B : Type} (a : list A) (b : list B) :
  length a = length b -> map snd (combine a b) = b.
Proof.
  revert b. induction a as [|x a IH]; intros [|y b] H; simpl in *;
    try easy. f_equal. apply IH. lia.
Qed.

(** [unumpy.uarray] on arrays of one length with non-negative deviations. *)
Lemma uarray_ok (noms sds : list R) (s : nat) :
  length noms = length sds ->
  Forall (fun sd => 0 <= sd) sds ->
  uarray noms sds s
  = Ok (fresh_variables s (combine noms sds), (s + length noms)%nat).
Proof.
  intros Hlen Hsd. unfold uarray, bind, lift.
  rewrite (broadcast_same_length _ _ Hlen).
  rewrite mapM_ufloat_ok by now apply Forall_snd_combine.
  rewrite length_combine, <- Hlen, Nat.min_id. reflexivity.
Qed.

Lemma rmap_ok {A B : Type} (f : A -> result B) (g : A -> B) (l : list A) :
  (forall a, In a l -> f a = Ok (g a)) -> rmap f l = Ok (map g l).
Proof.
  induction l as [|a l IH]; intros H; simpl; [easy|].
  rewrite (H a) by now left. simpl.
  rewrite IH by (intros b Hb; apply H; now right). reflexivity.
Qed.

(** ** The manual uncertainty of a dot product *)

Lemma getitem_middle {A : Type} (p l : list A) (x : A) :
  getitem (p ++ x :: l) (length p) = Ok x.
Proof.
  unfold getitem. rewrite nth_error_app2 by lia.
  now rewrite Nat.sub_diag.
Qed.

Lemma dot_product_step_value (p1 l1 p2 l2 : list UFloat) (a b : UFloat)
  (acc : R) :
  length p1 = length p2 ->
  Engine.dot_product_step (p1 ++ a :: l1) (p2 ++ b :: l2) acc (length p1)
  = Ok (acc + contribution_variance a b).
Proof.
  intros Hlen. unfold Engine.dot_product_step.
  rewrite getitem_middle. simpl.
  rewrite Hlen, getitem_middle. simpl.
  unfold contribution_variance, product_variance, float_div.
  destruct (Req_dec_T (nominal_value a) 0) as [Ha|Ha]; simpl.
  - do 2 f_equal. lra.
  - destruct (Req_dec_T (nominal_value b) 0) as [Hb|Hb]; simpl.
    + do 2 f_equal. lra.
    + do 2 f_equal.
      set (r := (std_dev a / nominal_value a) ^ 2
                + (std_dev b / nominal_value b) ^ 2).
      assert (Hr : 0 <= r) by (unfold r; nra).
      assert (Hs : sqrt r * sqrt r = r) by now apply sqrt_sqrt.
      replace ((nominal_value a * nominal_value b * sqrt r) ^ 2)
        with ((nominal_value a * nominal_value b) ^ 2 * (sqrt r * sqrt r))
        by ring.
      now rewrite Hs.
Qed.

Lemma dot_product_loop (l1 l2 p1 p2 : list UFloat) (acc : R) :
  length p1 = length p2 ->
  (length l1 <= length l2)%nat ->
  rfold (Engine.dot_product_step (p1 ++ l1) (p2 ++ l2))
        (seq (length p1) (length l1)) acc
  = Ok (acc + Rsum (map (fun ab => contribution_variance (fst ab) (snd ab))
                        (combine l1 l2))).
Proof.
  revert l2 p1 p2 acc.
  induction l1 as [|a l1 IH]; intros l2 p1 p2 acc Hp Hl; simpl.
  - rewrite Rsum_nil. f_equal. lra.
  - destruct l2 as [|b l2]; simpl in Hl; [lia|].
    rewrite (dot_product_step_value p1 l1 p2 l2 a b acc Hp). simpl.
    replace (p1 ++ a :: l1) with ((p1 ++ [a]) ++ l1)
      by now rewrite <- app_assoc.
    replace (p2 ++ b :: l2) with ((p2 ++ [b]) ++ l2)
      by now rewrite <- app_assoc.
    replace (S (length p1)) with (length (p1 ++ [a]))
      by (rewrite length_app; simpl; lia).
    rewrite IH.
    + rewrite Rsum_cons. simpl. f_equal. lra.
    + rewrite !length_app. simpl. lia.
    + lia.
Qed.

Lemma dot_product_uncertainty_ok (vect1 vect2 : list UFloat) :
  (length vect1 <= length vect2)%nat ->
  Engine.dot_product_uncertainty_propagation vect1 vect2
  = Ok (sqrt (Rsum (map (fun ab => contribution_variance (fst ab) (snd ab))
                        (combine vect1 vect2)))).
Proof.
  intros Hlen. unfold Engine.dot_product_uncertainty_propagation.
  pose proof (dot_product_loop vect1 vect2 [] [] 0 eq_refl) as H.
  simpl in H. rewrite H by lia. simpl. do 2 f_equal. lra.
Qed.

(** C6: [dot_product_uncertainty_propagation] returns the root of the sum of
    the per-component variances, where the variance of component [i] is
    [(a_i b_i)^2 ((s_a_i / a_i)^2 + (s_b_i / b_i)^2)] when both nominal values
    are non-zero and exactly zero otherwise; it returns a value, so no
    division by a zero nominal value is ever evaluated. *)
Theorem dot_product_uncertainty_root_sum_squares (vect1 vect2 : list UFloat) :
  length vect1 = length vect2 ->
  Engine.dot_product_uncertainty_propagation vect1 vect2
  = Ok (sqrt (Rsum (map (fun ab => contribution_variance (fst ab) (snd ab))
                        (combine vect1 vect2))))
  /\ (forall a b, In (a, b) (combine vect1 vect2) ->
      (nominal_value a <> 0 -> nominal_value b <> 0 ->
       contribution_variance a b
       = (nominal_value a * nominal_value b) ^ 2
         * ((std_dev a / nominal_value a) ^ 2
            + (std_dev b / nominal_value b) ^ 2))
      /\ (nominal_value a = 0 \/ nominal_value b = 0 ->
          contribution_variance a b = 0)).
Proof.
  intros Hlen. split.
  - apply dot_product_uncertainty_ok. lia.
  - intros a b _. unfold contribution_variance, product_variance. split.
    + intros Ha Hb.
      destruct (Req_dec_T (nominal_value a) 0); [contradiction|].
      destruct (Req_dec_T (nominal_value b) 0); [contradiction|].
      reflexivity.
    + intros [Ha|Hb].
      * destruct (Req_dec_T (nominal_value a) 0); [reflexivity|contradiction].
      * destruct (Req_dec_T (nominal_value a) 0); [reflexivity|].
        destruct (Req_dec_T (nominal_value b) 0); [reflexivity|contradiction].
Qed.

Lemma dot_product_uncertainty_root_sum_squares_witness :
  exists u,
    Engine.dot_product_uncertainty_propagation
      [uconst 0; uconst 2] [uconst 1; uconst 0]
    = Ok u.
Proof.
  destruct (dot_product_uncertainty_root_sum_squares
              [uconst 0; uconst 2] [uconst 1; uconst 0] eq_refl) as [H _].
  eexists. exact H.
Defined.

(** ** The derivative matrix of the normalization *)

Lemma nth_map_lt {A B : Type} (f : A -> B) (l : list A) (i : nat) (d : B)
  (d' : A) :
  (i < length l)%nat -> nth i (map f l) d = f (nth i l d').
Proof.
  intros Hi. rewrite (nth_indep _ d (f d')) by now rewrite length_map.
  apply map_nth.
Qed.

Lemma map_seq_nth {A : Type} (l : list A) (d : A) :
  l = map (fun i => nth i l d) (seq 0 (length l)).
Proof.
  apply (nth_ext _ _ d d).
  - now rewrite length_map, length_seq.
  - intros i Hi.
    rewrite (nth_map_lt _ _ _ _ 0%nat) by now rewrite length_seq.
    now rewrite seq_nth.
Qed.

Lemma combine_seq_nth {A B : Type} (a : list A) (b : list B) (da : A)
  (db : B) :
  length a = length b ->
  combine a b = map (fun j => (nth j a da, nth j b db)) (seq 0 (length a)).
Proof.
  intros Hlen.
  rewrite (map_seq_nth (combine a b) (da, db)) at 1.
  rewrite length_combine, <- Hlen, Nat.min_id.
  apply map_ext. intros j. apply combine_nth. exact Hlen.
Qed.

Lemma length_fill_diagonal_from (k : nat) (m : list (list R)) (vals : list R) :
  length (fill_diagonal_from k m vals) = length m.
Proof.
  revert k vals. induction m as [|row m IH]; intros k [|d vals]; simpl;
    try reflexivity.
  now rewrite IH.
Qed.

Lemma nth_fill_diagonal_from (k i : nat) (m : list (list R)) (vals : list R) :
  length m = length vals ->
  (i < length m)%nat ->
  nth i (fill_diagonal_from k m vals) []
  = firstn (k + i) (nth i m []) ++ nth i vals 0
      :: skipn (S (k + i)) (nth i m []).
Proof.
  revert k i vals.
  induction m as [|row m IH]; intros k i [|d vals] Hlen Hi; simpl in *;
    try lia.
  destruct i as [|i].
  - now rewrite Nat.add_0_r.
  - rewrite IH by lia. now rewrite Nat.add_succ_r.
Qed.

Lemma length_replace_at {A : Type} (l : list A) (i : nat) (d : A) :
  (i < length l)%nat ->
  length (firstn i l ++ d :: skipn (S i) l) = length l.
Proof.
  intros Hi. rewrite length_app. cbn [length].
  rewrite length_firstn, length_skipn. lia.
Qed.

Lemma nth_replace_at {A : Type} (l : list A) (i j : nat) (d def : A) :
  (i < length l)%nat ->
  nth j (firstn i l ++ d :: skipn (S i) l) def
  = if Nat.eqb i j then d else nth j l def.
Proof.
  revert i j. induction l as [|a l IH]; intros i j Hi; simpl in Hi; [lia|].
  destruct i as [|i]; destruct j as [|j]; simpl; try reflexivity.
  apply IH. lia.
Qed.

Lemma unit_vector_uncertainty_rows (vector : list UFloat) :
  Engine.unit_vector_uncertainty_propagation vector
  = map (fun i =>
           sqrt (Rsum (map (fun j =>
                              jacobian_entry (nominal_values vector) i j ^ 2
                              * nth j (std_devs vector) 0 ^ 2)
                           (seq 0 (length vector)))))
        (seq 0 (length vector)).
Proof.
  unfold Engine.unit_vector_uncertainty_propagation, fill_diagonal.
  set (x := nominal_values vector).
  set (N := sqrt (Rsum (map (fun xi => xi ^ 2) x))).
  set (m := map (fun xi => map (fun xj => - xi * xj / N ^ 3) x) x).
  set (vals := map (fun xi => (N ^ 2 - xi ^ 2) / N ^ 3) x).
  assert (Hx : length x = length vector) by apply length_map.
  assert (Hs : length (std_devs vector) = length vector) by apply length_map.
  assert (Hm : length m = length vector) by (unfold m; now rewrite length_map).
  assert (Hv : length vals = length vector)
    by (unfold vals; now rewrite length_map).
  rewrite (map_seq_nth (fill_diagonal_from 0 m vals) []).
  rewrite length_fill_diagonal_from, Hm, map_map.
  apply map_ext_in. intros i Hi. apply in_seq in Hi. f_equal.
  rewrite nth_fill_diagonal_from by lia. rewrite Nat.add_0_l.
  unfold m. rewrite (nth_map_lt _ x i [] 0) by lia.
  set (row := map (fun xj => - nth i x 0 * xj / N ^ 3) x).
  assert (Hrow : length row = length vector)
    by (unfold row; now rewrite length_map).
  rewrite (combine_seq_nth _ (std_devs vector) 0 0)
    by (rewrite length_replace_at; lia).
  rewrite length_replace_at by lia.
  rewrite Hrow, map_map.
  apply Rsum_map_ext. intros j Hj. apply in_seq in Hj. cbn [fst snd].
  rewrite nth_replace_at by lia.
  unfold jacobian_entry, norm2. fold x. fold N.
  destruct (Nat.eqb i j) eqn:E.
  - apply Nat.eqb_eq in E. subst j.
    unfold vals. now rewrite (nth_map_lt _ x i 0 0) by lia.
  - unfold row. now rewrite (nth_map_lt _ x j 0 0) by lia.
Qed.

(** C5: the uncertainty of component [i] of the unit vector is the square
    root of the sum over [j] of the squared Jacobian entry [(i, j)] times the
    squared uncertainty of component [j], where the Jacobian of
    [x |-> x / ||x||] has diagonal entries [(||x||^2 - x_i^2) / ||x||^3] and
    off-diagonal entries [- x_i x_j / ||x||^3]. *)
Theorem unit_vector_uncertainty_is_jacobian_propagation
  (vector : list UFloat) :
  Engine.unit_vector_uncertainty_propagation vector
  = map (fun i =>
           sqrt (Rsum (map (fun j =>
                              jacobian_entry (nominal_values vector) i j ^ 2
                              * nth j (std_devs vector) 0 ^ 2)
                           (seq 0 (length vector)))))
        (seq 0 (length vector)).
Proof. exact (unit_vector_uncertainty_rows vector). Qed.

(** ** Running [calculate_E_from_sensitivity_vecs] *)

Lemma nominal_values_upow2 (v : list UFloat) :
  map nominal_value (map upow2 v) = map (fun x => x ^ 2) (nominal_values v).
Proof.
  unfold nominal_values. rewrite !map_map. reflexivity.
Qed.

Lemma vector_norm_ok (v : list UFloat) :
  Engine.vector_norm v = Ok (norm_value v).
Proof.
  unfold Engine.vector_norm, umath_sqrt.
  rewrite nominal_np_sum, nominal_values_upow2.
  destruct (Rlt_dec _ 0) as [Hneg|_].
  - pose proof (Rsum_squares_nonneg (nominal_values v)). lra.
  - reflexivity.
Qed.

Lemma norms_for_none (a b : list UFloat) :
  Engine.norms_for a b None None
  = Ok (Some (norm_value a), Some (norm_value b)).
Proof.
  unfold Engine.norms_for. simpl. now rewrite !vector_norm_ok.
Qed.

Lemma norms_for_some (a b : list UFloat) (en an : UFloat) :
  Engine.norms_for a b (Some en) (Some an) = Ok (Some an, Some en).
Proof. reflexivity. Qed.

Lemma udiv_ok (x y : UFloat) :
  nominal_value y <> 0 -> udiv x y = Ok (quotient x y).
Proof.
  intros Hy. unfold udiv.
  destruct (Req_dec_T (nominal_value y) 0); [contradiction|reflexivity].
Qed.

Lemma array_div_ok (v : list UFloat) (y : UFloat) :
  nominal_value y <> 0 ->
  array_div v (Some y) = Ok (map (fun x => quotient x y) v).
Proof.
  intros Hy. unfold array_div. apply rmap_ok.
  intros x _. simpl. now apply udiv_ok.
Qed.

Lemma np_dot_ok (a b : list UFloat) :
  length a = length b -> np_dot a b = Ok (dot_value a b).
Proof.
  intros H. unfold np_dot. now rewrite H, Nat.eqb_refl.
Qed.

Lemma nominal_dot_value (a b : list UFloat) :
  nominal_value (dot_value a b)
  = Rsum (map (fun xy => fst xy * snd xy)
              (combine (nominal_values a) (nominal_values b))).
Proof.
  unfold dot_value. rewrite nominal_np_sum. f_equal.
  revert b. induction a as [|x a IH]; intros [|y b]; simpl; try reflexivity.
  now rewrite IH.
Qed.

Lemma nominal_values_quotients (v : list UFloat) (y : UFloat) :
  nominal_values (map (fun x => quotient x y) v)
  = map (fun x => x / nominal_value y) (nominal_values v).
Proof.
  unfold nominal_values. rewrite !map_map. reflexivity.
Qed.

Lemma nominal_dot_quotients (a b : list UFloat) (an en : UFloat) :
  nominal_value (dot_value (map (fun x => quotient x an) a)
                           (map (fun x => quotient x en) b))
  = scaled_dot (nominal_values a) (nominal_values b)
               (nominal_value an) (nominal_value en).
Proof.
  rewrite nominal_dot_value, !nominal_values_quotients.
  unfold scaled_dot. f_equal.
  generalize (nominal_values a), (nominal_values b).
  intros l1. induction l1 as [|x l1 IH]; intros [|y l2]; simpl;
    try reflexivity.
  now rewrite IH.
Qed.

Lemma length_unit_vector_uncertainty (v : list UFloat) :
  length (Engine.unit_vector_uncertainty_propagation v) = length v.
Proof.
  rewrite unit_vector_uncertainty_rows.
  now rewrite length_map, length_seq.
Qed.

Lemma unit_vector_uncertainty_nonneg (v : list UFloat) :
  Forall (fun sd => 0 <= sd) (Engine.unit_vector_uncertainty_propagation v).
Proof.
  rewrite unit_vector_uncertainty_rows.
  apply Forall_forall. intros y Hy.
  apply in_map_iff in Hy. destruct Hy as [i [<- _]]. apply sqrt_pos.
Qed.

Lemma mapM_map {A B C : Type} (f : B -> M C) (g : A -> B) (l : list A)
  (s : nat) :
  mapM f (map g l) s = mapM (fun a => f (g a)) l s.
Proof.
  revert s. induction l as [|a l IH]; intros s; simpl; [reflexivity|].
  unfold bind. destruct (f (g a) s) as [[c s']|e]; [|reflexivity].
  now rewrite IH.
Qed.

Lemma break_dependency_ok (v : list UFloat) (s : nat) :
  Engine.break_dependency v s
  = Ok (fresh_variables s (map (fun x => (nominal_value x, std_dev x)) v),
        (s + length v)%nat).
Proof.
  unfold Engine.break_dependency.
  rewrite <- (mapM_map (fun p => ufloat (fst p) (snd p))
                       (fun x => (nominal_value x, std_dev x))).
  rewrite mapM_ufloat_ok.
  - now rewrite length_map.
  - apply Forall_forall. intros p Hp.
    apply in_map_iff in Hp. destruct Hp as [x [<- _]]. apply std_dev_nonneg.
Qed.

Lemma contribution_variance_fresh (p1 p2 : list (R * R)) (s1 s2 : nat) :
  Forall (fun p => 0 <= snd p) p1 ->
  Forall (fun p => 0 <= snd p) p2 ->
  map (fun ab => contribution_variance (fst ab) (snd ab))
      (combine (fresh_variables s1 p1) (fresh_variables s2 p2))
  = map (fun p => product_variance (fst (fst p)) (snd (fst p))
                                   (fst (snd p)) (snd (snd p)))
        (combine p1 p2).
Proof.
  intros H1. revert p2 s1 s2.
  induction H1 as [|p p1 Hp _ IH]; intros p2 s1 s2 H2; simpl; [reflexivity|].
  destruct H2 as [|q p2 Hq H2]; simpl; [reflexivity|].
  rewrite IH by assumption. f_equal.
  unfold contribution_variance. simpl.
  now rewrite !std_dev_variable.
Qed.

(** The outcome of manual mode once the norms are known and not zero. *)
Lemma calculate_E_manual_run (a b : list UFloat) (fa fe : option string)
  (unc : string) (eno ano : option UFloat) (an en : UFloat) (s : nat) :
  unc <> "automatic" ->
  a <> [] ->
  length a = length b ->
  Engine.norms_for a b eno ano = Ok (Some an, Some en) ->
  nominal_value an <> 0 ->
  nominal_value en <> 0 ->
  Engine.calculate_E_from_sensitivity_vecs a b fa fe unc eno ano s
  = Ok ({| nominal_value :=
             scaled_dot (nominal_values a) (nominal_values b)
                        (nominal_value an) (nominal_value en);
           linear_part :=
             [(1, {| tag := (s + length a + length b)%nat;
                     var_std_dev :=
                       manual_uncertainty a b (nominal_value an)
                                          (nominal_value en) |})] |},
        S (s + length a + length b)).
Proof.
  intros Hunc Hne Hlen Hnorms Han Hen.
  unfold Engine.calculate_E_from_sensitivity_vecs.
  apply String.eqb_neq in Hunc. rewrite Hunc.
  unfold bind, lift. rewrite Hnorms.
  rewrite (array_div_ok a an Han), (array_div_ok b en Hen).
  rewrite np_dot_ok by now rewrite !length_map.
  replace (dot_nominal_value (map (fun x => quotient x an) a)
             (dot_value (map (fun x => quotient x an) a)
                        (map (fun x => quotient x en) b)))
    with (Ok (nominal_value
                (dot_value (map (fun x => quotient x an) a)
                           (map (fun x => quotient x en) b))))
    by (destruct a; [contradiction|reflexivity]).
  rewrite !nominal_values_quotients.
  assert (Hla : length (map (fun x => x / nominal_value an) (nominal_values a))
                = length a) by (unfold nominal_values; now rewrite !length_map).
  assert (Hlb : length (map (fun x => x / nominal_value en) (nominal_values b))
                = length b) by (unfold nominal_values; now rewrite !length_map).
  rewrite uarray_ok;
    [|now rewrite Hla, length_unit_vector_uncertainty
     |apply unit_vector_uncertainty_nonneg].
  rewrite uarray_ok;
    [|now rewrite Hlb, length_unit_vector_uncertainty
     |apply unit_vector_uncertainty_nonneg].
  rewrite dot_product_uncertainty_ok
    by (rewrite !length_fresh_variables, !length_combine, Hla, Hlb,
          !length_unit_vector_uncertainty; lia).
  rewrite contribution_variance_fresh
    by (apply Forall_snd_combine, unit_vector_uncertainty_nonneg).
  rewrite ufloat_ok by apply sqrt_pos.
  rewrite nominal_dot_quotients, Hla, Hlb.
  reflexivity.
Qed.

(** The outcome of automatic mode for one source file: no decorrelation. *)
Lemma calculate_E_automatic_same_run (a b : list UFloat) (f : string)
  (eno ano : option UFloat) (an en : UFloat) (s : nat) :
  length a = length b ->
  Engine.norms_for a b eno ano = Ok (Some an, Some en) ->
  nominal_value an <> 0 ->
  nominal_value en <> 0 ->
  Engine.calculate_E_from_sensitivity_vecs a b (Some f) (Some f) "automatic"
                                           eno ano s
  = Ok (dot_value (map (fun x => quotient x an) a)
                  (map (fun x => quotient x en) b), s).
Proof.
  intros Hlen Hnorms Han Hen.
  unfold Engine.calculate_E_from_sensitivity_vecs. simpl.
  unfold bind, lift. rewrite Hnorms.
  rewrite (array_div_ok a an Han), (array_div_ok b en Hen).
  unfold Engine.filename_neq. rewrite String.eqb_refl. simpl.
  now rewrite np_dot_ok by now rewrite !length_map.
Qed.

(** The outcome of automatic mode for two source files: each unit vector is
    replaced by new independent variables before the dot product. *)
Lemma calculate_E_automatic_other_run (a b : list UFloat) (fa fe : string)
  (eno ano : option UFloat) (an en : UFloat) (s : nat) :
  fa <> fe ->
  length a = length b ->
  Engine.norms_for a b eno ano = Ok (Some an, Some en) ->
  nominal_value an <> 0 ->
  nominal_value en <> 0 ->
  Engine.calculate_E_from_sensitivity_vecs a b (Some fa) (Some fe) "automatic"
                                           eno ano s
  = Ok (dot_value
          (fresh_variables s
             (map (fun x => (nominal_value x, std_dev x))
                  (map (fun x => quotient x an) a)))
          (fresh_variables (s + length a)
             (map (fun x => (nominal_value x, std_dev x))
                  (map (fun x => quotient x en) b))),
        (s + length a + length b)%nat).
Proof.
  intros Hf Hlen Hnorms Han Hen.
  unfold Engine.calculate_E_from_sensitivity_vecs. simpl.
  unfold bind, lift. rewrite Hnorms.
  rewrite (array_div_ok a an Han), (array_div_ok b en Hen).
  unfold Engine.filename_neq. apply String.eqb_neq in Hf. rewrite Hf. simpl.
  rewrite !break_dependency_ok. unfold ret. rewrite !length_map.
  now rewrite np_dot_ok
    by (rewrite !length_fresh_variables, !length_map; exact Hlen).
Qed.

(** ** The nominal value of the similarity index *)

Lemma nominal_values_break (v : list UFloat) (s : nat) :
  nominal_values
    (fresh_variables s (map (fun x => (nominal_value x, std_dev x)) v))
  = nominal_values v.
Proof.
  rewrite nominal_values_fresh, map_map. reflexivity.
Qed.

Lemma nominal_dot_broken (a b : list UFloat) (s1 s2 : nat) :
  nominal_value
    (dot_value
       (fresh_variables s1 (map (fun x => (nominal_value x, std_dev x)) a))
       (fresh_variables s2 (map (fun x => (nominal_value x, std_dev x)) b)))
  = nominal_value (dot_value a b).
Proof.
  now rewrite !nominal_dot_value, !nominal_values_break.
Qed.

Lemma norm2_sqr (x : list R) :
  norm2 x * norm2 x = Rsum (map (fun xi => xi ^ 2) x).
Proof.
  unfold norm2. apply sqrt_sqrt. apply Rsum_squares_nonneg.
Qed.

Lemma normalized_dot_123 : normalized_dot [1; 2; 3] [1; 2; 3] = 1.
Proof.
  unfold normalized_dot, scaled_dot.
  pose proof (norm2_sqr [1; 2; 3]) as Hsq.
  set (N := norm2 [1; 2; 3]) in *.
  simpl in Hsq. rewrite !Rsum_cons, Rsum_nil in Hsq.
  assert (HN : N <> 0) by (intros H0; rewrite H0 in Hsq; lra).
  simpl. rewrite !Rsum_cons, Rsum_nil.
  replace (1 / N * (1 / N) + (2 / N * (2 / N) + (3 / N * (3 / N) + 0)))
    with (14 / (N * N)) by (field; exact HN).
  rewrite Hsq. field.
Qed.

Lemma normalized_dot_orthogonal : normalized_dot [1; 0; 0] [0; 1; 0] = 0.
Proof.
  unfold normalized_dot, scaled_dot. simpl.
  rewrite !Rsum_cons, Rsum_nil. unfold Rdiv. ring.
Qed.

Lemma norm2_nonzero_nonempty (a : list UFloat) :
  norm2 (nominal_values a) <> 0 -> a <> [].
Proof.
  intros HN ->. apply HN. unfold norm2. simpl. rewrite Rsum_nil. apply sqrt_0.
Qed.

(** The nominal value of [E] in either mode, for any norms the division
    uses. *)
Lemma calculate_E_nominal (a b : list UFloat) (fa fe : option string)
  (unc : string) (eno ano : option UFloat) (an en : UFloat) (s : nat) :
  a <> [] ->
  length a = length b ->
  Engine.norms_for a b eno ano = Ok (Some an, Some en) ->
  nominal_value an <> 0 ->
  nominal_value en <> 0 ->
  (unc = "automatic" -> fa <> None /\ fe <> None) ->
  exists E s',
    Engine.calculate_E_from_sensitivity_vecs a b fa fe unc eno ano s
    = Ok (E, s')
    /\ nominal_value E
       = scaled_dot (nominal_values a) (nominal_values b)
                    (nominal_value an) (nominal_value en).
Proof.
  intros Hne Hlen Hnorms Han Hen Hfiles.
  destruct (string_dec unc "automatic") as [Hauto|Hman].
  - subst unc. destruct (Hfiles eq_refl) as [Hfa Hfe].
    destruct fa as [fa|]; [|contradiction].
    destruct fe as [fe|]; [|contradiction].
    destruct (string_dec fa fe) as [Heq|Hneq].
    + subst fe. eexists. eexists. split.
      * apply (calculate_E_automatic_same_run a b fa eno ano an en s);
          assumption.
      * apply nominal_dot_quotients.
    + eexists. eexists. split.
      * apply (calculate_E_automatic_other_run a b fa fe eno ano an en s);
          assumption.
      * rewrite nominal_dot_broken. apply nominal_dot_quotients.
  - eexists. eexists. split.
    + apply (calculate_E_manual_run a b fa fe unc eno ano an en s);
        assumption.
    + reflexivity.
Qed.

(** C3: for two vectors of one length and non-zero norm, with no norms
    supplied, the nominal value that [calculate_E_from_sensitivity_vecs]
    returns is the normalized dot product [(a / ||a||) . (b / ||b||)], in
    manual mode and in automatic mode (where both file names are required);
    it is [1] for application = experiment = [[1, 2, 3]] and [0] for
    application [[1, 0, 0]] and experiment [[0, 1, 0]], whatever the
    uncertainties, zero included. *)
Theorem E_nominal_is_normalized_dot (a b : list UFloat)
  (fa fe : option string) (unc : string) (s : nat) :
  length a = length b ->
  norm2 (nominal_values a) <> 0 ->
  norm2 (nominal_values b) <> 0 ->
  (unc = "automatic" -> fa <> None /\ fe <> None) ->
  exists E s',
    Engine.calculate_E_from_sensitivity_vecs a b fa fe unc None None s
    = Ok (E, s')
    /\ nominal_value E = normalized_dot (nominal_values a) (nominal_values b)
    /\ (nominal_values a = [1; 2; 3] -> nominal_values b = [1; 2; 3] ->
        nominal_value E = 1)
    /\ (nominal_values a = [1; 0; 0] -> nominal_values b = [0; 1; 0] ->
        nominal_value E = 0).
Proof.
  intros Hlen Ha Hb Hfiles.
  destruct (calculate_E_nominal a b fa fe unc None None
              (norm_value a) (norm_value b) s (norm2_nonzero_nonempty a Ha)
              Hlen (norms_for_none a b) Ha Hb Hfiles) as [E [s' [Hrun HE]]].
  exists E, s'. split; [exact Hrun|].
  simpl in HE. fold (normalized_dot (nominal_values a) (nominal_values b)) in HE.
  split; [exact HE|]. split.
  - intros Ea Eb. rewrite HE, Ea, Eb. apply normalized_dot_123.
  - intros Ea Eb. rewrite HE, Ea, Eb. apply normalized_dot_orthogonal.
Qed.

Lemma norm2_123_nonzero : norm2 [1; 2; 3] <> 0.
Proof.
  intros H0. pose proof (norm2_sqr [1; 2; 3]) as Hsq.
  rewrite H0 in Hsq. simpl in Hsq.
  rewrite !Rsum_cons, Rsum_nil in Hsq. lra.
Qed.

Lemma E_nominal_is_normalized_dot_witness :
  exists E s',
    Engine.calculate_E_from_sensitivity_vecs
      (fresh_variables 0 [(1, 0); (2, 0); (3, 0)])
      (fresh_variables 3 [(1, 0); (2, 0); (3, 0)])
      None None "manual" None None 6%nat
    = Ok (E, s')
    /\ nominal_value E = 1.
Proof.
  destruct (E_nominal_is_normalized_dot
              (fresh_variables 0 [(1, 0); (2, 0); (3, 0)])
              (fresh_variables 3 [(1, 0); (2, 0); (3, 0)])
              None None "manual" 6%nat)
    as [E [s' [Hrun [_ [H123 _]]]]].
  - reflexivity.
  - exact norm2_123_nonzero.
  - exact norm2_123_nonzero.
  - intros H. discriminate H.
  - exists E, s'. split; [exact Hrun|]. now apply H123.
Defined.

(** ** One norm supplied, the other missing *)

Lemma array_div_none (v : list UFloat) :
  v <> [] -> array_div v None = Raise TypeError.
Proof.
  destruct v as [|x v]; [contradiction|reflexivity].
Qed.

Lemma norms_for_one_missing (a b : list UFloat) (eno ano : option UFloat) :
  Engine.is_None eno <> Engine.is_None ano ->
  Engine.norms_for a b eno ano = Ok (ano, eno).
Proof.
  intros H. unfold Engine.norms_for.
  destruct eno, ano; simpl in *; try reflexivity; contradiction.
Qed.

Lemma calculate_E_one_norm_missing (a b : list UFloat)
  (fa fe : option string) (unc : string) (eno ano : option UFloat) (s : nat) :
  a <> [] ->
  b <> [] ->
  Engine.is_None eno <> Engine.is_None ano ->
  exists e,
    Engine.calculate_E_from_sensitivity_vecs a b fa fe unc eno ano s = Raise e
    /\ ((unc = "automatic" -> fa <> None /\ fe <> None) ->
        (forall an, ano = Some an -> nominal_value an <> 0) ->
        e = TypeError).
Proof.
  intros Ha Hb Hone.
  unfold Engine.calculate_E_from_sensitivity_vecs.
  destruct (String.eqb unc "automatic") eqn:Hunc.
  - apply String.eqb_eq in Hunc.
    destruct fa as [fa|]; [destruct fe as [fe|]|]; simpl.
    + unfold bind, lift. rewrite (norms_for_one_missing a b eno ano Hone).
      destruct ano as [an|].
      * destruct eno as [en|]; [simpl in Hone; contradiction|].
        destruct (array_div a (Some an)) as [ua|e] eqn:Hdiv.
        -- rewrite (array_div_none b Hb). exists TypeError. now split.
        -- exists e. split; [reflexivity|]. intros _ Hnz.
           rewrite (array_div_ok a an (Hnz an eq_refl)) in Hdiv.
           discriminate Hdiv.
      * rewrite (array_div_none a Ha). exists TypeError. now split.
    + exists ValueError. split; [reflexivity|].
      intros Hfiles _. destruct (Hfiles Hunc) as [_ Hfe]. contradiction.
    + exists ValueError. split; [reflexivity|].
      intros Hfiles _. destruct (Hfiles Hunc) as [Hfa _]. contradiction.
  - unfold bind, lift. rewrite (norms_for_one_missing a b eno ano Hone).
    destruct ano as [an|].
    + destruct eno as [en|]; [simpl in Hone; contradiction|].
      destruct (array_div a (Some an)) as [ua|e] eqn:Hdiv.
      * rewrite (array_div_none b Hb). exists TypeError. now split.
      * exists e. split; [reflexivity|]. intros _ Hnz.
        rewrite (array_div_ok a an (Hnz an eq_refl)) in Hdiv.
        discriminate Hdiv.
    + rewrite (array_div_none a Ha). exists TypeError. now split.
Qed.

(** C10: when exactly one of [application_norm] and [experiment_norm] is
    given, the test that both are [None] fails, so the missing norm is not
    computed ([norms_for] hands back the two arguments as they are) and the
    call on non-empty vectors raises; the exception is the [TypeError] of the
    division by [None] as soon as the steps before that division succeed
    (file names present in automatic mode, a non-zero supplied application
    norm). *)
Theorem one_norm_missing_raises (a b : list UFloat) (fa fe : option string)
  (unc : string) (eno ano : option UFloat) (s : nat) :
  a <> [] ->
  b <> [] ->
  Engine.is_None eno <> Engine.is_None ano ->
  Engine.norms_for a b eno ano = Ok (ano, eno)
  /\ exists e,
      Engine.calculate_E_from_sensitivity_vecs a b fa fe unc eno ano s
      = Raise e
      /\ ((unc = "automatic" -> fa <> None /\ fe <> None) ->
          (forall an, ano = Some an -> nominal_value an <> 0) ->
          e = TypeError).
Proof.
  intros Ha Hb Hone. split.
  - now apply norms_for_one_missing.
  - now apply calculate_E_one_norm_missing.
Qed.

Lemma one_norm_missing_raises_witness :
  Engine.calculate_E_from_sensitivity_vecs
    [uconst 1] [uconst 1] None None "manual" None (Some (uconst 1)) 0%nat
  = Raise TypeError.
Proof.
  destruct (one_norm_missing_raises [uconst 1] [uconst 1] None None "manual"
              None (Some (uconst 1)) 0%nat) as [_ [e [Hrun He]]].
  - discriminate.
  - discriminate.
  - simpl. discriminate.
  - rewrite Hrun. f_equal. apply He.
    + intros H. discriminate H.
    + intros an Han. injection Han as <-. simpl. lra.
Defined.

(** ** Automatic mode: correlation kept or severed *)

Lemma Rsum_map_plus {A : Type} (f g : A -> R) (l : list A) :
  Rsum (map (fun a => f a + g a) l) = Rsum (map f l) + Rsum (map g l).
Proof.
  induction l as [|a l IH]; simpl.
  - rewrite Rsum_nil. lra.
  - rewrite !Rsum_cons, IH. lra.
Qed.

Lemma combine_map {A B C D : Type} (f : A -> C) (g : B -> D) (a : list A)
  (b : list B) :
  combine (map f a) (map g b)
  = map (fun xy => (f (fst xy), g (snd xy))) (combine a b).
Proof.
  revert b. induction a as [|x a IH]; intros [|y b]; simpl; try reflexivity.
  now rewrite IH.
Qed.

Lemma derivative_umul (x y : UFloat) (t : nat) :
  derivative (umul x y) t
  = nominal_value y * derivative x t + nominal_value x * derivative y t.
Proof. unfold umul. apply derivative_affine2. Qed.

Lemma derivative_quotient (x y : UFloat) (t : nat) :
  derivative (quotient x y) t
  = 1 / nominal_value y * derivative x t
    + - nominal_value x / nominal_value y ^ 2 * derivative y t.
Proof. unfold quotient. apply derivative_affine2. Qed.

Lemma derivative_dot_value (a b : list UFloat) (t : nat) :
  derivative (dot_value a b) t
  = Rsum (map (fun xy =>
                 nominal_value (snd xy) * derivative (fst xy) t
                 + nominal_value (fst xy) * derivative (snd xy) t)
              (combine a b)).
Proof.
  unfold dot_value. rewrite derivative_np_sum, map_map.
  apply Rsum_map_ext. intros [x y] _. apply derivative_umul.
Qed.

Lemma derivative_norm_value (v : list UFloat) (t : nat) :
  derivative (norm_value v) t
  = 0.5 / norm2 (nominal_values v)
    * (2 * Rsum (map (fun x => nominal_value x * derivative x t) v)).
Proof.
  unfold norm_value. rewrite derivative_affine1, derivative_np_sum, map_map.
  f_equal. rewrite <- Rsum_map_scal.
  apply Rsum_map_ext. intros x _. unfold upow2.
  rewrite derivative_affine1. ring.
Qed.

Section SameNominalValues.

Variables a b : list UFloat.
Hypothesis same : nominal_values a = nominal_values b.

Lemma same_nominal_length : length a = length b.
Proof.
  apply (f_equal (@length R)) in same.
  unfold nominal_values in same. now rewrite !length_map in same.
Qed.

Lemma sum_cross_left (t : nat) :
  Rsum (map (fun xy => nominal_value (snd xy) * derivative (fst xy) t)
            (combine a b))
  = Rsum (map (fun x => nominal_value x * derivative x t) a).
Proof.
  clear - same. revert b same.
  induction a as [|x l IH]; intros [|y l'] Hs; simpl in *;
    try discriminate; try reflexivity.
  injection Hs as Hxy Hs. rewrite !Rsum_cons, (IH l' Hs), Hxy. reflexivity.
Qed.

Lemma sum_cross_right (t : nat) :
  Rsum (map (fun xy => nominal_value (fst xy) * derivative (snd xy) t)
            (combine a b))
  = Rsum (map (fun y => nominal_value y * derivative y t) b).
Proof.
  clear - same. revert b same.
  induction a as [|x l IH]; intros [|y l'] Hs; simpl in *;
    try discriminate; try reflexivity.
  injection Hs as Hxy Hs. rewrite !Rsum_cons, (IH l' Hs), Hxy. reflexivity.
Qed.

Lemma sum_products (c : R) :
  Rsum (map (fun xy => c * (nominal_value (fst xy) * nominal_value (snd xy)))
            (combine a b))
  = c * Rsum (map (fun x => x ^ 2) (nominal_values a)).
Proof.
  clear - same. rewrite Rsum_map_scal. f_equal. revert b same.
  induction a as [|x l IH]; intros [|y l'] Hs; simpl in *;
    try discriminate; try reflexivity.
  injection Hs as Hxy Hs. rewrite !Rsum_cons, (IH l' Hs), Hxy. ring.
Qed.

(** The similarity index of two vectors with the same nominal values is
    stationary: every derivative of [E] vanishes. *)
Lemma derivative_E_same (t : nat) :
  norm2 (nominal_values a) <> 0 ->
  derivative (dot_value (map (fun x => quotient x (norm_value a)) a)
                        (map (fun x => quotient x (norm_value b)) b)) t
  = 0.
Proof.
  intros HN.
  rewrite derivative_dot_value, combine_map, map_map.
  set (N := norm2 (nominal_values a)) in *.
  set (da := derivative (norm_value a) t).
  set (db := derivative (norm_value b) t).
  rewrite (Rsum_map_ext _
             (fun xy =>
                (1 / (N * N)
                 * (nominal_value (snd xy) * derivative (fst xy) t)
                 + - da / (N * N * N)
                   * (nominal_value (fst xy) * nominal_value (snd xy)))
                + (1 / (N * N)
                   * (nominal_value (fst xy) * derivative (snd xy) t)
                   + - db / (N * N * N)
                     * (nominal_value (fst xy) * nominal_value (snd xy))))).
  - rewrite !Rsum_map_plus, !sum_products.
    rewrite !Rsum_map_scal, sum_cross_left, sum_cross_right.
    unfold da, db. rewrite !derivative_norm_value.
    rewrite <- same. fold N.
    rewrite <- (norm2_sqr (nominal_values a)). fold N.
    replace 0.5 with (1 / 2) by lra.
    field. exact HN.
  - intros [x y] _. cbn [fst snd].
    rewrite !derivative_quotient. fold da. fold db.
    cbn [nominal_value quotient norm_value affine1 affine2].
    rewrite <- same. fold N. field. exact HN.
Qed.

Lemma nominal_E_same :
  norm2 (nominal_values a) <> 0 ->
  nominal_value (dot_value (map (fun x => quotient x (norm_value a)) a)
                           (map (fun x => quotient x (norm_value b)) b))
  = 1.
Proof.
  intros HN. rewrite nominal_dot_quotients. unfold scaled_dot.
  cbn [nominal_value norm_value affine1]. rewrite <- same.
  set (N := norm2 (nominal_values a)) in *.
  rewrite (Rsum_map_ext _ (fun ab => 1 / (N * N) * (fst ab * snd ab)))
    by (intros [x y] _; cbn [fst snd]; field; exact HN).
  rewrite Rsum_map_scal.
  replace (Rsum (map (fun ab => fst ab * snd ab)
                     (combine (nominal_values a) (nominal_values a))))
    with (N * N).
  - field. exact HN.
  - unfold N. rewrite norm2_sqr.
    generalize (nominal_values a). intros l.
    induction l as [|x l IH]; simpl; [reflexivity|].
    rewrite !Rsum_cons, IH. cbn [fst snd]. ring.
Qed.

End SameNominalValues.

Lemma fresh_derivative_support (s : nat) (ps : list (R * R)) (x : UFloat)
  (t : nat) :
  In x (fresh_variables s ps) ->
  derivative x t <> 0 ->
  (s <= t < s + length ps)%nat.
Proof.
  revert s. induction ps as [|p ps IH]; intros s Hin Hd; simpl in Hin.
  - contradiction.
  - destruct Hin as [<-|Hin].
    + unfold derivative in Hd. simpl in Hd.
      destruct (Nat.eqb s t) eqn:E.
      * apply Nat.eqb_eq in E. simpl. lia.
      * contradiction.
    + specialize (IH (S s) Hin Hd). simpl. lia.
Qed.

Lemma fresh_no_shared_variable (s1 s2 : nat) (p1 p2 : list (R * R))
  (x y : UFloat) (t : nat) :
  (s1 + length p1 <= s2)%nat ->
  In x (fresh_variables s1 p1) ->
  In y (fresh_variables s2 p2) ->
  derivative x t * derivative y t = 0.
Proof.
  intros Hsep Hx Hy.
  destruct (Req_dec_T (derivative x t) 0) as [Hx0|Hx0];
    [rewrite Hx0; ring|].
  destruct (Req_dec_T (derivative y t) 0) as [Hy0|Hy0];
    [rewrite Hy0; ring|].
  pose proof (fresh_derivative_support _ _ _ _ Hx Hx0).
  pose proof (fresh_derivative_support _ _ _ _ Hy Hy0).
  lia.
Qed.

Lemma fresh_independent_of_older (s : nat) (ps : list (R * R)) (x : UFloat)
  (t : nat) :
  (t < s)%nat -> In x (fresh_variables s ps) -> derivative x t = 0.
Proof.
  intros Ht Hx.
  destruct (Req_dec_T (derivative x t) 0) as [H0|H0]; [exact H0|].
  pose proof (fresh_derivative_support _ _ _ _ Hx H0). lia.
Qed.

Lemma dot_fresh_independent_of_older (s1 s2 : nat) (p1 p2 : list (R * R))
  (t : nat) :
  (t < s1)%nat -> (t < s2)%nat ->
  derivative (dot_value (fresh_variables s1 p1) (fresh_variables s2 p2)) t = 0.
Proof.
  intros H1 H2. rewrite derivative_dot_value.
  apply Rsum_all_zero, Forall_forall. intros z Hz.
  apply in_map_iff in Hz. destruct Hz as [[x y] [<- Hin]]. cbn [fst snd].
  rewrite (fresh_independent_of_older s1 p1 x t H1)
    by (eapply in_combine_l; exact Hin).
  rewrite (fresh_independent_of_older s2 p2 y t H2)
    by (eapply in_combine_r; exact Hin).
  ring.
Qed.

Lemma std_devs_break (v : list UFloat) (s : nat) :
  std_devs (fresh_variables s (map (fun x => (nominal_value x, std_dev x)) v))
  = std_devs v.
Proof.
  rewrite std_devs_fresh.
  - rewrite map_map. reflexivity.
  - apply Forall_forall. intros p Hp.
    apply in_map_iff in Hp. destruct Hp as [x [<- _]]. apply std_dev_nonneg.
Qed.

(** C4: in automatic mode with no norms supplied, (1) for one source file
    (equal file names, hence equal nominal values in the two vectors) the
    unit vectors enter the dot product as they are, the returned index has
    nominal value [1], all its derivatives vanish and its propagated
    uncertainty is [0]; (2) for two different file names, the dot product is
    taken over new variables that carry the nominal values and the
    uncertainties of the unit-vector components, no variable is shared
    between the two vectors, and the result does not depend on any variable
    that existed before. *)
Theorem automatic_mode_correlation (a b : list UFloat) (fa fe : string)
  (s : nat) :
  length a = length b ->
  norm2 (nominal_values a) <> 0 ->
  norm2 (nominal_values b) <> 0 ->
  let ua := map (fun x => quotient x (norm_value a)) a in
  let ub := map (fun x => quotient x (norm_value b)) b in
  (fa = fe -> nominal_values a = nominal_values b ->
   exists E,
     Engine.calculate_E_from_sensitivity_vecs a b (Some fa) (Some fe)
                                              "automatic" None None s
     = Ok (E, s)
     /\ E = dot_value ua ub
     /\ nominal_value E = 1
     /\ (forall t, derivative E t = 0)
     /\ std_dev E = 0)
  /\ (fa <> fe ->
      exists A' B',
        Engine.calculate_E_from_sensitivity_vecs a b (Some fa) (Some fe)
                                                 "automatic" None None s
        = Ok (dot_value A' B', (s + length a + length b)%nat)
        /\ nominal_values A' = nominal_values ua
        /\ std_devs A' = std_devs ua
        /\ nominal_values B' = nominal_values ub
        /\ std_devs B' = std_devs ub
        /\ (forall x y t, In x A' -> In y B' ->
            derivative x t * derivative y t = 0)
        /\ (forall t, (t < s)%nat -> derivative (dot_value A' B') t = 0)).
Proof.
  intros Hlen Ha Hb ua ub. split.
  - intros Hf Hsame. subst fe. exists (dot_value ua ub).
    split; [|split; [reflexivity|split; [|split]]].
    + apply (calculate_E_automatic_same_run a b fa None None
               (norm_value a) (norm_value b) s Hlen (norms_for_none a b) Ha Hb).
    + now apply nominal_E_same.
    + intros t. now apply derivative_E_same.
    + apply std_dev_no_dependence. intros t. now apply derivative_E_same.
  - intros Hf.
    exists (fresh_variables s
              (map (fun x => (nominal_value x, std_dev x)) ua)),
           (fresh_variables (s + length a)
              (map (fun x => (nominal_value x, std_dev x)) ub)).
    split; [|split; [|split; [|split; [|split; [|split]]]]].
    + apply (calculate_E_automatic_other_run a b fa fe None None
               (norm_value a) (norm_value b) s Hf Hlen (norms_for_none a b)
               Ha Hb).
    + apply nominal_values_break.
    + apply std_devs_break.
    + apply nominal_values_break.
    + apply std_devs_break.
    + intros x y t Hx Hy.
      apply (fresh_no_shared_variable _ _ _ _ x y t) with (2 := Hx) (3 := Hy).
      unfold ua. rewrite !length_map. lia.
    + intros t Ht. apply dot_fresh_independent_of_older; lia.
Qed.

Lemma automatic_mode_correlation_witness :
  exists E,
    Engine.calculate_E_from_sensitivity_vecs
      (fresh_variables 0 [(1, 1); (2, 1); (3, 1)])
      (fresh_variables 0 [(1, 1); (2, 1); (3, 1)])
      (Some "a.sdf") (Some "a.sdf") "automatic" None None 3%nat
    = Ok (E, 3%nat)
    /\ nominal_value E = 1 /\ std_dev E = 0.
Proof.
  destruct (automatic_mode_correlation
              (fresh_variables 0 [(1, 1); (2, 1); (3, 1)])
              (fresh_variables 0 [(1, 1); (2, 1); (3, 1)])
              "a.sdf" "a.sdf" 3%nat eq_refl norm2_123_nonzero
              norm2_123_nonzero) as [Hsame _].
  destruct (Hsame eq_refl eq_refl) as [E [Hrun [_ [Hn [_ Hs]]]]].
  exists E. repeat split; assumption.
Defined.

(** ** Supplied norms *)

Lemma unit_vector_uncertainty_single (x : UFloat) :
  Engine.unit_vector_uncertainty_propagation [x] = [0].
Proof.
  rewrite unit_vector_uncertainty_rows. simpl.
  rewrite Rsum_cons, Rsum_nil. unfold jacobian_entry. simpl.
  rewrite <- (Rmult_1_r (norm2 [nominal_value x] ^ 2)).
  replace (norm2 [nominal_value x] ^ 2 * 1)
    with (norm2 [nominal_value x] * norm2 [nominal_value x]) by ring.
  rewrite norm2_sqr. simpl. rewrite Rsum_cons, Rsum_nil.
  replace (nominal_value x ^ 2 + 0 - nominal_value x ^ 2) with 0 by ring.
  unfold Rdiv. rewrite Rmult_0_l.
  replace (0 ^ 2 * std_dev x ^ 2 + 0) with 0 by ring.
  now rewrite sqrt_0.
Qed.

Lemma product_variance_no_uncertainty (a b : R) :
  product_variance a 0 b 0 = 0.
Proof.
  unfold product_variance.
  destruct (Req_dec_T a 0); [reflexivity|].
  destruct (Req_dec_T b 0); [reflexivity|].
  unfold Rdiv. ring.
Qed.

Lemma manual_uncertainty_single (x y : UFloat) (na nb : R) :
  manual_uncertainty [x] [y] na nb = 0.
Proof.
  unfold manual_uncertainty. rewrite !unit_vector_uncertainty_single. simpl.
  rewrite Rsum_cons, Rsum_nil, product_variance_no_uncertainty.
  rewrite Rplus_0_r. apply sqrt_0.
Qed.

Lemma manual_uncertainty_nonneg (a b : list UFloat) (na nb : R) :
  0 <= manual_uncertainty a b na nb.
Proof. unfold manual_uncertainty. apply sqrt_pos. Qed.

Lemma std_dev_one_term (nv c sd : R) (t : nat) :
  std_dev {| nominal_value := nv;
             linear_part := [(c, {| tag := t; var_std_dev := sd |})] |}
  = Rabs (c * sd).
Proof.
  unfold std_dev, error_components, derivative. simpl.
  rewrite Nat.eqb_refl, Rsum_cons, Rsum_nil, Rplus_0_r, Rplus_0_r.
  replace (Rabs (c * sd) ^ 2) with (Rabs (c * sd) * Rabs (c * sd)) by ring.
  apply sqrt_square, Rabs_pos.
Qed.

Lemma std_dev_two_terms (nv c1 s1 c2 s2 : R) (t1 t2 : nat) :
  t1 <> t2 ->
  std_dev {| nominal_value := nv;
             linear_part := [(c1, {| tag := t1; var_std_dev := s1 |});
                             (c2, {| tag := t2; var_std_dev := s2 |})] |}
  = sqrt ((c1 * s1) ^ 2 + (c2 * s2) ^ 2).
Proof.
  intros Ht. unfold std_dev, error_components, derivative. simpl.
  rewrite !Nat.eqb_refl.
  assert (E12 : Nat.eqb t1 t2 = false) by now apply Nat.eqb_neq.
  assert (E21 : Nat.eqb t2 t1 = false)
    by (apply Nat.eqb_neq; intros H; now apply Ht).
  rewrite E21. simpl. rewrite E12, Nat.eqb_refl.
  rewrite !Rsum_cons, Rsum_nil, !pow2_abs. f_equal. ring.
Qed.

(** C7 (evaluation): application [[2 +/- 1]], experiment [[2 +/- 1]] and
    both norms supplied as [4].  The nominal value divides by the supplied
    norms in both modes ([1/4]).  In automatic mode the uncertainty follows
    the supplied norms too.  In manual mode the uncertainty comes from
    [unit_vector_uncertainty_propagation], which takes the norm of the
    passed-in vector again ([2], not [4]): the returned uncertainty is [0]. *)
Theorem supplied_norms_manual_uncertainty_recomputes_norm :
  let a := fresh_variables 0 [(2, 1)] in
  let b := fresh_variables 1 [(2, 1)] in
  let four := Some (uconst 4) in
  (exists E s',
     Engine.calculate_E_from_sensitivity_vecs a b None None "manual"
                                              four four 2%nat
     = Ok (E, s')
     /\ nominal_value E = 1 / 4 /\ std_dev E = 0)
  /\ (exists E s',
        Engine.calculate_E_from_sensitivity_vecs a b (Some "a.sdf")
                                                 (Some "e.sdf") "automatic"
                                                 four four 2%nat
        = Ok (E, s')
        /\ nominal_value E = 1 / 4 /\ std_dev E = sqrt (1 / 32)
        /\ std_dev E <> 0).
Proof.
  intros a b four.
  assert (H4 : nominal_value (uconst 4) <> 0) by (simpl; lra).
  split.
  - eexists. eexists. split.
    + apply (calculate_E_manual_run a b None None "manual" four four
               (uconst 4) (uconst 4) 2%nat);
        [discriminate|discriminate|reflexivity|reflexivity|exact H4|exact H4].
    + split.
      * unfold scaled_dot. simpl. rewrite Rsum_cons, Rsum_nil. simpl. field.
      * rewrite std_dev_variable by apply manual_uncertainty_nonneg.
        apply manual_uncertainty_single.
  - eexists. eexists. split.
    + apply (calculate_E_automatic_other_run a b "a.sdf" "e.sdf" four four
               (uconst 4) (uconst 4) 2%nat);
        [discriminate|reflexivity|reflexivity|exact H4|exact H4].
    + assert (Hq : forall t,
                 std_dev (quotient
                            {| nominal_value := 2;
                               linear_part :=
                                 [(1, {| tag := t; var_std_dev := 1 |})] |}
                            (uconst 4)) = 1 / 4).
      { intros t. unfold quotient, affine2, scale. simpl.
        rewrite std_dev_one_term.
        replace (1 / 4 * 1 * 1) with (1 / 4) by field.
        apply Rabs_pos_eq. lra. }
      assert (Hs : std_dev
                     (dot_value
                        (fresh_variables 2
                           (map (fun x => (nominal_value x, std_dev x))
                                (map (fun x => quotient x (uconst 4)) a)))
                        (fresh_variables (2 + length a)
                           (map (fun x => (nominal_value x, std_dev x))
                                (map (fun x => quotient x (uconst 4)) b))))
                   = sqrt (1 / 32)).
      { unfold dot_value, a, b. simpl.
        unfold umul, affine2, scale. simpl.
        rewrite std_dev_two_terms by discriminate.
        rewrite !Hq. f_equal. field. }
      split; [|split].
      * rewrite nominal_dot_broken, nominal_dot_quotients.
        unfold scaled_dot. simpl. rewrite Rsum_cons, Rsum_nil. simpl. field.
      * exact Hs.
      * rewrite Hs. intros H0.
        assert (H32 : 0 < 1 / 32) by lra.
        pose proof (sqrt_lt_R0 _ H32). lra.
Qed.

(** ** Reading a sensitivity data file *)

Lemma mapM_Forall2 {A B : Type} (f : A -> M B) (P : A -> B -> Prop)
  (l : list A) :
  (forall a, In a l -> forall s, exists b s', f a s = Ok (b, s') /\ P a b) ->
  forall s, exists bs s', mapM f l s = Ok (bs, s') /\ Forall2 P l bs.
Proof.
  induction l as [|a l IH]; intros H s; simpl.
  - exists [], s. split; [reflexivity|constructor].
  - destruct (H a (or_introl eq_refl) s) as [b [s1 [Hb Pb]]].
    destruct (IH (fun a' Ha' => H a' (or_intror Ha')) s1)
      as [bs [s2 [Hbs Pbs]]].
    exists (b :: bs), s2. unfold bind. rewrite Hb, Hbs. split.
    + reflexivity.
    + now constructor.
Qed.

Lemma to_profile_ok (m : sdf_match) (sens unc : list R) (s : nat) :
  length sens = length unc ->
  Forall (fun sd => 0 <= sd) unc ->
  0 <= snd (m_energy_integrated_sensitivity m) ->
  0 <= snd (m_sum_opposite_sign_groupwise_sensitivities m) ->
  exists p,
    to_profile m sens unc s = Ok (p, S (S (s + length sens)))
    /\ sensitivities p = fresh_variables s (combine sens unc)
    /\ isotope p = m_isotope m
    /\ reaction_type p = m_reaction_type m
    /\ zone_number p = m_zone_number m
    /\ zone_volume p = m_zone_volume m.
Proof.
  intros Hlen Hunc Heis Hsos. unfold to_profile, bind.
  rewrite (uarray_ok _ _ _ Hlen Hunc).
  rewrite (ufloat_ok _ _ _ Heis), (ufloat_ok _ _ _ Hsos).
  eexists. split; [reflexivity|]. simpl. repeat split; reflexivity.
Qed.

Lemma split_block_stored (N : nat) (m : sdf_match) (s : nat) :
  length (m_data_block m) = (2 * N)%nat ->
  Forall (fun sd => 0 <= sd) (skipn N (m_data_block m)) ->
  0 <= snd (m_energy_integrated_sensitivity m) ->
  0 <= snd (m_sum_opposite_sign_groupwise_sensitivities m) ->
  exists p s',
    to_profile m (fst (Readers.split_data_block N (m_data_block m)))
                 (snd (Readers.split_data_block N (m_data_block m))) s
    = Ok (p, s')
    /\ stored_reversed N m p.
Proof.
  intros Hlen Hunc Heis Hsos. unfold Readers.split_data_block. cbn [fst snd].
  set (block := m_data_block m) in *.
  assert (Hl1 : length (rev (firstn N block)) = N)
    by (rewrite length_rev, length_firstn; lia).
  assert (Hl2 : length (rev (skipn N block)) = N)
    by (rewrite length_rev, length_skipn; lia).
  assert (Hnonneg : Forall (fun sd => 0 <= sd) (rev (skipn N block))).
  { apply Forall_forall. intros x Hx. apply in_rev in Hx.
    rewrite Forall_forall in Hunc. now apply Hunc. }
  destruct (to_profile_ok m (rev (firstn N block)) (rev (skipn N block)) s)
    as [p [Hrun [Hsens _]]]; try assumption; [lia|].
  exists p. eexists. split; [exact Hrun|].
  assert (Hn : nominal_values (sensitivities p) = rev (firstn N block)).
  { rewrite Hsens, nominal_values_fresh. apply map_fst_combine. lia. }
  assert (Hs : std_devs (sensitivities p) = rev (skipn N block)).
  { rewrite Hsens, std_devs_fresh.
    - apply map_snd_combine. lia.
    - now apply Forall_snd_combine. }
  assert (Hlp : length (sensitivities p) = N).
  { rewrite Hsens, length_fresh_variables, length_combine. lia. }
  split; [exact Hlp|]. split; [exact Hn|]. split; [exact Hs|].
  intros i Hi. split.
  - rewrite <- (nth_map_lt nominal_value (sensitivities p) i 0 (uconst 0))
      by lia.
    fold (nominal_values (sensitivities p)). rewrite Hn.
    rewrite rev_nth by (rewrite length_firstn; lia).
    rewrite length_firstn, Nat.min_l by lia.
    rewrite nth_firstn.
    replace (N - S i <? N)%nat with true
      by (symmetry; apply Nat.ltb_lt; lia).
    f_equal. lia.
  - rewrite <- (nth_map_lt std_dev (sensitivities p) i 0 (uconst 0)) by lia.
    fold (std_devs (sensitivities p)). rewrite Hs.
    rewrite rev_nth by (rewrite length_skipn; lia).
    rewrite length_skipn, nth_skipn. f_equal. lia.
Qed.

(** C9: when the header declares [N] energy groups and every data block
    holds [2 N] numbers with non-negative uncertainties, [_read_sdf] builds a
    profile for every block; its groupwise sequence has length [N], its
    values are the first [N] numbers of the block reversed and its
    uncertainties the last [N] numbers reversed, so that entry [i] holds
    value [N - 1 - i] and uncertainty [2 N - 1 - i] of the raw block. *)
Theorem read_sdf_splits_and_reverses (data : parsed_sdf) (s : nat) :
  (forall m, In m (parsed_matches data) ->
     length (m_data_block m) = (2 * num_groups data)%nat
     /\ Forall (fun sd => 0 <= sd) (skipn (num_groups data) (m_data_block m))
     /\ 0 <= snd (m_energy_integrated_sensitivity m)
     /\ 0 <= snd (m_sum_opposite_sign_groupwise_sensitivities m)) ->
  exists profiles s',
    Readers.sdf_profiles data s = Ok (profiles, s')
    /\ Forall2 (stored_reversed (num_groups data))
               (parsed_matches data) profiles.
Proof.
  intros H. unfold Readers.sdf_profiles.
  apply mapM_Forall2. intros m Hm s0.
  destruct (H m Hm) as [Hlen [Hunc [Heis Hsos]]].
  now apply split_block_stored.
Qed.

Lemma read_sdf_splits_and_reverses_witness :
  exists profiles s',
    Readers.sdf_profiles
      {| num_groups := 2;
         parsed_energy_boundaries := [20; 1; 0];
         parsed_matches :=
           [{| m_isotope := "u-235"; m_reaction_type := "fission";
               m_zaid := "92235"; m_reaction_mt := "18";
               m_zone_number := 0; m_zone_volume := 0;
               m_energy_integrated_sensitivity := (3, 0);
               m_abs_sum_groupwise_sensitivities := 3;
               m_sum_opposite_sign_groupwise_sensitivities := (0, 0);
               m_data_block := [1; 2; 0; 0] |}] |} 0%nat
    = Ok (profiles, s')
    /\ map (fun p => nominal_values (sensitivities p)) profiles = [[2; 1]].
Proof.
  destruct (read_sdf_splits_and_reverses
              {| num_groups := 2;
                 parsed_energy_boundaries := [20; 1; 0];
                 parsed_matches :=
                   [{| m_isotope := "u-235"; m_reaction_type := "fission";
                       m_zaid := "92235"; m_reaction_mt := "18";
                       m_zone_number := 0; m_zone_volume := 0;
                       m_energy_integrated_sensitivity := (3, 0);
                       m_abs_sum_groupwise_sensitivities := 3;
                       m_sum_opposite_sign_groupwise_sensitivities := (0, 0);
                       m_data_block := [1; 2; 0; 0] |}] |} 0%nat)
    as [profiles [s' [Hrun Hall]]].
  - intros m [<-|[]]. simpl. repeat split; try lra.
    repeat constructor; lra.
  - exists profiles, s'. split; [exact Hrun|].
    inversion Hall as [|m p ms ps Hp Hrest]; subst.
    inversion Hrest; subst.
    destruct Hp as [_ [Hn _]]. simpl in *. now rewrite Hn.
Defined.

(** ** Dictionaries *)

Lemma dict_get_set_same {V : Type} (d : dict V) (k : string) (v : V) :
  dict_get (dict_set d k v) k = Some v.
Proof.
  induction d as [|[k' v'] d IH]; simpl.
  - now rewrite String.eqb_refl.
  - destruct (String.eqb k' k) eqn:E; simpl; rewrite E; [reflexivity|exact IH].
Qed.

Lemma dict_get_set_other {V : Type} (d : dict V) (k k' : string) (v : V) :
  k <> k' -> dict_get (dict_set d k v) k' = dict_get d k'.
Proof.
  intros Hk. induction d as [|[k0 v0] d IH]; simpl.
  - apply String.eqb_neq in Hk. now rewrite Hk.
  - destruct (String.eqb k0 k) eqn:E; simpl.
    + apply String.eqb_eq in E. subst k0.
      apply String.eqb_neq in Hk. now rewrite Hk.
    + now rewrite IH.
Qed.

Lemma dict_keys_set {V : Type} (d : dict V) (k : string) (v : V) :
  dict_keys (dict_set d k v)
  = if dict_mem d k then dict_keys d else dict_keys d ++ [k].
Proof.
  unfold dict_mem, dict_keys.
  induction d as [|[k' v'] d IH]; simpl; [reflexivity|].
  destruct (String.eqb k' k) eqn:E; simpl; [reflexivity|].
  rewrite IH. now destruct (dict_get d k).
Qed.

Lemma dict_mem_keys {V : Type} (d : dict V) (k : string) :
  dict_mem d k = true <-> In k (dict_keys d).
Proof.
  unfold dict_mem, dict_keys.
  induction d as [|[k' v'] d IH]; simpl.
  - split; [discriminate|contradiction].
  - destruct (String.eqb k' k) eqn:E.
    + apply String.eqb_eq in E. split; [now left|reflexivity].
    + apply String.eqb_neq in E. rewrite IH. split.
      * now right.
      * intros [H|H]; [contradiction|exact H].
Qed.

Lemma dict_keys_set_NoDup {V : Type} (d : dict V) (k : string) (v : V) :
  NoDup (dict_keys d) -> NoDup (dict_keys (dict_set d k v)).
Proof.
  intros Hnd. rewrite dict_keys_set.
  destruct (dict_mem d k) eqn:E; [exact Hnd|].
  apply NoDup_app; [exact Hnd|repeat constructor; intros []|].
  intros x Hx [<-|[]]. apply dict_mem_keys in Hx. congruence.
Qed.

Lemma dict_get_In {V : Type} (d : dict V) (k : string) (v : V) :
  NoDup (dict_keys d) -> In (k, v) d -> dict_get d k = Some v.
Proof.
  unfold dict_keys. induction d as [|[k' v'] d IH]; simpl; intros Hnd Hin.
  - contradiction.
  - inversion Hnd as [|? ? Hnotin Hnd']; subst.
    destruct Hin as [Heq|Hin].
    + injection Heq as -> ->. now rewrite String.eqb_refl.
    + destruct (String.eqb k' k) eqn:E.
      * apply String.eqb_eq in E. subst k'. exfalso. apply Hnotin.
        apply in_map_iff. now exists (k, v).
      * now apply IH.
Qed.

Lemma dict_get_Some_In {V : Type} (d : dict V) (k : string) (v : V) :
  dict_get d k = Some v -> In (k, v) d.
Proof.
  induction d as [|[k' v'] d IH]; simpl; intros H.
  - discriminate.
  - destruct (String.eqb k' k) eqn:E.
    + apply String.eqb_eq in E. injection H as ->. subst. now left.
    + right. now apply IH.
Qed.

(** ** Nuclide totals by signed quadrature *)

Lemma signed_sum_of_squares_snoc (l : list R) (c : R) :
  signed_sum_of_squares (l ++ [c])
  = if Rlt_dec c 0 then signed_sum_of_squares l - c ^ 2
    else signed_sum_of_squares l + c ^ 2.
Proof.
  unfold signed_sum_of_squares. now rewrite fold_left_app.
Qed.

Lemma contributions_of_snoc (iso : string) (pre : list reaction_contribution)
  (data : reaction_contribution) :
  contributions_of iso (pre ++ [data])
  = contributions_of iso pre
    ++ (if String.eqb (rc_isotope data) iso
        then [nominal_value (rc_contribution data)] else []).
Proof.
  unfold contributions_of. rewrite filter_app, map_app. simpl.
  now destruct (String.eqb (rc_isotope data) iso).
Qed.

Lemma contributions_of_absent (iso : string)
  (records : list reaction_contribution) :
  ~ In iso (map rc_isotope records) -> contributions_of iso records = [].
Proof.
  unfold contributions_of.
  induction records as [|data records IH]; simpl; intros H; [reflexivity|].
  destruct (String.eqb (rc_isotope data) iso) eqn:E.
  - apply String.eqb_eq in E. exfalso. apply H. now left.
  - apply IH. intros Hin. apply H. now right.
Qed.

Lemma totals_track_set (d : dict UFloat) (pre : list reaction_contribution)
  (data : reaction_contribution) (total : UFloat) :
  totals_track d pre ->
  nominal_value total
  = signed_sum_of_squares (contributions_of (rc_isotope data) (pre ++ [data])) ->
  totals_track (dict_set d (rc_isotope data) total) (pre ++ [data]).
Proof.
  intros [Hnd Hget] Htotal. split.
  - now apply dict_keys_set_NoDup.
  - intros iso. destruct (string_dec (rc_isotope data) iso) as [<-|Hne].
    + rewrite dict_get_set_same. split; [|exact Htotal].
      rewrite map_app. apply in_or_app. right. now left.
    + rewrite dict_get_set_other by exact Hne.
      specialize (Hget iso).
      assert (Hc : contributions_of iso (pre ++ [data])
                   = contributions_of iso pre).
      { rewrite contributions_of_snoc.
        apply String.eqb_neq in Hne. rewrite Hne. apply app_nil_r. }
      destruct (dict_get d iso) as [t|].
      * destruct Hget as [Hin Hn]. split.
        -- rewrite map_app. apply in_or_app. now left.
        -- now rewrite Hc.
      * intros Hin. rewrite map_app in Hin. apply in_app_or in Hin.
        destruct Hin as [Hin|[Hin|[]]]; [now apply Hget|contradiction].
Qed.

Lemma accumulate_tracks (d : dict UFloat) (pre : list reaction_contribution)
  (data : reaction_contribution) (s : nat) :
  totals_track d pre ->
  exists d' s',
    Readers.accumulate d data s = Ok (d', s')
    /\ totals_track d' (pre ++ [data]).
Proof.
  intros Htrack. pose proof Htrack as [Hnd Hget].
  specialize (Hget (rc_isotope data)).
  assert (Hstep : forall t0 : R,
            t0 = signed_sum_of_squares (contributions_of (rc_isotope data) pre) ->
            (if Rlt_dec (nominal_value (rc_contribution data)) 0
             then t0 - nominal_value (rc_contribution data) ^ 2
             else t0 + nominal_value (rc_contribution data) ^ 2)
            = signed_sum_of_squares
                (contributions_of (rc_isotope data) (pre ++ [data]))).
  { intros t0 ->. rewrite contributions_of_snoc, String.eqb_refl.
    now rewrite signed_sum_of_squares_snoc. }
  unfold Readers.accumulate, bind, dict_mem.
  destruct (dict_get d (rc_isotope data)) as [t|] eqn:Eg; simpl.
  - unfold ret, lift, dict_getitem. rewrite Eg.
    destruct Hget as [_ Hn]. specialize (Hstep _ Hn).
    unfold ult0.
    destruct (Rlt_dec (nominal_value (rc_contribution data)) 0);
      eexists; eexists; (split; [reflexivity|]);
      apply totals_track_set; try exact Htrack; simpl; exact Hstep.
  - rewrite ufloat_ok by lra. unfold ret, lift, dict_getitem.
    rewrite dict_get_set_same.
    assert (H0 : 0 = signed_sum_of_squares
                       (contributions_of (rc_isotope data) pre))
      by now rewrite contributions_of_absent.
    specialize (Hstep _ H0).
    assert (Hset : forall z total : UFloat,
              dict_set (dict_set d (rc_isotope data) z) (rc_isotope data) total
              = dict_set d (rc_isotope data) total).
    { intros z total. clear. induction d as [|[k v] d IH]; simpl.
      - now rewrite String.eqb_refl.
      - destruct (String.eqb k (rc_isotope data)) eqn:E; simpl; rewrite E.
        + reflexivity.
        + now rewrite IH. }
    unfold ult0.
    destruct (Rlt_dec (nominal_value (rc_contribution data)) 0);
      eexists; eexists; (split; [reflexivity|]);
      rewrite Hset; apply totals_track_set; try exact Htrack; simpl;
      exact Hstep.
Qed.

Lemma accumulate_all_tracks (l pre : list reaction_contribution)
  (d : dict UFloat) (s : nat) :
  totals_track d pre ->
  exists d' s',
    foldM Readers.accumulate l d s = Ok (d', s')
    /\ totals_track d' (pre ++ l).
Proof.
  revert pre d s. induction l as [|data l IH]; intros pre d s Htrack; simpl.
  - exists d, s. rewrite app_nil_r. now split.
  - destruct (accumulate_tracks d pre data s Htrack) as [d1 [s1 [Hacc Ht1]]].
    destruct (IH (pre ++ [data]) d1 s1 Ht1) as [d2 [s2 [Hfold Ht2]]].
    exists d2, s2. unfold bind. rewrite Hacc, Hfold.
    rewrite <- app_assoc in Ht2. now split.
Qed.

Lemma totals_track_empty : totals_track [] [].
Proof.
  split; [constructor|]. intros iso. simpl. intros [].
Qed.

Lemma signed_root_ok (total : UFloat) :
  exists r,
    Readers.signed_root total = Ok r
    /\ nominal_value r = signed_sqrt (nominal_value total).
Proof.
  unfold Readers.signed_root, ugt0, upow_half, signed_sqrt, Rsign.
  destruct (Rlt_dec 0 (nominal_value total)) as [Hpos|Hnpos].
  - destruct (Rlt_dec (nominal_value total) 0) as [Hneg|_]; [lra|].
    eexists. split; [reflexivity|]. simpl.
    rewrite Rabs_pos_eq by lra. ring.
  - simpl.
    destruct (Rlt_dec (- nominal_value total) 0) as [Hcontra|_]; [lra|].
    eexists. split; [reflexivity|]. simpl.
    destruct (Rlt_dec (nominal_value total) 0) as [Hneg|Hnneg].
    + rewrite Rabs_left by exact Hneg. ring.
    + replace (nominal_value total) with 0 by lra.
      rewrite Ropp_0, Rabs_R0, sqrt_0. ring.
Qed.

Lemma rmap_values {K A B : Type} (f : A -> result B) (P : A -> B -> Prop)
  (d : list (K * A)) :
  (forall a, exists b, f a = Ok b /\ P a b) ->
  exists d',
    rmap (fun kv => total <~ f (snd kv) ;; Ok (fst kv, total)) d = Ok d'
    /\ Forall2 (fun kv kv' => fst kv' = fst kv /\ P (snd kv) (snd kv')) d d'.
Proof.
  intros H. induction d as [|[k a] d IH]; simpl.
  - exists []. split; [reflexivity|constructor].
  - destruct (H a) as [b [Hb Pb]]. destruct IH as [d' [Hd' Hall]].
    rewrite Hb. simpl. rewrite Hd'. simpl.
    eexists. split; [reflexivity|]. constructor; [now split|exact Hall].
Qed.

(** The nuclide totals of [read_uncertainty_contributions_sdf] for one
    application: one total for each isotope of the table, whose nominal value
    is the signed root of the running signed sum of squares. *)
Lemma isotope_totals_sdf_spec (application : list reaction_contribution)
  (s : nat) :
  exists totals s',
    Readers.isotope_totals_sdf application s = Ok (totals, s')
    /\ NoDup (map nc_isotope totals)
    /\ (forall iso, In iso (map nc_isotope totals)
                    <-> In iso (map rc_isotope application))
    /\ (forall e, In e totals ->
          nominal_value (nc_contribution e)
          = signed_sqrt (signed_sum_of_squares
                           (contributions_of (nc_isotope e) application))).
Proof.
  destruct (accumulate_all_tracks application [] [] s totals_track_empty)
    as [d [s' [Hfold [Hnd Hget]]]].
  simpl in Hget.
  destruct (rmap_values Readers.signed_root
              (fun t r => nominal_value r = signed_sqrt (nominal_value t))
              d signed_root_ok) as [d' [Hmap Hall]].
  exists (Readers.as_list d'), s'.
  unfold Readers.isotope_totals_sdf, bind, lift. rewrite Hfold, Hmap.
  split; [reflexivity|].
  assert (Hkeys : map nc_isotope (Readers.as_list d') = dict_keys d).
  { unfold Readers.as_list, dict_keys. rewrite map_map. simpl.
    clear - Hall. induction Hall as [|kv kv' d d' [Hk _] _ IH]; simpl.
    - reflexivity.
    - now rewrite Hk, IH. }
  split; [now rewrite Hkeys|]. split.
  - intros iso. rewrite Hkeys, <- dict_mem_keys. unfold dict_mem.
    specialize (Hget iso). destruct (dict_get d iso).
    + split; [intros _; apply Hget|reflexivity].
    + split; [discriminate|intros Hin; contradiction].
  - intros e He. unfold Readers.as_list in He.
    apply in_map_iff in He. destruct He as [[k r] [<- Hin]]. simpl.
    assert (Hex : exists t, In (k, t) d
                            /\ nominal_value r = signed_sqrt (nominal_value t)).
    { clear - Hall Hin.
      induction Hall as [|[k0 t0] [k1 r1] d d' [Hk Hr] _ IH]; simpl in *.
      - contradiction.
      - destruct Hin as [Heq|Hin].
        + injection Heq as -> ->. subst k0. exists t0. split; [now left|].
          exact Hr.
        + destruct (IH Hin) as [t [Ht Hnr]]. exists t. split; [now right|].
          exact Hnr. }
    destruct Hex as [t [Ht Hr]]. rewrite Hr.
    specialize (Hget k). rewrite (dict_get_In d k t Hnd Ht) in Hget.
    destruct Hget as [_ Hn]. now rewrite Hn.
Qed.

Lemma signed_sum_3_4 : signed_sum_of_squares [3; 4] = 25.
Proof.
  unfold signed_sum_of_squares. simpl.
  destruct (Rlt_dec 3 0); [lra|]. destruct (Rlt_dec 4 0); [lra|]. ring.
Qed.

Lemma signed_sum_3_m4 : signed_sum_of_squares [3; -4] = -7.
Proof.
  unfold signed_sum_of_squares. simpl.
  destruct (Rlt_dec 3 0); [lra|]. destruct (Rlt_dec (-4) 0); [|lra]. ring.
Qed.

Lemma signed_sqrt_25 : signed_sqrt 25 = 5.
Proof.
  unfold signed_sqrt, Rsign. destruct (Rlt_dec 0 25); [|lra].
  rewrite Rabs_pos_eq by lra. replace 25 with (5 * 5) by ring.
  rewrite sqrt_square by lra. ring.
Qed.

Lemma signed_sqrt_m7 : signed_sqrt (-7) = - sqrt 7.
Proof.
  unfold signed_sqrt, Rsign. destruct (Rlt_dec 0 (-7)); [lra|].
  destruct (Rlt_dec (-7) 0); [|lra].
  rewrite Rabs_left by lra. replace (- -7) with 7 by ring. ring.
Qed.

(** C1: for one application, [read_uncertainty_contributions_sdf] gives each
    isotope of the table one total; the total is the square root of the
    absolute value of the running signed sum of squares (plus the square of a
    contribution that is not negative, minus the square of a negative one),
    with the sign of that sum.  Contributions [[3, 4]] give [5];
    contributions [[3, -4]] give the running sum [-7] and the total
    [- sqrt 7]. *)
Theorem signed_quadrature_nuclide_totals
  (application : list reaction_contribution) (s : nat) :
  exists totals s',
    Readers.isotope_totals_sdf application s = Ok (totals, s')
    /\ NoDup (map nc_isotope totals)
    /\ (forall iso, In iso (map nc_isotope totals)
                    <-> In iso (map rc_isotope application))
    /\ (forall e, In e totals ->
          let running := signed_sum_of_squares
                           (contributions_of (nc_isotope e) application) in
          nominal_value (nc_contribution e) = Rsign running * sqrt (Rabs running)
          /\ (contributions_of (nc_isotope e) application = [3; 4] ->
              nominal_value (nc_contribution e) = 5)
          /\ (contributions_of (nc_isotope e) application = [3; -4] ->
              running = -7 /\ nominal_value (nc_contribution e) = - sqrt 7)).
Proof.
  destruct (isotope_totals_sdf_spec application s)
    as [totals [s' [Hrun [Hnd [Hiff Hval]]]]].
  exists totals, s'. split; [exact Hrun|]. split; [exact Hnd|].
  split; [exact Hiff|].
  intros e He running. specialize (Hval e He). fold running in Hval.
  split; [exact Hval|]. split.
  - intros H34. rewrite Hval. unfold running. rewrite H34, signed_sum_3_4.
    apply signed_sqrt_25.
  - intros H34. unfold running in *. rewrite H34 in *.
    rewrite signed_sum_3_m4 in *. split; [reflexivity|].
    rewrite Hval. apply signed_sqrt_m7.
Qed.

Lemma signed_quadrature_nuclide_totals_witness :
  exists totals s',
    Readers.isotope_totals_sdf
      [{| rc_isotope := "u-235 - u-235";
          rc_reaction_type := "fission - fission";
          rc_contribution := uconst 3 |};
       {| rc_isotope := "u-235 - u-235";
          rc_reaction_type := "n,gamma - n,gamma";
          rc_contribution := uconst (-4) |}] 0%nat
    = Ok (totals, s')
    /\ map (fun e => nominal_value (nc_contribution e)) totals = [- sqrt 7].
Proof.
  destruct (signed_quadrature_nuclide_totals
      [{| rc_isotope := "u-235 - u-235";
          rc_reaction_type := "fission - fission";
          rc_contribution := uconst 3 |};
       {| rc_isotope := "u-235 - u-235";
          rc_reaction_type := "n,gamma - n,gamma";
          rc_contribution := uconst (-4) |}] 0%nat)
    as [totals [s' [Hrun [Hnd [Hiff Hval]]]]].
  exists totals, s'. split; [exact Hrun|].
  assert (Hin : In "u-235 - u-235" (map nc_isotope totals))
    by (apply Hiff; simpl; now left).
  destruct totals as [|e1 totals]; [contradiction|].
  destruct totals as [|e2 totals].
  - destruct Hin as [Hk|[]].
    destruct (Hval e1 (or_introl eq_refl)) as [_ [_ H]].
    rewrite Hk in H. simpl. f_equal. now apply H.
  - exfalso.
    assert (H1 : nc_isotope e1 = "u-235 - u-235").
    { assert (H : In (nc_isotope e1) (map nc_isotope (e1 :: e2 :: totals)))
        by now left.
      apply Hiff in H. simpl in H. now destruct H as [H|[H|[]]]. }
    assert (H2 : nc_isotope e2 = "u-235 - u-235").
    { assert (H : In (nc_isotope e2) (map nc_isotope (e1 :: e2 :: totals)))
        by (right; now left).
      apply Hiff in H. simpl in H. now destruct H as [H|[H|[]]]. }
    simpl in Hnd. inversion Hnd as [|? ? Hnotin _]; subst.
    apply Hnotin. left. congruence.
Defined.

(** ** The two call sites of the aggregation *)

Lemma rmap_raises {A B : Type} (f : A -> result B) (e : exception)
  (l : list A) :
  (forall a, In a l -> forall e', f a = Raise e' -> e' = e) ->
  (exists a, In a l /\ f a = Raise e) ->
  rmap f l = Raise e.
Proof.
  induction l as [|a l IH]; intros Honly [x [Hin Hx]]; simpl.
  - contradiction.
  - destruct (f a) as [b|e'] eqn:Ea; simpl.
    + destruct Hin as [->|Hin]; [congruence|].
      rewrite IH; [reflexivity| |now exists x].
      intros a' Ha'. apply Honly. now right.
    + f_equal. now apply (Honly a (or_introl eq_refl)).
Qed.

Lemma signed_sum_nil : signed_sum_of_squares [] = 0.
Proof. reflexivity. Qed.

(** [read_uncertainty_contributions_out] raises as soon as the running sum of
    one isotope is negative. *)
Lemma isotope_totals_out_negative (isotope_reaction : list reaction_contribution)
  (iso : string) (s : nat) :
  signed_sum_of_squares (contributions_of iso isotope_reaction) < 0 ->
  Readers.isotope_totals_out isotope_reaction s = Raise ValueError.
Proof.
  intros Hneg.
  destruct (accumulate_all_tracks isotope_reaction [] [] s totals_track_empty)
    as [d [s' [Hfold [Hnd Hget]]]].
  simpl in Hget. specialize (Hget iso).
  unfold Readers.isotope_totals_out, bind, lift. rewrite Hfold.
  destruct (dict_get d iso) as [t|] eqn:Eg.
  - destruct Hget as [_ Hn].
    rewrite (rmap_raises _ ValueError); [reflexivity| |].
    + intros [k v] _ e'. simpl. unfold upow_half.
      destruct (Rlt_dec (nominal_value v) 0); simpl; congruence.
    + exists (iso, t). split; [now apply dict_get_Some_In|].
      simpl. unfold upow_half.
      destruct (Rlt_dec (nominal_value t) 0); [reflexivity|lra].
  - rewrite (contributions_of_absent _ _ Hget), signed_sum_nil in Hneg. lra.
Qed.

Lemma isotope_totals_sdf_single (application : list reaction_contribution)
  (iso : string) (s : nat) :
  application <> [] ->
  (forall data, In data application -> rc_isotope data = iso) ->
  exists e s',
    Readers.isotope_totals_sdf application s = Ok ([e], s')
    /\ nc_isotope e = iso
    /\ nominal_value (nc_contribution e)
       = signed_sqrt (signed_sum_of_squares (contributions_of iso application)).
Proof.
  intros Hne Hall.
  destruct (isotope_totals_sdf_spec application s)
    as [totals [s' [Hrun [Hnd [Hiff Hval]]]]].
  assert (Hkeys : forall k, In k (map nc_isotope totals) -> k = iso).
  { intros k Hk. apply Hiff in Hk. apply in_map_iff in Hk.
    destruct Hk as [data [<- Hdata]]. now apply Hall. }
  assert (Hin : In iso (map nc_isotope totals)).
  { apply Hiff. destruct application as [|data rest]; [contradiction|].
    left. apply Hall. now left. }
  destruct totals as [|e1 totals]; [contradiction|].
  destruct totals as [|e2 totals].
  - exists e1, s'. split; [exact Hrun|].
    assert (H1 : nc_isotope e1 = iso) by (apply Hkeys; now left).
    split; [exact H1|]. rewrite <- H1. apply Hval. now left.
  - exfalso. simpl in Hnd. inversion Hnd as [|? ? Hnotin _]; subst.
    apply Hnotin. left.
    rewrite (Hkeys (nc_isotope e1)) by now left.
    apply Hkeys. right. now left.
Qed.

(** C2 (evaluation): a table with the two lines [3 +/- 0] and [-4 +/- 0] for
    one pair of isotopes.  The running sum is [-7];
    [read_uncertainty_contributions_sdf] returns the total [- sqrt 7],
    [read_uncertainty_contributions_out] takes [total**0.5] of the negative
    sum and raises. *)
Theorem out_and_sdf_totals_differ_on_negative_sum :
  let lines :=
    [{| l_isotope1 := "u-235"; l_reaction1 := "fission";
        l_isotope2 := "u-235"; l_reaction2 := "fission";
        l_value := 3; l_uncertainty := 0 |};
     {| l_isotope1 := "u-235"; l_reaction1 := "n,gamma";
        l_isotope2 := "u-235"; l_reaction2 := "fission";
        l_value := -4; l_uncertainty := 0 |}] in
  Readers.read_uncertainty_contributions_out lines 0%nat = Raise ValueError
  /\ exists total isotope_reaction s',
       Readers.read_uncertainty_contributions_sdf [lines] 0%nat
       = Ok (([[total]], isotope_reaction), s')
       /\ nc_isotope total = "u-235 - u-235"
       /\ nominal_value (nc_contribution total) = - sqrt 7.
Proof.
  intros lines.
  assert (Hentries : mapM Readers.isotope_reaction_entry lines 0%nat
            = Ok ([{| rc_isotope := "u-235 - u-235";
                      rc_reaction_type := "fission - fission";
                      rc_contribution :=
                        {| nominal_value := 3;
                           linear_part :=
                             [(1, {| tag := 0; var_std_dev := 0 |})] |} |};
                   {| rc_isotope := "u-235 - u-235";
                      rc_reaction_type := "n,gamma - fission";
                      rc_contribution :=
                        {| nominal_value := -4;
                           linear_part :=
                             [(1, {| tag := 1; var_std_dev := 0 |})] |} |}],
                  2%nat)).
  { unfold lines. simpl.
    unfold Readers.isotope_reaction_entry, bind, ret. simpl.
    rewrite ufloat_ok by lra. simpl.
    rewrite ufloat_ok by lra. reflexivity. }
  split.
  - unfold Readers.read_uncertainty_contributions_out, bind.
    rewrite Hentries.
    rewrite (isotope_totals_out_negative _ "u-235 - u-235"); [reflexivity|].
    unfold contributions_of. simpl. rewrite signed_sum_3_m4. lra.
  - unfold Readers.read_uncertainty_contributions_sdf, bind.
    cbn [mapM]. unfold bind. rewrite Hentries. unfold ret. cbn [mapM].
    unfold bind.
    match goal with
    | |- context [Readers.isotope_totals_sdf ?recs ?s] =>
        destruct (isotope_totals_sdf_single recs "u-235 - u-235" s)
          as [e [s' [Hrun [Hk Hn]]]]
    end.
    + discriminate.
    + intros data [<-|[<-|[]]]; reflexivity.
    + rewrite Hrun. unfold ret. exists e. eexists. eexists.
      split; [reflexivity|]. split; [exact Hk|].
      rewrite Hn. unfold contributions_of. simpl.
      rewrite signed_sum_3_m4. apply signed_sqrt_m7.
Qed.

(** ** The decomposition into contributions *)

Lemma bind_Ok {A B : Type} (m : M A) (k : A -> M B) (s : nat) (r : B * nat) :
  bind m k s = Ok r -> exists a s1, m s = Ok (a, s1) /\ k a s1 = Ok r.
Proof.
  unfold bind. destruct (m s) as [[a s1]|e]; [|discriminate].
  intros H. now exists a, s1.
Qed.

Lemma bind_run {A B : Type} (m : M A) (k : A -> M B) (s : nat) (a : A)
  (s1 : nat) :
  m s = Ok (a, s1) -> bind m k s = k a s1.
Proof. unfold bind. now intros ->. Qed.

Lemma lift_Ok {A : Type} (r : result A) (s : nat) (a : A) (s1 : nat) :
  lift r s = Ok (a, s1) -> r = Ok a /\ s1 = s.
Proof.
  unfold lift. destruct r; [|discriminate]. intros H. injection H as -> ->.
  now split.
Qed.

Lemma ret_Ok {A : Type} (a b : A) (s s1 : nat) :
  ret a s = Ok (b, s1) -> b = a /\ s1 = s.
Proof. unfold ret. intros H. injection H as -> ->. now split. Qed.

Lemma mapM_Ok_Forall2 {A B : Type} (f : A -> M B) (P : A -> B -> Prop)
  (l : list A) :
  (forall a s b s', f a s = Ok (b, s') -> P a b) ->
  forall s bs s', mapM f l s = Ok (bs, s') -> Forall2 P l bs.
Proof.
  intros Hf. induction l as [|a l IH]; intros s bs s' H; simpl in H.
  - apply ret_Ok in H. destruct H as [-> _]. constructor.
  - apply bind_Ok in H. destruct H as [b [s1 [Hb H]]].
    apply bind_Ok in H. destruct H as [bs' [s2 [Hbs H]]].
    apply ret_Ok in H. destruct H as [-> _].
    constructor; [now apply (Hf a s b s1)|now apply (IH s1 bs' s2)].
Qed.

Lemma is_zero_variable (t : nat) :
  is_zero {| nominal_value := 0;
             linear_part := [(1, {| tag := t; var_std_dev := 0 |})] |}.
Proof.
  split; [reflexivity|]. apply std_dev_variable. lra.
Qed.

(** The entries appended for an isotope that one side lacks. *)
Lemma zero_entries (isotope : string) (all_reactions : list string) (s : nat) :
  exists zeros s',
    mapM (fun reaction_type =>
            zero <- ufloat 0 0 ;;
            ret {| rc_isotope := isotope;
                   rc_reaction_type := reaction_type;
                   rc_contribution := zero |})
         all_reactions s
    = Ok (zeros, s')
    /\ Forall2 (fun r x => rc_isotope x = isotope /\ rc_reaction_type x = r
                           /\ is_zero (rc_contribution x))
               all_reactions zeros.
Proof.
  apply mapM_Forall2. intros r _ s0.
  unfold bind. rewrite ufloat_ok by lra. unfold ret.
  eexists. eexists. split; [reflexivity|]. simpl.
  repeat split; try reflexivity. apply std_dev_variable. lra.
Qed.

Section Decomposition.

Variables application experiment : dict (dict sdf_profile).
Variable all_reactions : list string.
Variables application_norm experiment_norm : UFloat.

Let step :=
  Legacy.isotope_step application experiment all_reactions
                      application_norm experiment_norm.

Local Abbreviation appended :=
  (step_appended application experiment all_reactions).
Local Abbreviation zeros_for_absent :=
  (zeros_for_absent_in application experiment).
Local Abbreviation recorded := (recorded_in all_reactions).

Lemma isotope_step_absent
  (acc : list nuclide_contribution * list reaction_contribution)
  (isotope : string) (s : nat) :
  Legacy.isotope_does_not_contribute application experiment isotope = true ->
  exists acc' s',
    step acc isotope s = Ok (acc', s')
    /\ appended isotope acc acc'.
Proof.
  intros Habsent. unfold step, Legacy.isotope_step. rewrite Habsent.
  destruct (zero_entries isotope all_reactions (S s))
    as [zeros [s' [Hrun Hall]]].
  erewrite bind_run by (apply ufloat_ok; lra).
  erewrite bind_run by exact Hrun. unfold ret.
  eexists. eexists. split; [reflexivity|].
  eexists. exists zeros. split; [reflexivity|]. split; [reflexivity|]. split.
  - clear - Hall. induction Hall as [|r x rs xs [H1 [H2 _]] _ IH];
      constructor; auto.
  - intros _. split; [apply is_zero_variable|].
    clear - Hall. induction Hall as [|r x rs xs [_ [_ H3]] _ IH];
      constructor; auto.
Qed.

Lemma isotope_step_appends
  (acc acc' : list nuclide_contribution * list reaction_contribution)
  (isotope : string) (s s' : nat) :
  step acc isotope s = Ok (acc', s') -> appended isotope acc acc'.
Proof.
  destruct (Legacy.isotope_does_not_contribute application experiment isotope)
    eqn:Habsent.
  - destruct (isotope_step_absent acc isotope s Habsent)
      as [acc1 [s1 [Hrun Happ]]].
    intros H. rewrite Hrun in H. injection H as <- <-. exact Happ.
  - unfold step, Legacy.isotope_step. rewrite Habsent. intros H.
    apply bind_Ok in H. destruct H as [ap [s1 [_ H]]].
    apply bind_Ok in H. destruct H as [av [s2 [_ H]]].
    apply bind_Ok in H. destruct H as [ep [s3 [_ H]]].
    apply bind_Ok in H. destruct H as [ev [s4 [_ H]]].
    apply bind_Ok in H. destruct H as [E [s5 [_ H]]].
    apply bind_Ok in H. destruct H as [rw [s6 [Hrw H]]].
    apply ret_Ok in H. destruct H as [-> _].
    exists {| nc_isotope := isotope; nc_contribution := E |}, rw.
    split; [reflexivity|]. split; [reflexivity|]. split.
    + unfold Legacy.get_reaction_wise_E_contributions in Hrw.
      apply (mapM_Ok_Forall2 _ _ _ ) with (2 := Hrw).
      intros r t x t' Hx.
      apply bind_Ok in Hx. destruct Hx as [? [? [_ Hx]]].
      apply bind_Ok in Hx. destruct Hx as [? [? [_ Hx]]].
      apply bind_Ok in Hx. destruct Hx as [? [? [_ Hx]]].
      apply ret_Ok in Hx. destruct Hx as [-> _]. now split.
    + intros Hc. rewrite Habsent in Hc. discriminate Hc.
Qed.

Lemma appended_keeps_zeros (isotope : string)
  (acc acc' : list nuclide_contribution * list reaction_contribution) :
  appended isotope acc acc' -> zeros_for_absent acc -> zeros_for_absent acc'.
Proof.
  intros [e [rw [-> [He [Hrw Hzero]]]]] Hacc iso0 Habsent.
  destruct (Hacc iso0 Habsent) as [Hn Hr]. cbn [fst snd]. split.
  - intros e0 Hin Hiso. apply in_app_or in Hin.
    destruct Hin as [Hin|[<-|[]]]; [now apply Hn|].
    rewrite He in Hiso. subst iso0. now apply Hzero.
  - intros x Hin Hiso. apply in_app_or in Hin.
    destruct Hin as [Hin|Hin]; [now apply Hr|].
    assert (Hx : rc_isotope x = isotope).
    { clear - Hrw Hin. induction Hrw as [|r y rs ys [H1 _] _ IH].
      - contradiction.
      - destruct Hin as [<-|Hin]; [exact H1|now apply IH]. }
    rewrite Hx in Hiso. subst iso0.
    destruct (Hzero Habsent) as [_ Hall].
    rewrite Forall_forall in Hall. now apply Hall.
Qed.

Lemma appended_records (isotope : string)
  (acc acc' : list nuclide_contribution * list reaction_contribution) :
  appended isotope acc acc' -> recorded isotope acc'.
Proof.
  intros [e [rw [-> [He [Hrw _]]]]]. cbn [fst snd]. split.
  - exists e. split; [|exact He]. apply in_or_app. right. now left.
  - intros r Hr.
    assert (Hx : exists x, In x rw /\ rc_isotope x = isotope
                           /\ rc_reaction_type x = r).
    { clear - Hrw Hr. induction Hrw as [|r0 y rs ys [H1 H2] _ IH].
      - contradiction.
      - destruct Hr as [<-|Hr].
        + exists y. split; [now left|now split].
        + destruct (IH Hr) as [x [Hin Hx]]. exists x.
          split; [now right|exact Hx]. }
    destruct Hx as [x [Hin Hx]]. exists x. split; [|exact Hx].
    apply in_or_app. now right.
Qed.

Lemma appended_keeps_recorded (isotope iso0 : string)
  (acc acc' : list nuclide_contribution * list reaction_contribution) :
  appended isotope acc acc' -> recorded iso0 acc -> recorded iso0 acc'.
Proof.
  intros [e [rw [-> _]]] [[e0 [Hin He0]] Hr]. cbn [fst snd]. split.
  - exists e0. split; [|exact He0]. apply in_or_app. now left.
  - intros r Hin_r. destruct (Hr r Hin_r) as [x [Hx Hrest]].
    exists x. split; [|exact Hrest]. apply in_or_app. now left.
Qed.

Lemma loop_keeps_zeros (l : list string)
  (acc acc' : list nuclide_contribution * list reaction_contribution)
  (s s' : nat) :
  foldM step l acc s = Ok (acc', s') ->
  zeros_for_absent acc -> zeros_for_absent acc'.
Proof.
  revert acc s. induction l as [|iso l IH]; intros acc s H Hacc; simpl in H.
  - apply ret_Ok in H. now destruct H as [-> _].
  - apply bind_Ok in H. destruct H as [acc1 [s1 [Hstep H]]].
    apply (IH acc1 s1 H).
    apply (appended_keeps_zeros iso acc); [|exact Hacc].
    now apply (isotope_step_appends acc acc1 iso s s1).
Qed.

Lemma loop_keeps_recorded (l : list string) (iso0 : string)
  (acc acc' : list nuclide_contribution * list reaction_contribution)
  (s s' : nat) :
  foldM step l acc s = Ok (acc', s') ->
  recorded iso0 acc -> recorded iso0 acc'.
Proof.
  revert acc s. induction l as [|iso l IH]; intros acc s H Hacc; simpl in H.
  - apply ret_Ok in H. now destruct H as [-> _].
  - apply bind_Ok in H. destruct H as [acc1 [s1 [Hstep H]]].
    apply (IH acc1 s1 H).
    apply (appended_keeps_recorded iso iso0 acc); [|exact Hacc].
    now apply (isotope_step_appends acc acc1 iso s s1).
Qed.

Lemma loop_records (l : list string) (iso0 : string)
  (acc acc' : list nuclide_contribution * list reaction_contribution)
  (s s' : nat) :
  foldM step l acc s = Ok (acc', s') ->
  In iso0 l -> recorded iso0 acc'.
Proof.
  revert acc s. induction l as [|iso l IH]; intros acc s H Hin; simpl in H.
  - contradiction.
  - apply bind_Ok in H. destruct H as [acc1 [s1 [Hstep H]]].
    destruct (string_dec iso iso0) as [->|Hne].
    + apply (loop_keeps_recorded l iso0 acc1 acc' s1 s' H).
      apply (appended_records iso0 acc).
      now apply (isotope_step_appends acc acc1 iso0 s s1).
    + destruct Hin as [Heq|Hin]; [contradiction|].
      now apply (IH acc1 s1 H).
Qed.

End Decomposition.

Lemma zeros_for_absent_start (application experiment : dict (dict sdf_profile)) :
  zeros_for_absent_in application experiment ([], []).
Proof.
  intros isotope _. split; intros ? [].
Qed.

(** The outcome of the decomposition, read off a successful run. *)
Lemma decomposition_run (parse_sdf : string -> result parsed_sdf)
  (set_order : list string -> list string) (application experiment : reader)
  (s : nat) (nw : list nuclide_contribution)
  (nrw : list reaction_contribution) (app' exp' : reader) (s' : nat) :
  Legacy.get_nuclide_and_reaction_wise_E_contributions
    parse_sdf set_order application experiment s
  = Ok (((nw, nrw), (app', exp')), s') ->
  exists A E first by_reaction an en s1 s2,
    sdf_data app' = SdfDict A
    /\ sdf_data exp' = SdfDict E
    /\ Legacy.convert_to_dict application = Ok A
    /\ Legacy.convert_to_dict experiment = Ok E
    /\ nth_error (dict_keys A) 0 = Some first
    /\ dict_get A first = Some by_reaction
    /\ foldM (Legacy.isotope_step A E (dict_keys by_reaction) an en)
             (set_order (dict_keys A ++ dict_keys E)) ([], []) s1
       = Ok ((nw, nrw), s2).
Proof.
  unfold Legacy.get_nuclide_and_reaction_wise_E_contributions. intros H.
  apply bind_Ok in H. destruct H as [ap [t1 [_ H]]].
  apply bind_Ok in H. destruct H as [av [t2 [_ H]]].
  apply bind_Ok in H. destruct H as [ep [t3 [_ H]]].
  apply bind_Ok in H. destruct H as [ev [t4 [_ H]]].
  apply bind_Ok in H. destruct H as [an [t5 [_ H]]].
  apply bind_Ok in H. destruct H as [en [t6 [_ H]]].
  apply bind_Ok in H. destruct H as [A [t7 [HA H]]].
  apply lift_Ok in HA. destruct HA as [HA _].
  apply bind_Ok in H. destruct H as [E [t8 [HE H]]].
  apply lift_Ok in HE. destruct HE as [HE _].
  apply bind_Ok in H. destruct H as [first [t9 [Hfirst H]]].
  apply lift_Ok in Hfirst. destruct Hfirst as [Hfirst _].
  apply bind_Ok in H. destruct H as [by_reaction [t10 [Hby H]]].
  apply lift_Ok in Hby. destruct Hby as [Hby _].
  apply bind_Ok in H. destruct H as [[nw0 nrw0] [t11 [Hloop H]]].
  apply ret_Ok in H. destruct H as [Heq _].
  injection Heq as -> -> -> ->.
  exists A, E, first, by_reaction, an, en, t10, t11.
  repeat split; try reflexivity; try assumption.
  - unfold getitem in Hfirst.
    destruct (nth_error (dict_keys A) 0); [congruence|discriminate].
  - unfold dict_getitem in Hby.
    destruct (dict_get A first); [congruence|discriminate].
Qed.

(** C8: in the decomposition, the pass of the loop for a nuclide that the
    application or the experiment lacks raises nothing and appends a
    nuclide-wise entry and one reaction-wise entry for each reaction of
    [all_reactions], all of value [0] and uncertainty [0]; and when the
    decomposition returns, every nuclide found on one side only has its
    entries in the two lists returned, and every entry of such a nuclide is
    [(0, 0)].  The order in which the set of isotopes is iterated is free. *)
Theorem absent_nuclides_contribute_zero
  (parse_sdf : string -> result parsed_sdf)
  (set_order : list string -> list string) (application experiment : reader)
  (s : nat) :
  (forall l k, In k (set_order l) <-> In k l) ->
  (forall A E all_reactions an en acc isotope s0,
      Legacy.isotope_does_not_contribute A E isotope = true ->
      exists acc' s',
        Legacy.isotope_step A E all_reactions an en acc isotope s0
        = Ok (acc', s')
        /\ step_appended A E all_reactions isotope acc acc')
  /\ (forall nw nrw app' exp' s',
        Legacy.get_nuclide_and_reaction_wise_E_contributions
          parse_sdf set_order application experiment s
        = Ok (((nw, nrw), (app', exp')), s') ->
        exists A E first by_reaction,
          sdf_data app' = SdfDict A
          /\ sdf_data exp' = SdfDict E
          /\ nth_error (dict_keys A) 0 = Some first
          /\ dict_get A first = Some by_reaction
          /\ forall isotope,
               In isotope (dict_keys A ++ dict_keys E) ->
               Legacy.isotope_does_not_contribute A E isotope = true ->
               recorded_in (dict_keys by_reaction) isotope (nw, nrw)
               /\ (forall e, In e nw -> nc_isotope e = isotope ->
                             is_zero (nc_contribution e))
               /\ (forall x, In x nrw -> rc_isotope x = isotope ->
                             is_zero (rc_contribution x))).
Proof.
  intros Horder. split.
  - intros A E all_reactions an en acc isotope s0 Habsent.
    now apply isotope_step_absent.
  - intros nw nrw app' exp' s' Hrun.
    destruct (decomposition_run _ _ _ _ _ _ _ _ _ _ Hrun)
      as [A [E [first [by_reaction [an [en [s1 [s2 H]]]]]]]].
    destruct H as [HA [HE [_ [_ [Hfirst [Hby Hloop]]]]]].
    exists A, E, first, by_reaction.
    repeat (split; [assumption|]).
    intros isotope Hin Habsent.
    pose proof (loop_keeps_zeros A E _ an en _ _ _ _ _ Hloop
                  (zeros_for_absent_start A E) isotope Habsent) as [Hn Hr].
    split; [|split; [exact Hn|exact Hr]].
    apply (loop_records A E _ an en _ isotope _ _ _ _ Hloop).
    now apply Horder.
Qed.

Ltac run_monad :=
  repeat first
    [ rewrite ufloat_ok by lra
    | rewrite std_dev_variable by lra
    | rewrite vector_norm_ok
    | progress (unfold bind, ret, lift)
    | progress simpl ].

Lemma example_reader_built (filename iso : string) (s : nat) :
  example_files filename
  = Ok {| num_groups := 1; parsed_energy_boundaries := [20; 0];
          parsed_matches := [example_match iso "fission" 1] |} ->
  Legacy.RegionIntegratedSdfReader example_files filename s
  = Ok (example_reader filename iso s, (s + 3)%nat).
Proof.
  intros Hfile.
  unfold Legacy.RegionIntegratedSdfReader, Legacy.region_integrated_sdf_data,
    Legacy._read_sdf, to_profile, uarray.
  unfold bind at 1. unfold bind at 1. unfold bind at 1. unfold lift at 1.
  rewrite Hfile. run_monad.
  replace (s + 3)%nat with (S (S (S s))) by lia. reflexivity.
Qed.

Lemma example_decomposition :
  exists nw nrw s',
    Legacy.get_nuclide_and_reaction_wise_E_contributions
      example_files (fun l => l)
      (example_reader "app.sdf" "u-235" 0)
      (example_reader "exp.sdf" "h-1" 3) 6%nat
    = Ok (((nw, nrw),
           (set_sdf_data (example_reader "app.sdf" "u-235" 0)
              [("u-235", [("fission", example_profile "u-235" "fission" 1 0)])],
            set_sdf_data (example_reader "exp.sdf" "h-1" 3)
              [("h-1", [("fission", example_profile "h-1" "fission" 1 3)])])),
          s').
Proof.
  unfold Legacy.get_nuclide_and_reaction_wise_E_contributions,
    Legacy.get_sensitivity_profiles, Legacy.region_integrated_sdf_data,
    Legacy._read_sdf, Engine.create_sensitivity_vector, to_profile, uarray.
  run_monad.
  unfold Legacy.isotope_step. run_monad.
  eexists. eexists. eexists. reflexivity.
Qed.

Lemma absent_nuclides_contribute_zero_witness :
  exists nw nrw app' exp' s',
    Legacy.get_nuclide_and_reaction_wise_E_contributions
      example_files (fun l => l)
      (example_reader "app.sdf" "u-235" 0)
      (example_reader "exp.sdf" "h-1" 3) 6%nat
    = Ok (((nw, nrw), (app', exp')), s')
    /\ (exists e, In e nw /\ nc_isotope e = "h-1")
    /\ (forall e, In e nw -> nc_isotope e = "h-1" ->
                  is_zero (nc_contribution e))
    /\ (forall x, In x nrw -> rc_isotope x = "h-1" ->
                  is_zero (rc_contribution x)).
Proof.
  destruct example_decomposition as [nw [nrw [s' Hrun]]].
  destruct (absent_nuclides_contribute_zero example_files (fun l => l)
              (example_reader "app.sdf" "u-235" 0)
              (example_reader "exp.sdf" "h-1" 3) 6%nat
              (fun l k => conj (fun H => H) (fun H => H))) as [_ Hall].
  destruct (Hall _ _ _ _ _ Hrun)
    as [A [E [first [by_reaction [HA [HE [_ [_ Hiso]]]]]]]].
  simpl in HA, HE. injection HA as <-. injection HE as <-.
  destruct (Hiso "h-1") as [[Hrec _] [Hn Hr]].
  - simpl. right. now left.
  - reflexivity.
  - do 5 eexists. split; [exact Hrun|]. split; [exact Hrec|].
    split; [exact Hn|exact Hr].
Defined.

(** ** Further properties of [calculate_E_from_sensitivity_vecs] *)

Lemma np_dot_mismatch (a b : list UFloat) :
  length a <> length b -> np_dot a b = Raise ValueError.
Proof.
  intros H. unfold np_dot. apply Nat.eqb_neq in H. now rewrite H.
Qed.

(** Vectors of different lengths: once the two divisions have passed, the
    dot product raises [ValueError], in either mode and before any
    uncertainty is computed. *)
Theorem length_mismatch_raises (a b : list UFloat) (fa fe : option string)
  (unc : string) (eno ano : option UFloat) (an en : UFloat) (s : nat) :
  length a <> length b ->
  Engine.norms_for a b eno ano = Ok (Some an, Some en) ->
  nominal_value an <> 0 ->
  nominal_value en <> 0 ->
  (unc = "automatic" -> fa <> None /\ fe <> None) ->
  Engine.calculate_E_from_sensitivity_vecs a b fa fe unc eno ano s
  = Raise ValueError.
Proof.
  intros Hlen Hnorms Han Hen Hfiles.
  unfold Engine.calculate_E_from_sensitivity_vecs.
  destruct (String.eqb unc "automatic") eqn:Hunc.
  - apply String.eqb_eq in Hunc. destruct (Hfiles Hunc) as [Hfa Hfe].
    destruct fa as [fa|]; [|contradiction].
    destruct fe as [fe|]; [|contradiction]. simpl.
    unfold bind, lift. rewrite Hnorms.
    rewrite (array_div_ok a an Han), (array_div_ok b en Hen).
    destruct (negb (String.eqb fa fe)).
    + rewrite !break_dependency_ok. unfold ret.
      now rewrite np_dot_mismatch
        by (rewrite !length_fresh_variables, !length_map; exact Hlen).
    + unfold ret.
      now rewrite np_dot_mismatch by (rewrite !length_map; exact Hlen).
  - unfold bind, lift. rewrite Hnorms.
    rewrite (array_div_ok a an Han), (array_div_ok b en Hen).
    now rewrite np_dot_mismatch by (rewrite !length_map; exact Hlen).
Qed.

Lemma length_mismatch_raises_witness :
  Engine.calculate_E_from_sensitivity_vecs
    [uconst 1; uconst 2] [uconst 1] None None "manual" None None 0%nat
  = Raise ValueError.
Proof.
  apply (length_mismatch_raises [uconst 1; uconst 2] [uconst 1] None None
           "manual" None None (norm_value [uconst 1; uconst 2])
           (norm_value [uconst 1]) 0%nat).
  - simpl. discriminate.
  - apply norms_for_none.
  - simpl. intros H0.
    pose proof (norm2_sqr [1; 2]) as Hsq. unfold nominal_values in H0.
    simpl in H0. rewrite H0 in Hsq. simpl in Hsq.
    rewrite !Rsum_cons, Rsum_nil in Hsq. lra.
  - simpl. intros H0.
    pose proof (norm2_sqr [1]) as Hsq. unfold nominal_values in H0.
    simpl in H0. rewrite H0 in Hsq. simpl in Hsq.
    rewrite !Rsum_cons, Rsum_nil in Hsq. lra.
  - intros H. discriminate H.
Defined.

Lemma array_div_zero (v : list UFloat) (y : UFloat) :
  v <> [] -> nominal_value y = 0 ->
  array_div v (Some y) = Raise ZeroDivisionError.
Proof.
  intros Hv Hy. destruct v as [|x v]; [contradiction|].
  unfold array_div. simpl. unfold udiv.
  destruct (Req_dec_T (nominal_value y) 0); [reflexivity|contradiction].
Qed.

(** A non-empty vector whose nominal values are all zero has norm zero, and
    the normalization raises [ZeroDivisionError] when no norms are
    supplied. *)
Theorem zero_vector_raises (a b : list UFloat) (fa fe : option string)
  (unc : string) (s : nat) :
  (a <> [] /\ norm2 (nominal_values a) = 0)
  \/ (norm2 (nominal_values a) <> 0
      /\ b <> [] /\ norm2 (nominal_values b) = 0) ->
  (unc = "automatic" -> fa <> None /\ fe <> None) ->
  Engine.calculate_E_from_sensitivity_vecs a b fa fe unc None None s
  = Raise ZeroDivisionError.
Proof.
  intros Hzero Hfiles.
  assert (Hdiv :
    (x <~ array_div a (Some (norm_value a)) ;;
     y <~ array_div b (Some (norm_value b)) ;; Ok (x, y))
    = Raise ZeroDivisionError).
  { destruct Hzero as [[Ha H0]|[Hna [Hb H0]]].
    - now rewrite (array_div_zero a (norm_value a) Ha H0).
    - rewrite (array_div_ok a (norm_value a) Hna). simpl.
      now rewrite (array_div_zero b (norm_value b) Hb H0). }
  unfold Engine.calculate_E_from_sensitivity_vecs.
  destruct (String.eqb unc "automatic") eqn:Hunc.
  - apply String.eqb_eq in Hunc. destruct (Hfiles Hunc) as [Hfa Hfe].
    destruct fa as [fa|]; [|contradiction].
    destruct fe as [fe|]; [|contradiction]. simpl.
    unfold bind, lift. rewrite norms_for_none.
    destruct (array_div a (Some (norm_value a))) as [ua|e]; simpl in Hdiv.
    + destruct (array_div b (Some (norm_value b))) as [ub|e]; simpl in Hdiv;
        [discriminate|congruence].
    + congruence.
  - unfold bind, lift. rewrite norms_for_none.
    destruct (array_div a (Some (norm_value a))) as [ua|e]; simpl in Hdiv.
    + destruct (array_div b (Some (norm_value b))) as [ub|e]; simpl in Hdiv;
        [discriminate|congruence].
    + congruence.
Qed.

Lemma zero_vector_raises_witness :
  Engine.calculate_E_from_sensitivity_vecs
    [uconst 0; uconst 0] [uconst 1; uconst 2] (Some "a.sdf") (Some "e.sdf")
    "automatic" None None 0%nat
  = Raise ZeroDivisionError.
Proof.
  apply zero_vector_raises.
  - left. split; [discriminate|].
    unfold norm2. simpl. rewrite !Rsum_cons, Rsum_nil.
    replace (0 ^ 2 + (0 ^ 2 + 0)) with 0 by ring. apply sqrt_0.
  - intros _. split; discriminate.
Defined.

(** In manual mode the value returned is a new variable of its own: its
    nominal value is the dot product of the vectors divided by the norms in
    use, its standard deviation is the closed-form manual uncertainty, and it
    depends on none of the variables that existed before the call. *)
Theorem manual_mode_result (a b : list UFloat) (fa fe : option string)
  (unc : string) (eno ano : option UFloat) (an en : UFloat) (s : nat) :
  unc <> "automatic" ->
  a <> [] ->
  length a = length b ->
  Engine.norms_for a b eno ano = Ok (Some an, Some en) ->
  nominal_value an <> 0 ->
  nominal_value en <> 0 ->
  exists E s',
    Engine.calculate_E_from_sensitivity_vecs a b fa fe unc eno ano s
    = Ok (E, s')
    /\ nominal_value E
       = scaled_dot (nominal_values a) (nominal_values b)
                    (nominal_value an) (nominal_value en)
    /\ std_dev E
       = manual_uncertainty a b (nominal_value an) (nominal_value en)
    /\ (forall t, (t < s)%nat -> derivative E t = 0).
Proof.
  intros Hunc Hne Hlen Hnorms Han Hen.
  eexists. eexists. split.
  - apply (calculate_E_manual_run a b fa fe unc eno ano an en s); assumption.
  - split; [reflexivity|]. split.
    + apply std_dev_variable, manual_uncertainty_nonneg.
    + intros t Ht. unfold derivative. simpl.
      destruct (Nat.eqb (s + length a + length b) t) eqn:E; [|reflexivity].
      apply Nat.eqb_eq in E. lia.
Qed.

Lemma manual_mode_result_witness :
  exists E s',
    Engine.calculate_E_from_sensitivity_vecs
      (fresh_variables 0 [(2, 1)]) (fresh_variables 1 [(2, 1)])
      None None "manual" (Some (uconst 4)) (Some (uconst 4)) 2%nat
    = Ok (E, s')
    /\ std_dev E = 0.
Proof.
  destruct (manual_mode_result
              (fresh_variables 0 [(2, 1)]) (fresh_variables 1 [(2, 1)])
              None None "manual" (Some (uconst 4)) (Some (uconst 4))
              (uconst 4) (uconst 4) 2%nat)
    as [E [s' [Hrun [_ [Hs _]]]]].
  - discriminate.
  - discriminate.
  - reflexivity.
  - reflexivity.
  - simpl. lra.
  - simpl. lra.
  - exists E, s'. split; [exact Hrun|].
    rewrite Hs. apply manual_uncertainty_single.
Defined.

(** The nominal value does not depend on the mode. *)
Theorem nominal_value_mode_independent (a b : list UFloat) (fa fe : string)
  (eno ano : option UFloat) (an en : UFloat) (s1 s2 : nat) :
  a <> [] ->
  length a = length b ->
  Engine.norms_for a b eno ano = Ok (Some an, Some en) ->
  nominal_value an <> 0 ->
  nominal_value en <> 0 ->
  exists E1 s1' E2 s2',
    Engine.calculate_E_from_sensitivity_vecs a b (Some fa) (Some fe)
                                             "automatic" eno ano s1
    = Ok (E1, s1')
    /\ Engine.calculate_E_from_sensitivity_vecs a b (Some fa) (Some fe)
                                                "manual" eno ano s2
       = Ok (E2, s2')
    /\ nominal_value E1 = nominal_value E2.
Proof.
  intros Hne Hlen Hnorms Han Hen.
  destruct (calculate_E_nominal a b (Some fa) (Some fe) "automatic" eno ano
              an en s1 Hne Hlen Hnorms Han Hen) as [E1 [s1' [H1 N1]]];
    [intros _; split; discriminate|].
  destruct (calculate_E_nominal a b (Some fa) (Some fe) "manual" eno ano
              an en s2 Hne Hlen Hnorms Han Hen) as [E2 [s2' [H2 N2]]];
    [intros H; discriminate H|].
  exists E1, s1', E2, s2'. repeat split; try assumption. congruence.
Qed.

Lemma nominal_value_mode_independent_witness :
  exists E1 s1' E2 s2',
    Engine.calculate_E_from_sensitivity_vecs
      (fresh_variables 0 [(2, 1)]) (fresh_variables 1 [(2, 1)])
      (Some "a.sdf") (Some "e.sdf") "automatic"
      (Some (uconst 4)) (Some (uconst 4)) 2%nat
    = Ok (E1, s1')
    /\ Engine.calculate_E_from_sensitivity_vecs
         (fresh_variables 0 [(2, 1)]) (fresh_variables 1 [(2, 1)])
         (Some "a.sdf") (Some "e.sdf") "manual"
         (Some (uconst 4)) (Some (uconst 4)) 2%nat
       = Ok (E2, s2')
    /\ nominal_value E1 = nominal_value E2.
Proof.
  apply (nominal_value_mode_independent
           (fresh_variables 0 [(2, 1)]) (fresh_variables 1 [(2, 1)])
           "a.sdf" "e.sdf" (Some (uconst 4)) (Some (uconst 4))
           (uconst 4) (uconst 4) 2%nat 2%nat).
  - discriminate.
  - reflexivity.
  - reflexivity.
  - simpl. lra.
  - simpl. lra.
Defined.

(** ** Further properties of the nuclide totals *)

Lemma dict_mem_existsb {V : Type} (d : dict V) (k : string) :
  dict_mem d k = existsb (String.eqb k) (dict_keys d).
Proof.
  unfold dict_mem, dict_keys. induction d as [|[k' v] d IH]; simpl.
  - reflexivity.
  - rewrite (String.eqb_sym k k').
    destruct (String.eqb k' k); [reflexivity|exact IH].
Qed.

Lemma dict_keys_set_add {V : Type} (d : dict V) (k : string) (v : V) :
  dict_keys (dict_set d k v) = add_key (dict_keys d) k.
Proof.
  rewrite dict_keys_set, dict_mem_existsb. reflexivity.
Qed.

Lemma add_key_idem (seen : list string) (k : string) :
  add_key (add_key seen k) k = add_key seen k.
Proof.
  unfold add_key. destruct (existsb (String.eqb k) seen) eqn:E.
  - now rewrite E.
  - rewrite existsb_app. simpl.
    rewrite String.eqb_refl, orb_true_r. reflexivity.
Qed.

Lemma accumulate_keys (d d' : dict UFloat) (data : reaction_contribution)
  (s s' : nat) :
  Readers.accumulate d data s = Ok (d', s') ->
  dict_keys d' = add_key (dict_keys d) (rc_isotope data).
Proof.
  unfold Readers.accumulate. intros H.
  apply bind_Ok in H. destruct H as [d1 [s1 [H1 H]]].
  apply bind_Ok in H. destruct H as [total [s2 [_ H]]].
  assert (Hd1 : add_key (dict_keys d1) (rc_isotope data)
                = add_key (dict_keys d) (rc_isotope data)).
  { destruct (negb (dict_mem d (rc_isotope data))).
    - apply bind_Ok in H1. destruct H1 as [z [s3 [_ H1]]].
      apply ret_Ok in H1. destruct H1 as [-> _].
      rewrite dict_keys_set_add. apply add_key_idem.
    - apply ret_Ok in H1. now destruct H1 as [-> _]. }
  destruct (ult0 (rc_contribution data));
    apply ret_Ok in H; destruct H as [-> _];
    now rewrite dict_keys_set_add.
Qed.

Lemma accumulate_all_keys (l : list reaction_contribution)
  (d d' : dict UFloat) (s s' : nat) :
  foldM Readers.accumulate l d s = Ok (d', s') ->
  dict_keys d' = fold_left add_key (map rc_isotope l) (dict_keys d).
Proof.
  revert d s. induction l as [|data l IH]; intros d s H; simpl in H.
  - apply ret_Ok in H. now destruct H as [-> _].
  - apply bind_Ok in H. destruct H as [d1 [s1 [Hacc H]]].
    simpl. rewrite <- (accumulate_keys _ _ _ _ _ Hacc).
    now apply (IH d1 s1).
Qed.

Lemma rmap_ext_in {A B : Type} (f g : A -> result B) (l : list A) :
  (forall a, In a l -> f a = g a) -> rmap f l = rmap g l.
Proof.
  induction l as [|a l IH]; intros H; simpl; [reflexivity|].
  rewrite (H a) by now left.
  destruct (g a); simpl; [|reflexivity].
  rewrite IH; [reflexivity|]. intros b Hb. apply H. now right.
Qed.

Lemma rmap_keys {K A B : Type} (f : A -> result B) (d : list (K * A))
  (d' : list (K * B)) :
  rmap (fun kv => total <~ f (snd kv) ;; Ok (fst kv, total)) d = Ok d' ->
  map fst d' = map fst d.
Proof.
  revert d'. induction d as [|[k a] d IH]; intros d' H; simpl in H.
  - injection H as <-. reflexivity.
  - destruct (f a) as [b|e]; simpl in H; [|discriminate].
    destruct (rmap _ d) as [rest|e] eqn:E; simpl in H; [|discriminate].
    injection H as <-. simpl. f_equal. now apply IH.
Qed.

(** The totals of [read_uncertainty_contributions_sdf] are listed in the
    order in which the isotopes first appear in the table. *)
Theorem sdf_totals_in_order_of_first_appearance
  (application : list reaction_contribution) (s : nat) :
  exists totals s',
    Readers.isotope_totals_sdf application s = Ok (totals, s')
    /\ map nc_isotope totals
       = first_occurrences (map rc_isotope application).
Proof.
  destruct (isotope_totals_sdf_spec application s)
    as [totals [s' [Hrun _]]].
  exists totals, s'. split; [exact Hrun|].
  unfold Readers.isotope_totals_sdf in Hrun.
  apply bind_Ok in Hrun. destruct Hrun as [d [s1 [Hfold Hrun]]].
  apply bind_Ok in Hrun. destruct Hrun as [d' [s2 [Hmap Hrun]]].
  apply lift_Ok in Hmap. destruct Hmap as [Hmap _].
  apply ret_Ok in Hrun. destruct Hrun as [-> _].
  unfold Readers.as_list. rewrite map_map. simpl.
  change (map (fun kv : string * UFloat => fst kv) d') with (map fst d').
  rewrite (rmap_keys _ _ _ Hmap).
  apply (accumulate_all_keys _ _ _ _ _ Hfold).
Qed.

(** When the running sum of every isotope is positive, the two call sites
    return the same totals. *)
Theorem out_and_sdf_agree_on_positive_sums
  (records : list reaction_contribution) (s : nat) :
  (forall iso, In iso (map rc_isotope records) ->
     0 < signed_sum_of_squares (contributions_of iso records)) ->
  Readers.isotope_totals_out records s = Readers.isotope_totals_sdf records s.
Proof.
  intros Hpos.
  destruct (accumulate_all_tracks records [] [] s totals_track_empty)
    as [d [s' [Hfold [Hnd Hget]]]].
  simpl in Hget.
  unfold Readers.isotope_totals_out, Readers.isotope_totals_sdf, bind, lift.
  rewrite Hfold.
  rewrite (rmap_ext_in
             (fun kv => total <~ upow_half (snd kv) ;; Ok (fst kv, total))
             (fun kv => total <~ Readers.signed_root (snd kv) ;;
                        Ok (fst kv, total))); [reflexivity|].
  intros [k t] Hin. simpl.
  specialize (Hget k). rewrite (dict_get_In d k t Hnd Hin) in Hget.
  destruct Hget as [Hk Hn]. specialize (Hpos k Hk).
  unfold Readers.signed_root, ugt0.
  destruct (Rlt_dec 0 (nominal_value t)); [reflexivity|lra].
Qed.

Lemma out_and_sdf_agree_on_positive_sums_witness :
  Readers.isotope_totals_out
    [{| rc_isotope := "u-235 - u-235";
        rc_reaction_type := "fission - fission";
        rc_contribution := uconst 3 |}] 0%nat
  = Readers.isotope_totals_sdf
      [{| rc_isotope := "u-235 - u-235";
          rc_reaction_type := "fission - fission";
          rc_contribution := uconst 3 |}] 0%nat.
Proof.
  apply out_and_sdf_agree_on_positive_sums.
  intros iso [<-|[]]. unfold contributions_of, signed_sum_of_squares. simpl.
  destruct (Rlt_dec 3 0); lra.
Defined.

(** [read_uncertainty_contributions_out] returns totals exactly when no
    running sum is negative: it raises [ValueError] if the sum of some
    isotope is negative, and otherwise gives each isotope the square root of
    its sum. *)
Theorem out_totals_defined_iff_no_negative_sum
  (records : list reaction_contribution) (s : nat) :
  ((exists iso, signed_sum_of_squares (contributions_of iso records) < 0) ->
   Readers.isotope_totals_out records s = Raise ValueError)
  /\ ((forall iso, 0 <= signed_sum_of_squares (contributions_of iso records)) ->
      exists totals s',
        Readers.isotope_totals_out records s = Ok (totals, s')
        /\ map nc_isotope totals = first_occurrences (map rc_isotope records)
        /\ forall e, In e totals ->
             nominal_value (nc_contribution e)
             = sqrt (signed_sum_of_squares
                       (contributions_of (nc_isotope e) records))).
Proof.
  split.
  - intros [iso Hneg]. now apply (isotope_totals_out_negative records iso).
  - intros Hnonneg.
    destruct (accumulate_all_tracks records [] [] s totals_track_empty)
      as [d [s' [Hfold [Hnd Hget]]]].
    simpl in Hget.
    assert (Hroot : forall kv, In kv d ->
              (total <~ upow_half (snd kv) ;; Ok (fst kv, total))
              = Ok (fst kv,
                    affine1 (sqrt (nominal_value (snd kv)))
                            (0.5 / sqrt (nominal_value (snd kv))) (snd kv))).
    { intros [k t] Hin. simpl.
      specialize (Hget k). rewrite (dict_get_In d k t Hnd Hin) in Hget.
      destruct Hget as [_ Hn]. specialize (Hnonneg k).
      unfold upow_half.
      destruct (Rlt_dec (nominal_value t) 0); [lra|reflexivity]. }
    unfold Readers.isotope_totals_out, bind, lift. rewrite Hfold.
    rewrite (rmap_ok _ _ _ Hroot). unfold ret.
    eexists. eexists. split; [reflexivity|]. split.
    + unfold Readers.as_list. rewrite !map_map. simpl.
      change (map (fun kv : string * UFloat => fst kv) d) with (dict_keys d).
      apply (accumulate_all_keys _ _ _ _ _ Hfold).
    + intros e He. unfold Readers.as_list in He.
      apply in_map_iff in He. destruct He as [[k r] [<- Hin]].
      apply in_map_iff in Hin. destruct Hin as [[k0 t] [Heq Hin]].
      simpl in Heq. injection Heq as <- <-. simpl.
      specialize (Hget k0). rewrite (dict_get_In d k0 t Hnd Hin) in Hget.
      destruct Hget as [_ Hn]. now rewrite Hn.
Qed.

Lemma out_totals_defined_iff_no_negative_sum_witness :
  Readers.isotope_totals_out
    [{| rc_isotope := "u-235 - u-238";
        rc_reaction_type := "n,gamma - elastic";
        rc_contribution := uconst (-4) |}] 0%nat
  = Raise ValueError.
Proof.
  apply (out_totals_defined_iff_no_negative_sum
           [{| rc_isotope := "u-235 - u-238";
               rc_reaction_type := "n,gamma - elastic";
               rc_contribution := uconst (-4) |}] 0%nat).
  exists "u-235 - u-238".
  unfold contributions_of, signed_sum_of_squares. simpl.
  destruct (Rlt_dec (-4) 0); [|lra].
  replace (0 - (-4) ^ 2) with (-16) by ring. lra.
Defined.

(** ** From the list of profiles to the dictionary *)

Lemma lookup2_nest_profile (nf rf : sdf_profile -> string)
  (d : dict (dict sdf_profile)) (p : sdf_profile) (nuclide reaction : string) :
  lookup2 (nest_profile nf rf d p) nuclide reaction
  = if String.eqb (nf p) nuclide && String.eqb (rf p) reaction
    then Some p else lookup2 d nuclide reaction.
Proof.
  unfold lookup2, nest_profile.
  destruct (String.eqb (nf p) nuclide) eqn:En.
  - apply String.eqb_eq in En. subst nuclide. rewrite dict_get_set_same.
    destruct (String.eqb (rf p) reaction) eqn:Er; simpl.
    + apply String.eqb_eq in Er. subst reaction. apply dict_get_set_same.
    + apply String.eqb_neq in Er. rewrite dict_get_set_other by exact Er.
      now destruct (dict_get d (nf p)).
  - apply String.eqb_neq in En. simpl.
    now rewrite dict_get_set_other by exact En.
Qed.

Lemma lookup2_fold_nest (nf rf : sdf_profile -> string)
  (profiles : list sdf_profile) (d : dict (dict sdf_profile))
  (nuclide reaction : string) :
  lookup2 (fold_left (nest_profile nf rf) profiles d) nuclide reaction
  = fold_left (fun found p =>
                 if String.eqb (nf p) nuclide && String.eqb (rf p) reaction
                 then Some p else found)
              profiles (lookup2 d nuclide reaction).
Proof.
  revert d. induction profiles as [|p l IH]; intros d; simpl.
  - reflexivity.
  - now rewrite IH, lookup2_nest_profile.
Qed.

Lemma dict_keys_nest_profile (nf rf : sdf_profile -> string)
  (d : dict (dict sdf_profile)) (p : sdf_profile) :
  dict_keys (nest_profile nf rf d p) = add_key (dict_keys d) (nf p).
Proof. unfold nest_profile. apply dict_keys_set_add. Qed.

Lemma dict_keys_fold_nest (nf rf : sdf_profile -> string)
  (profiles : list sdf_profile) (d : dict (dict sdf_profile)) :
  dict_keys (fold_left (nest_profile nf rf) profiles d)
  = fold_left add_key (map nf profiles) (dict_keys d).
Proof.
  revert d. induction profiles as [|p l IH]; intros d; simpl.
  - reflexivity.
  - now rewrite IH, dict_keys_nest_profile.
Qed.

Lemma last_matching_snoc (nf rf : sdf_profile -> string)
  (nuclide reaction : string) (l : list sdf_profile) (p : sdf_profile) :
  last_matching nf rf nuclide reaction (l ++ [p])
  = if String.eqb (nf p) nuclide && String.eqb (rf p) reaction
    then Some p else last_matching nf rf nuclide reaction l.
Proof.
  unfold last_matching. now rewrite fold_left_app.
Qed.

Lemma last_matching_unique (nf rf : sdf_profile -> string)
  (l : list sdf_profile) (p : sdf_profile) :
  NoDup (map (fun q => (nf q, rf q)) l) ->
  In p l ->
  last_matching nf rf (nf p) (rf p) l = Some p.
Proof.
  induction l as [|q l IH] using rev_ind; intros Hnd Hin.
  - contradiction.
  - rewrite last_matching_snoc.
    rewrite map_app in Hnd. simpl in Hnd.
    apply NoDup_remove in Hnd. rewrite app_nil_r in Hnd.
    destruct Hnd as [Hnd Hnotin].
    apply in_app_or in Hin. destruct Hin as [Hin|[<-|[]]].
    + destruct (String.eqb (nf q) (nf p) && String.eqb (rf q) (rf p)) eqn:E.
      * apply andb_prop in E. destruct E as [E1 E2].
        apply String.eqb_eq in E1. apply String.eqb_eq in E2.
        exfalso. apply Hnotin. apply in_map_iff. exists p.
        split; [now rewrite E1, E2|exact Hin].
      * now apply IH.
    + now rewrite !String.eqb_refl.
Qed.

(** [convert_to_dict]: the nuclides are the keys of the outer dictionary in
    order of first appearance; looking up a nuclide and a reaction gives the
    last profile of the list with that pair, the earlier ones being
    overwritten; and when the pairs are all different every profile of the
    list is found again under its own pair. *)
Theorem convert_to_dict_lookup (nf rf : sdf_profile -> string)
  (profiles : list sdf_profile) :
  dict_keys (nest_profiles nf rf profiles)
  = first_occurrences (map nf profiles)
  /\ (forall nuclide reaction,
        lookup2 (nest_profiles nf rf profiles) nuclide reaction
        = last_matching nf rf nuclide reaction profiles)
  /\ (NoDup (map (fun q => (nf q, rf q)) profiles) ->
      forall p, In p profiles ->
        lookup2 (nest_profiles nf rf profiles) (nf p) (rf p) = Some p).
Proof.
  unfold nest_profiles. split; [|split].
  - apply dict_keys_fold_nest.
  - intros nuclide reaction. apply lookup2_fold_nest.
  - intros Hnd p Hin. rewrite lookup2_fold_nest.
    now apply last_matching_unique.
Qed.

Lemma convert_to_dict_lookup_witness :
  lookup2 (nest_profiles isotope reaction_type
             [example_profile "u-235" "fission" 1 0;
              example_profile "u-235" "capture" 2 3])
          "u-235" "capture"
  = Some (example_profile "u-235" "capture" 2 3).
Proof.
  destruct (convert_to_dict_lookup isotope reaction_type
              [example_profile "u-235" "fission" 1 0;
               example_profile "u-235" "capture" 2 3]) as [_ [_ H]].
  apply (H (ltac:(simpl; repeat constructor; simpl; intuition discriminate))
           (example_profile "u-235" "capture" 2 3)).
  right. now left.
Defined.

(** In [readers.py] a reader that holds a dictionary is returned unchanged,
    whatever the key asked for: converting twice is converting once, and a
    later request for the other key is ignored. *)
Theorem readers_convert_to_dict_idempotent (r r' : reader) (key key' : string) :
  Readers.convert_to_dict r key = Ok r' ->
  Readers.convert_to_dict r' key' = Ok r'.
Proof.
  unfold Readers.convert_to_dict.
  destruct (sdf_data r) as [profiles|d] eqn:Er.
  - destruct (String.eqb key "names").
    + intros H. injection H as <-. reflexivity.
    + destruct (String.eqb key "numbers").
      * intros H. injection H as <-. reflexivity.
      * destruct profiles; [|discriminate].
        intros H. injection H as <-. reflexivity.
  - intros H. injection H as <-. now rewrite Er.
Qed.

Lemma readers_convert_to_dict_idempotent_witness :
  Readers.convert_to_dict
    (set_sdf_data (example_reader "app.sdf" "u-235" 0)
       (nest_profiles isotope reaction_type
          [example_profile "u-235" "fission" 1 0]))
    "numbers"
  = Ok (set_sdf_data (example_reader "app.sdf" "u-235" 0)
          (nest_profiles isotope reaction_type
             [example_profile "u-235" "fission" 1 0])).
Proof.
  apply (readers_convert_to_dict_idempotent
           (example_reader "app.sdf" "u-235" 0) _ "names" "numbers").
  reflexivity.
Defined.

(** ** A reader used twice by the decomposition of [tsunami_ip_utils.py] *)

Section SharedReaders.

Variable parse_sdf : string -> result parsed_sdf.
Variable set_order : list string -> list string.

Lemma decomposition_needs_list (application experiment : reader)
  (entry : string * dict sdf_profile) (rest : dict (dict sdf_profile))
  (s : nat) :
  sdf_data application = SdfDict (entry :: rest) ->
  exists e,
    Legacy.get_nuclide_and_reaction_wise_E_contributions
      parse_sdf set_order application experiment s = Raise e.
Proof.
  intros Hdict.
  destruct (Legacy.get_nuclide_and_reaction_wise_E_contributions
              parse_sdf set_order application experiment s)
    as [[[[nw nrw] [app' exp']] s']|e] eqn:Hrun.
  - destruct (decomposition_run _ _ _ _ _ _ _ _ _ _ Hrun)
      as [A [E [first [by_reaction [an [en [s1 [s2 H]]]]]]]].
    destruct H as [_ [_ [HA _]]].
    unfold Legacy.convert_to_dict in HA. rewrite Hdict in HA. discriminate HA.
  - now exists e.
Qed.

Lemma decomposition_leaves_dict (application experiment : reader) (s : nat)
  (nw : list nuclide_contribution) (nrw : list reaction_contribution)
  (app' exp' : reader) (s' : nat) :
  Legacy.get_nuclide_and_reaction_wise_E_contributions
    parse_sdf set_order application experiment s
  = Ok (((nw, nrw), (app', exp')), s') ->
  exists entry rest, sdf_data app' = SdfDict (entry :: rest).
Proof.
  intros Hrun.
  destruct (decomposition_run _ _ _ _ _ _ _ _ _ _ Hrun)
    as [A [E [first [by_reaction [an [en [s1 [s2 H]]]]]]]].
  destruct H as [HA [_ [_ [_ [Hfirst _]]]]].
  destruct A as [|entry rest]; [discriminate Hfirst|].
  now exists entry, rest.
Qed.

Lemma contributions_row_first (experiment application : reader)
  (applications : list reader) (s : nat) row experiment' applications' s' :
  Legacy.contributions_row parse_sdf set_order experiment
                           (application :: applications) s
  = Ok ((row, (experiment', applications')), s') ->
  exists application' rest entry d,
    applications' = application' :: rest
    /\ sdf_data application' = SdfDict (entry :: d).
Proof.
  simpl. intros H.
  apply bind_Ok in H.
  destruct H as [[[nw nrw] [app1 exp1]] [s1 [Hfirst H]]].
  apply bind_Ok in H.
  destruct H as [[row1 [exp2 apps2]] [s2 [_ H]]].
  apply ret_Ok in H. destruct H as [Heq _].
  injection Heq as _ _ ->.
  destruct (decomposition_leaves_dict _ _ _ _ _ _ _ _ Hfirst)
    as [entry [d Hd]].
  now exists app1, apps2, entry, d.
Qed.

Lemma contributions_rows_second_pass (experiment1 experiment2 : reader)
  (experiments : list reader) (application : reader)
  (applications : list reader) (s : nat) :
  exists e,
    Legacy.contributions_rows parse_sdf set_order
      (experiment1 :: experiment2 :: experiments)
      (application :: applications) s
    = Raise e.
Proof.
  cbn [Legacy.contributions_rows]. unfold bind at 1.
  destruct (Legacy.contributions_row parse_sdf set_order experiment1
              (application :: applications) s)
    as [[[row [exp' apps']] s1]|e] eqn:Hrow; [|now exists e].
  destruct (contributions_row_first _ _ _ _ _ _ _ _ Hrow)
    as [app1 [rest [entry [d [-> Hd]]]]].
  unfold bind at 1. unfold bind at 1. cbn [Legacy.contributions_row].
  unfold bind at 1.
  destruct (decomposition_needs_list app1 experiment2 entry d s1 Hd)
    as [e He].
  rewrite He. now exists e.
Qed.

Lemma mapM_length {A B : Type} (f : A -> M B) (l : list A) (s : nat)
  (bs : list B) (s' : nat) :
  mapM f l s = Ok (bs, s') -> length bs = length l.
Proof.
  revert s bs s'. induction l as [|a l IH]; intros s bs s' H; simpl in H.
  - apply ret_Ok in H. now destruct H as [-> _].
  - apply bind_Ok in H. destruct H as [b [s1 [_ H]]].
    apply bind_Ok in H. destruct H as [bs' [s2 [Hbs H]]].
    apply ret_Ok in H. destruct H as [-> _]. simpl. f_equal.
    now apply (IH s1 bs' s2).
Qed.

(** [calculate_E_contributions] of [tsunami_ip_utils.py] keeps one reader for
    each file and passes it to the decomposition once for every file of the
    other list.  The decomposition replaces the reader's list of profiles by
    a dictionary, and [convert_to_dict] cannot take a dictionary: with two
    or more experiments and at least one application the call never
    returns. *)
Theorem calculate_E_contributions_reuses_readers
  (application_filenames experiment_filenames : list string) (s : nat) :
  application_filenames <> [] ->
  (2 <= length experiment_filenames)%nat ->
  exists e,
    Legacy.calculate_E_contributions parse_sdf set_order
      application_filenames experiment_filenames s
    = Raise e.
Proof.
  intros Happ Hexp. unfold Legacy.calculate_E_contributions, bind.
  destruct (mapM (Legacy.RegionIntegratedSdfReader parse_sdf)
                 application_filenames s)
    as [[apps s1]|e] eqn:Ha; [|now exists e].
  destruct (mapM (Legacy.RegionIntegratedSdfReader parse_sdf)
                 experiment_filenames s1)
    as [[exps s2]|e] eqn:He; [|now exists e].
  apply mapM_length in Ha. apply mapM_length in He.
  destruct application_filenames as [|fa fas]; [contradiction|].
  destruct apps as [|a apps]; [discriminate Ha|].
  destruct exps as [|e1 [|e2 exps]]; simpl in *; try lia.
  apply contributions_rows_second_pass.
Qed.

End SharedReaders.

Lemma calculate_E_contributions_reuses_readers_witness :
  exists e,
    Legacy.calculate_E_contributions example_files (fun l => l)
      ["app.sdf"] ["exp.sdf"; "exp.sdf"] 0%nat
    = Raise e.
Proof.
  apply calculate_E_contributions_reuses_readers.
  - discriminate.
  - simpl. lia.
Defined.

(** ** Further properties of the readers *)

Section ReadersFiles.

Variable parse_sdf : string -> result parsed_sdf.


End ReadersFiles.

Lemma readers_example_reader_built (filename iso : string) (s : nat) :
  example_files filename
  = Ok {| num_groups := 1; parsed_energy_boundaries := [20; 0];
          parsed_matches := [example_match iso "fission" 1] |} ->
  Readers.RegionIntegratedSdfReader example_files filename s
  = Ok (example_reader filename iso s, (s + 3)%nat).
Proof.
  intros Hfile.
  unfold Readers.RegionIntegratedSdfReader, Readers.region_integrated_sdf_data,
    Readers._read_sdf, Readers.sdf_profiles, to_profile, uarray.
  unfold bind at 1. unfold bind at 1. unfold bind at 1. unfold lift at 1.
  rewrite Hfile. run_monad.
  replace (s + 3)%nat with (S (S (S s))) by lia. reflexivity.
Qed.


Lemma broadcast_mismatch {A B : Type} (a : list A) (b : list B) :
  length a <> length b -> length a <> 1%nat -> length b <> 1%nat ->
  broadcast a b = Raise ValueError.
Proof.
  intros Hab Ha Hb. unfold broadcast.
  apply Nat.eqb_neq in Hab. rewrite Hab.
  destruct a as [|x [|x' a]]; destruct b as [|y [|y' b]]; simpl in *;
    try reflexivity; try lia.
Qed.

Lemma broadcast_scalar_right {A B : Type} (a : list A) (y : B) :
  length a <> 1%nat -> broadcast a [y] = Ok (map (fun x => (x, y)) a).
Proof.
  intros Ha. unfold broadcast.
  apply Nat.eqb_neq in Ha. simpl. rewrite Ha.
  destruct a as [|x [|x' a]]; reflexivity.
Qed.

Lemma singleton_nth {A : Type} (l : list A) (d : A) :
  length l = 1%nat -> l = [nth 0 l d].
Proof.
  destruct l as [|x [|y l]]; simpl; intros H; try discriminate. reflexivity.
Qed.

Lemma map_constant_repeat {A B : Type} (l : list A) (y : B) :
  map (fun _ => y) l = repeat y (length l).
Proof.
  induction l as [|x l IH]; simpl; [reflexivity|now rewrite IH].
Qed.

(** A data block whose length is not twice the number of groups [N >= 2]:
    with [N + 1] numbers the file is accepted and the last number becomes
    the uncertainty of all [N] groups (numpy broadcasting); with more than
    [N + 1] numbers, other than [2 N], the construction of the array raises
    [ValueError]. *)
Theorem data_block_of_wrong_length (N : nat) (m : sdf_match) (s : nat) :
  (2 <= N)%nat ->
  let halves := Readers.split_data_block N (m_data_block m) in
  (length (m_data_block m) = S N ->
   0 <= nth N (m_data_block m) 0 ->
   0 <= snd (m_energy_integrated_sensitivity m) ->
   0 <= snd (m_sum_opposite_sign_groupwise_sensitivities m) ->
   exists p s',
     to_profile m (fst halves) (snd halves) s = Ok (p, s')
     /\ nominal_values (sensitivities p) = rev (firstn N (m_data_block m))
     /\ std_devs (sensitivities p) = repeat (nth N (m_data_block m) 0) N)
  /\ ((S N < length (m_data_block m))%nat ->
      length (m_data_block m) <> (2 * N)%nat ->
      to_profile m (fst halves) (snd halves) s = Raise ValueError).
Proof.
  intros HN halves. unfold halves, Readers.split_data_block. cbn [fst snd].
  set (block := m_data_block m). split.
  - intros HL Hlast Heis Hsos.
    assert (Hunc : rev (skipn N block) = [nth N block 0]).
    { rewrite (singleton_nth (rev (skipn N block)) 0)
        by (rewrite length_rev, length_skipn; lia).
      rewrite rev_nth by (rewrite length_skipn; lia).
      rewrite length_skipn, nth_skipn. do 2 f_equal. lia. }
    assert (Hl1 : length (rev (firstn N block)) = N)
      by (rewrite length_rev, length_firstn; lia).
    rewrite Hunc. unfold to_profile, uarray.
    unfold bind at 1. unfold bind at 1. unfold lift.
    rewrite broadcast_scalar_right by lia.
    rewrite mapM_ufloat_ok
      by (apply Forall_forall; intros p Hp; apply in_map_iff in Hp;
          destruct Hp as [x [<- _]]; exact Hlast).
    unfold bind. rewrite !ufloat_ok by assumption. unfold ret.
    eexists. eexists. split; [reflexivity|]. simpl. split.
    + rewrite nominal_values_fresh, map_map. simpl. apply map_id.
    + rewrite std_devs_fresh
        by (apply Forall_forall; intros p Hp; apply in_map_iff in Hp;
            destruct Hp as [x [<- _]]; exact Hlast).
      rewrite map_map. simpl.
      rewrite (map_constant_repeat _ (nth N block 0)). now rewrite Hl1.
  - intros HL H2N. unfold to_profile, uarray.
    unfold bind at 1. unfold bind at 1. unfold lift.
    rewrite broadcast_mismatch; [reflexivity| | |];
      rewrite !length_rev, ?length_firstn, ?length_skipn; lia.
Qed.

Lemma data_block_of_wrong_length_witness :
  to_profile
    {| m_isotope := "u-235"; m_reaction_type := "fission";
       m_zaid := "92235"; m_reaction_mt := "18";
       m_zone_number := 0; m_zone_volume := 0;
       m_energy_integrated_sensitivity := (3, 0);
       m_abs_sum_groupwise_sensitivities := 3;
       m_sum_opposite_sign_groupwise_sensitivities := (0, 0);
       m_data_block := [1; 2; 3; 4; 5] |}
    (fst (Readers.split_data_block 2 [1; 2; 3; 4; 5]))
    (snd (Readers.split_data_block 2 [1; 2; 3; 4; 5])) 0%nat
  = Raise ValueError.
Proof.
  apply (data_block_of_wrong_length 2
           {| m_isotope := "u-235"; m_reaction_type := "fission";
              m_zaid := "92235"; m_reaction_mt := "18";
              m_zone_number := 0; m_zone_volume := 0;
              m_energy_integrated_sensitivity := (3, 0);
              m_abs_sum_groupwise_sensitivities := 3;
              m_sum_opposite_sign_groupwise_sensitivities := (0, 0);
              m_data_block := [1; 2; 3; 4; 5] |} 0%nat).
  - lia.
  - simpl. lia.
  - simpl. lia.
Defined.

Lemma mapM_ufloat_negative (ps : list (R * R)) (s : nat) :
  Exists (fun p => snd p < 0) ps ->
  mapM (fun p => ufloat (fst p) (snd p)) ps s = Raise NegativeStdDev.
Proof.
  intros H. revert s. induction H as [p ps Hp|p ps _ IH]; intros s; simpl.
  - unfold bind. now rewrite ufloat_negative.
  - unfold bind. destruct (Rlt_dec (snd p) 0) as [Hneg|Hpos].
    + now rewrite ufloat_negative.
    + rewrite ufloat_ok by lra. now rewrite IH.
Qed.

(** A negative uncertainty in a data block of [2 N] numbers makes the
    reading of the file raise [NegativeStdDev]. *)
Theorem negative_uncertainty_raises (N : nat) (m : sdf_match) (s : nat) :
  length (m_data_block m) = (2 * N)%nat ->
  Exists (fun sd => sd < 0) (skipn N (m_data_block m)) ->
  to_profile m (fst (Readers.split_data_block N (m_data_block m)))
               (snd (Readers.split_data_block N (m_data_block m))) s
  = Raise NegativeStdDev.
Proof.
  intros Hlen Hneg. unfold Readers.split_data_block. cbn [fst snd].
  unfold to_profile, uarray. unfold bind at 1. unfold bind at 1. unfold lift.
  rewrite broadcast_same_length
    by (rewrite !length_rev, length_firstn, length_skipn; lia).
  rewrite mapM_ufloat_negative; [reflexivity|].
  apply Exists_exists in Hneg. destruct Hneg as [sd [Hin Hsd]].
  apply Exists_exists.
  assert (Hin' : In sd (rev (skipn N (m_data_block m))))
    by now apply in_rev in Hin.
  apply (In_nth _ _ 0) in Hin'. destruct Hin' as [i [Hi Hnth]].
  exists (nth i (rev (firstn N (m_data_block m))) 0, sd). split.
  - rewrite <- Hnth, <- combine_nth
      by (rewrite !length_rev, length_firstn, length_skipn; lia).
    apply nth_In. rewrite length_combine, !length_rev, length_firstn,
      length_skipn in *. lia.
  - exact Hsd.
Qed.

Lemma negative_uncertainty_raises_witness :
  to_profile
    {| m_isotope := "u-235"; m_reaction_type := "fission";
       m_zaid := "92235"; m_reaction_mt := "18";
       m_zone_number := 0; m_zone_volume := 0;
       m_energy_integrated_sensitivity := (3, 0);
       m_abs_sum_groupwise_sensitivities := 3;
       m_sum_opposite_sign_groupwise_sensitivities := (0, 0);
       m_data_block := [1; 2; 0; -1] |}
    (fst (Readers.split_data_block 2 [1; 2; 0; -1]))
    (snd (Readers.split_data_block 2 [1; 2; 0; -1])) 0%nat
  = Raise NegativeStdDev.
Proof.
  apply (negative_uncertainty_raises 2
           {| m_isotope := "u-235"; m_reaction_type := "fission";
              m_zaid := "92235"; m_reaction_mt := "18";
              m_zone_number := 0; m_zone_volume := 0;
              m_energy_integrated_sensitivity := (3, 0);
              m_abs_sum_groupwise_sensitivities := 3;
              m_sum_opposite_sign_groupwise_sensitivities := (0, 0);
              m_data_block := [1; 2; 0; -1] |} 0%nat).
  - reflexivity.
  - simpl. right. left. lra.
Defined.

(** ** The variance of a linear combination *)

Lemma Rsum_Permutation (l l' : list R) : Permutation l l' -> Rsum l = Rsum l'.
Proof.
  induction 1 as [|x l l' _ IH|x y l|l l' l'' _ IH1 _ IH2].
  - reflexivity.
  - rewrite !Rsum_cons, IH. reflexivity.
  - rewrite !Rsum_cons. lra.
  - congruence.
Qed.

Lemma Rsum_filter_split {A : Type} (g : A -> R) (p : A -> bool) (l : list A) :
  Rsum (map g l)
  = Rsum (map g (filter p l)) + Rsum (map g (filter (fun a => negb (p a)) l)).
Proof.
  induction l as [|a l IH]; simpl.
  - rewrite Rsum_nil. lra.
  - destruct (p a); simpl; rewrite !Rsum_cons, IH; lra.
Qed.

Lemma derivative_in_absent (l : list (R * UVariable)) (t : nat) :
  ~ In t (map (fun cv => tag (snd cv)) l) -> derivative_in l t = 0.
Proof.
  induction l as [|[c v] l IH]; simpl; intros H; [reflexivity|].
  destruct (Nat.eqb (tag v) t) eqn:E.
  - apply Nat.eqb_eq in E. exfalso. apply H. now left.
  - apply IH. intros Hin. apply H. now right.
Qed.

Lemma existsb_tag_In (t : nat) (seen : list nat) :
  existsb (Nat.eqb t) seen = true <-> In t seen.
Proof.
  rewrite existsb_exists. split.
  - intros [x [Hin E]]. apply Nat.eqb_eq in E. now subst.
  - intros Hin. exists t. split; [exact Hin|apply Nat.eqb_refl].
Qed.

Lemma distinct_variables_from (l : list (R * UVariable)) (seen : list nat)
  (v : UVariable) :
  In v (distinct_variables l seen) ->
  (exists c, In (c, v) l) /\ ~ In (tag v) seen.
Proof.
  revert seen. induction l as [|[c w] l IH]; intros seen H; simpl in H.
  - contradiction.
  - destruct (existsb (Nat.eqb (tag w)) seen) eqn:E.
    + destruct (IH seen H) as [[c0 Hc0] Hns]. split; [|exact Hns].
      exists c0. now right.
    + destruct H as [<-|H].
      * split; [exists c; now left|].
        intros Hin. apply existsb_tag_In in Hin. congruence.
      * destruct (IH (tag w :: seen) H) as [[c0 Hc0] Hns]. split.
        -- exists c0. now right.
        -- intros Hin. apply Hns. now right.
Qed.

Lemma distinct_variables_NoDup (l : list (R * UVariable)) (seen : list nat) :
  NoDup (map tag (distinct_variables l seen)).
Proof.
  revert seen. induction l as [|[c w] l IH]; intros seen; simpl.
  - constructor.
  - destruct (existsb (Nat.eqb (tag w)) seen); [apply IH|].
    simpl. constructor; [|apply IH].
    intros Hin. apply in_map_iff in Hin. destruct Hin as [v [Htag Hv]].
    apply distinct_variables_from in Hv. destruct Hv as [_ Hns].
    apply Hns. left. now symmetry.
Qed.

Lemma distinct_variables_cover (l : list (R * UVariable)) (seen : list nat)
  (c : R) (v : UVariable) :
  In (c, v) l ->
  In (tag v) seen \/ In (tag v) (map tag (distinct_variables l seen)).
Proof.
  revert seen. induction l as [|[c0 w] l IH]; intros seen H; simpl in *.
  - contradiction.
  - destruct H as [Heq|H].
    + injection Heq as -> ->.
      destruct (existsb (Nat.eqb (tag v)) seen) eqn:E.
      * left. now apply existsb_tag_In.
      * right. now left.
    + destruct (existsb (Nat.eqb (tag w)) seen) eqn:E.
      * now apply IH.
      * destruct (IH (tag w :: seen) H) as [[Hw|Hs]|Hd].
        -- right. left. exact Hw.
        -- now left.
        -- right. now right.
Qed.

Lemma NoDup_tags_injective (vs : list UVariable) (v w : UVariable) :
  NoDup (map tag vs) -> In v vs -> In w vs -> tag v = tag w -> v = w.
Proof.
  induction vs as [|u vs IH]; simpl; intros Hnd Hv Hw Htag; [contradiction|].
  inversion Hnd as [|? ? Hnotin Hnd']; subst.
  destruct Hv as [<-|Hv]; destruct Hw as [<-|Hw]; try reflexivity.
  - exfalso. apply Hnotin. rewrite Htag. now apply in_map.
  - exfalso. apply Hnotin. rewrite <- Htag. now apply in_map.
  - now apply IH.
Qed.

(** The standard deviation as a sum over any list of distinct variables that
    holds those of the number. *)
Lemma std_dev_over_variables (vs : list UVariable) (x : UFloat) :
  NoDup (map tag vs) ->
  variables_among vs x ->
  std_dev x
  = sqrt (Rsum (map (fun v => (derivative x (tag v) * var_std_dev v) ^ 2) vs)).
Proof.
  intros Hnd Hamong. unfold std_dev, error_components. rewrite map_map.
  set (g := fun v => (derivative x (tag v) * var_std_dev v) ^ 2).
  set (D := distinct_variables (linear_part x) []).
  rewrite (Rsum_map_ext _ g) by (intros v _; apply pow2_abs).
  f_equal.
  set (inD := fun v => existsb (Nat.eqb (tag v)) (map tag D)).
  rewrite (Rsum_filter_split g inD vs).
  assert (Hzero : Rsum (map g (filter (fun a => negb (inD a)) vs)) = 0).
  { apply Rsum_all_zero, Forall_forall. intros y Hy.
    apply in_map_iff in Hy. destruct Hy as [v [<- Hv]].
    apply filter_In in Hv. destruct Hv as [Hv Hn].
    unfold g, derivative. rewrite derivative_in_absent; [ring|].
    intros Hin. apply in_map_iff in Hin. destruct Hin as [[c w] [Htag Hw]].
    simpl in Htag.
    destruct (distinct_variables_cover _ [] c w Hw) as [[]|Hd].
    apply negb_true_iff in Hn. unfold inD in Hn.
    assert (Ht : existsb (Nat.eqb (tag v)) (map tag D) = true)
      by (apply existsb_tag_In; now rewrite <- Htag).
    congruence. }
  rewrite Hzero, Rplus_0_r.
  apply Rsum_Permutation, Permutation_map.
  apply NoDup_Permutation.
  - apply (NoDup_map_inv tag), distinct_variables_NoDup.
  - apply NoDup_filter, (NoDup_map_inv tag), Hnd.
  - intros v. rewrite filter_In. split.
    + intros Hv. split.
      * destruct (distinct_variables_from _ _ _ Hv) as [[c Hc] _].
        apply (Hamong (c, v) Hc).
      * unfold inD. apply existsb_tag_In. now apply in_map.
    + intros [Hv Hin]. unfold inD in Hin. apply existsb_tag_In in Hin.
      apply in_map_iff in Hin. destruct Hin as [w [Htag Hw]].
      destruct (distinct_variables_from _ _ _ Hw) as [[c Hc] _].
      assert (Hwv : w = v)
        by (apply (NoDup_tags_injective vs); auto; apply (Hamong (c, w) Hc)).
      now subst.
Qed.

(** ** Manual and automatic propagation on independent variables *)

Lemma variables_among_affine2 vs nv dx x dy y :
  variables_among vs x -> variables_among vs y ->
  variables_among vs (affine2 nv dx x dy y).
Proof.
  intros Hx Hy cv Hin. unfold affine2, scale in Hin. simpl in Hin.
  apply in_app_or in Hin. destruct Hin as [Hin|Hin];
    apply in_map_iff in Hin; destruct Hin as [cw [<- Hcw]]; simpl; auto.
Qed.

Lemma variables_among_affine1 vs nv dx x :
  variables_among vs x -> variables_among vs (affine1 nv dx x).
Proof.
  intros Hx cv Hin. unfold affine1, scale in Hin. simpl in Hin.
  apply in_map_iff in Hin. destruct Hin as [cw [<- Hcw]]. simpl. auto.
Qed.

Lemma variables_among_fold_uadd vs (l : list UFloat) (x : UFloat) :
  variables_among vs x -> Forall (variables_among vs) l ->
  variables_among vs (fold_left uadd l x).
Proof.
  intros Hx Hl. revert x Hx. induction Hl as [|y l Hy _ IH]; intros x Hx.
  - exact Hx.
  - simpl. apply IH. now apply variables_among_affine2.
Qed.

Lemma variables_among_np_sum vs (l : list UFloat) :
  Forall (variables_among vs) l -> variables_among vs (np_sum l).
Proof.
  intros Hl. destruct Hl as [|x l Hx Hl]; simpl.
  - intros cv [].
  - now apply variables_among_fold_uadd.
Qed.

Lemma variables_among_norm_value vs (a : list UFloat) :
  Forall (variables_among vs) a -> variables_among vs (norm_value a).
Proof.
  intros Ha. unfold norm_value.
  apply variables_among_affine1, variables_among_np_sum.
  apply Forall_forall. intros y Hy. apply in_map_iff in Hy.
  destruct Hy as [x [<- Hx]]. unfold upow2.
  apply variables_among_affine1. rewrite Forall_forall in Ha. now apply Ha.
Qed.

Lemma variables_among_dot_value vs (a b : list UFloat) :
  Forall (variables_among vs) a -> Forall (variables_among vs) b ->
  variables_among vs (dot_value a b).
Proof.
  intros Ha Hb. unfold dot_value. apply variables_among_np_sum.
  apply Forall_forall. intros z Hz. apply in_map_iff in Hz.
  destruct Hz as [[x y] [<- Hin]]. unfold umul. cbn [fst snd].
  rewrite Forall_forall in Ha, Hb.
  apply variables_among_affine2;
    [apply Ha; eapply in_combine_l; exact Hin
    |apply Hb; eapply in_combine_r; exact Hin].
Qed.

Lemma map_tag_fresh_tags (s : nat) (ps : list (R * R)) :
  map tag (fresh_tags s ps) = seq s (length ps).
Proof.
  revert s. induction ps as [|p ps IH]; intros s; simpl; [|rewrite IH]; easy.
Qed.

Lemma NoDup_fresh_tags (s : nat) (ps : list (R * R)) :
  NoDup (map tag (fresh_tags s ps)).
Proof. rewrite map_tag_fresh_tags. apply seq_NoDup. Qed.

Lemma fresh_variables_among (s : nat) (ps : list (R * R)) :
  Forall (variables_among (fresh_tags s ps)) (fresh_variables s ps).
Proof.
  revert s. induction ps as [|p ps IH]; intros s; simpl; constructor.
  - intros cv [<-|[]]. now left.
  - eapply Forall_impl; [|apply IH].
    intros x Hx cv Hin. right. now apply Hx.
Qed.

Lemma variables_among_incl (vs ws : list UVariable) (x : UFloat) :
  incl vs ws -> variables_among vs x -> variables_among ws x.
Proof. intros Hincl Hx cv Hin. apply Hincl. now apply Hx. Qed.

Lemma nth_fresh_variables (s i : nat) (ps : list (R * R)) :
  (i < length ps)%nat ->
  nth i (fresh_variables s ps) (uconst 0)
  = {| nominal_value := nth i (map fst ps) 0;
       linear_part :=
         [(1, {| tag := (s + i)%nat;
                 var_std_dev := nth i (map snd ps) 0 |})] |}.
Proof.
  revert s i. induction ps as [|p ps IH]; intros s i Hi; simpl in Hi; [lia|].
  destruct i as [|i]; simpl.
  - now rewrite Nat.add_0_r.
  - rewrite IH by lia. now rewrite Nat.add_succ_r.
Qed.

Lemma fresh_tags_as_map (s : nat) (ps : list (R * R)) :
  fresh_tags s ps
  = map (fun j => {| tag := (s + j)%nat;
                     var_std_dev := nth j (map snd ps) 0 |})
        (seq 0 (length ps)).
Proof.
  revert s. induction ps as [|p ps IH]; intros s; simpl; [reflexivity|].
  rewrite Nat.add_0_r. f_equal.
  rewrite IH, <- seq_shift, map_map.
  apply map_ext. intros j. now rewrite Nat.add_succ_r.
Qed.

(** The sum of [x_k * d a_k / d v_j] over a vector of new variables is
    [x_j]. *)
Lemma sum_nominal_times_delta (s j : nat) (ps : list (R * R)) :
  Rsum (map (fun u => nominal_value u * derivative u (s + j))
            (fresh_variables s ps))
  = nth j (map fst ps) 0.
Proof.
  revert s j. induction ps as [|p ps IH]; intros s j; simpl.
  - rewrite Rsum_nil. now destruct j.
  - rewrite Rsum_cons. unfold derivative at 1. simpl.
    destruct j as [|j].
    + rewrite Nat.add_0_r, Nat.eqb_refl.
      rewrite Rsum_all_zero; [ring|].
      apply Forall_forall. intros y Hy. apply in_map_iff in Hy.
      destruct Hy as [u [<- Hu]].
      rewrite (fresh_independent_of_older (S s) ps u s) by (auto; lia). ring.
    + replace (Nat.eqb s (s + S j)) with false
        by (symmetry; apply Nat.eqb_neq; lia).
      replace (s + S j)%nat with (S s + j)%nat by lia.
      rewrite IH. ring.
Qed.

Lemma derivative_unit_component (s i j : nat) (ps : list (R * R)) :
  (i < length ps)%nat ->
  norm2 (map fst ps) <> 0 ->
  derivative (quotient (nth i (fresh_variables s ps) (uconst 0))
                       (norm_value (fresh_variables s ps))) (s + j)
  = jacobian_entry (map fst ps) i j.
Proof.
  intros Hi HN.
  rewrite derivative_quotient, derivative_norm_value, sum_nominal_times_delta.
  rewrite nominal_values_fresh, nth_fresh_variables by exact Hi.
  unfold derivative at 1. cbn [nominal_value linear_part derivative_in tag
                               norm_value affine1].
  rewrite nominal_values_fresh.
  unfold jacobian_entry.
  set (N := norm2 (map fst ps)) in *.
  replace 0.5 with (1 / 2) by lra.
  destruct (Nat.eqb i j) eqn:E.
  - apply Nat.eqb_eq in E. subst j. rewrite Nat.eqb_refl. field. exact HN.
  - replace (Nat.eqb (s + i) (s + j)) with false
      by (symmetry; apply Nat.eqb_neq; apply Nat.eqb_neq in E; lia).
    field. exact HN.
Qed.

Lemma std_dev_unit_component (s i : nat) (ps : list (R * R)) :
  (i < length ps)%nat ->
  norm2 (map fst ps) <> 0 ->
  std_dev (quotient (nth i (fresh_variables s ps) (uconst 0))
                    (norm_value (fresh_variables s ps)))
  = sqrt (Rsum (map (fun j =>
                       jacobian_entry (map fst ps) i j ^ 2
                       * nth j (map snd ps) 0 ^ 2)
                    (seq 0 (length ps)))).
Proof.
  intros Hi HN.
  rewrite (std_dev_over_variables (fresh_tags s ps)).
  - rewrite fresh_tags_as_map, map_map. f_equal.
    apply Rsum_map_ext. intros j _. cbn [tag var_std_dev].
    rewrite derivative_unit_component by assumption. ring.
  - apply NoDup_fresh_tags.
  - unfold quotient. apply variables_among_affine2.
    + pose proof (fresh_variables_among s ps) as H.
      rewrite Forall_forall in H. apply H. apply nth_In.
      now rewrite length_fresh_variables.
    + apply variables_among_norm_value, fresh_variables_among.
Qed.

Lemma manual_unit_vector_uncertainty_matches_constructive (s : nat)
  (ps : list (R * R)) :
  Forall (fun p => 0 <= snd p) ps ->
  norm2 (map fst ps) <> 0 ->
  Engine.unit_vector_uncertainty_propagation (fresh_variables s ps)
  = std_devs (map (fun x => quotient x (norm_value (fresh_variables s ps)))
                  (fresh_variables s ps)).
Proof.
  intros Hsd HN. rewrite unit_vector_uncertainty_rows.
  rewrite nominal_values_fresh, std_devs_fresh by exact Hsd.
  rewrite length_fresh_variables.
  unfold std_devs. rewrite map_map.
  set (a := fresh_variables s ps).
  assert (Ha : map (fun x => std_dev (quotient x (norm_value a))) a
               = map (fun i => std_dev (quotient (nth i a (uconst 0))
                                                 (norm_value a)))
                     (seq 0 (length ps))).
  { rewrite <- (length_fresh_variables s ps). fold a.
    rewrite <- (map_map (fun i => nth i a (uconst 0))
                        (fun x => std_dev (quotient x (norm_value a)))).
    now rewrite <- map_seq_nth. }
  rewrite Ha.
  apply map_ext_in. intros i Hi. apply in_seq in Hi.
  symmetry. apply std_dev_unit_component; [lia|exact HN].
Qed.

(** For a vector of independent variables, as [unumpy.uarray] builds it, the
    uncertainties that manual mode computes for the components of the unit
    vector are the standard deviations that automatic propagation gives to
    the components of [v / ||v||]. *)
Theorem manual_unit_vector_uncertainty_matches_automatic (s : nat)
  (ps : list (R * R)) :
  Forall (fun p => 0 <= snd p) ps ->
  norm2 (map fst ps) <> 0 ->
  Engine.unit_vector_uncertainty_propagation (fresh_variables s ps)
  = std_devs (map (fun x => quotient x (norm_value (fresh_variables s ps)))
                  (fresh_variables s ps)).
Proof.
  apply manual_unit_vector_uncertainty_matches_constructive.
Qed.

Lemma manual_unit_vector_uncertainty_matches_automatic_witness :
  Engine.unit_vector_uncertainty_propagation
    (fresh_variables 0 [(1, 1); (2, 1); (3, 1)])
  = std_devs
      (map (fun x =>
              quotient x (norm_value
                            (fresh_variables 0 [(1, 1); (2, 1); (3, 1)])))
           (fresh_variables 0 [(1, 1); (2, 1); (3, 1)])).
Proof.
  apply manual_unit_vector_uncertainty_matches_automatic.
  - repeat constructor; simpl; lra.
  - exact norm2_123_nonzero.
Defined.

Lemma sum_no_dependence_left (A B : list UFloat) (t : nat) :
  (forall x, In x A -> derivative x t = 0) ->
  Rsum (map (fun xy => nominal_value (snd xy) * derivative (fst xy) t)
            (combine A B)) = 0.
Proof.
  intros H. apply Rsum_all_zero, Forall_forall. intros z Hz.
  apply in_map_iff in Hz. destruct Hz as [[x y] [<- Hin]]. cbn [fst snd].
  rewrite (H x) by (eapply in_combine_l; exact Hin). ring.
Qed.

Lemma sum_no_dependence_right (A B : list UFloat) (t : nat) :
  (forall y, In y B -> derivative y t = 0) ->
  Rsum (map (fun xy => nominal_value (fst xy) * derivative (snd xy) t)
            (combine A B)) = 0.
Proof.
  intros H. apply Rsum_all_zero, Forall_forall. intros z Hz.
  apply in_map_iff in Hz. destruct Hz as [[x y] [<- Hin]]. cbn [fst snd].
  rewrite (H y) by (eapply in_combine_r; exact Hin). ring.
Qed.

Lemma fresh_independent_of_later (s : nat) (ps : list (R * R)) (x : UFloat)
  (t : nat) :
  (s + length ps <= t)%nat -> In x (fresh_variables s ps) ->
  derivative x t = 0.
Proof.
  intros Ht Hx.
  destruct (Req_dec_T (derivative x t) 0) as [H0|H0]; [exact H0|].
  pose proof (fresh_derivative_support _ _ _ _ Hx H0). lia.
Qed.

Lemma sum_cross_delta_left (s s' j : nat) (pa pb : list (R * R)) :
  length pa = length pb ->
  Rsum (map (fun xy => nominal_value (snd xy) * derivative (fst xy) (s + j))
            (combine (fresh_variables s pa) (fresh_variables s' pb)))
  = nth j (map fst pb) 0.
Proof.
  revert s s' j pb.
  induction pa as [|p pa IH]; intros s s' j [|q pb] Hlen; simpl in Hlen;
    try discriminate.
  - simpl. rewrite Rsum_nil. now destruct j.
  - simpl. rewrite Rsum_cons. unfold derivative at 1. simpl.
    destruct j as [|j].
    + rewrite Nat.add_0_r, Nat.eqb_refl.
      rewrite sum_no_dependence_left; [ring|].
      intros x Hx. apply (fresh_independent_of_older (S s) pa); auto.
    + replace (Nat.eqb s (s + S j)) with false
        by (symmetry; apply Nat.eqb_neq; lia).
      replace (s + S j)%nat with (S s + j)%nat by lia.
      rewrite IH by lia. ring.
Qed.

Lemma sum_cross_delta_right (s s' j : nat) (pa pb : list (R * R)) :
  length pa = length pb ->
  Rsum (map (fun xy => nominal_value (fst xy) * derivative (snd xy) (s' + j))
            (combine (fresh_variables s pa) (fresh_variables s' pb)))
  = nth j (map fst pa) 0.
Proof.
  revert s s' j pb.
  induction pa as [|p pa IH]; intros s s' j [|q pb] Hlen; simpl in Hlen;
    try discriminate.
  - simpl. rewrite Rsum_nil. now destruct j.
  - simpl. rewrite Rsum_cons. unfold derivative at 1. simpl.
    destruct j as [|j].
    + rewrite Nat.add_0_r, Nat.eqb_refl.
      rewrite sum_no_dependence_right; [ring|].
      intros y Hy. apply (fresh_independent_of_older (S s') pb); auto.
    + replace (Nat.eqb s' (s' + S j)) with false
        by (symmetry; apply Nat.eqb_neq; lia).
      replace (s' + S j)%nat with (S s' + j)%nat by lia.
      rewrite IH by lia. ring.
Qed.

(** The variance of the dot product of two vectors of new variables: the
    components are independent, the variances of the products add up. *)
Lemma variance_of_independent_dot (s : nat) (pa pb : list (R * R)) :
  length pa = length pb ->
  std_dev (dot_value (fresh_variables s pa)
                     (fresh_variables (s + length pa) pb))
  = sqrt (Rsum (map (fun pq => (fst (snd pq) * snd (fst pq)) ^ 2
                               + (fst (fst pq) * snd (snd pq)) ^ 2)
                    (combine pa pb))).
Proof.
  intros Hlen.
  rewrite (std_dev_over_variables
             (fresh_tags s pa ++ fresh_tags (s + length pa) pb)).
  - f_equal. rewrite map_app, Rsum_app, !fresh_tags_as_map, !map_map.
    cbn [tag var_std_dev].
    rewrite <- Hlen, <- Rsum_map_plus.
    rewrite (combine_seq_nth pa pb (0, 0) (0, 0) Hlen), map_map.
    apply Rsum_map_ext. intros j Hj. cbn [fst snd].
    rewrite !derivative_dot_value, !Rsum_map_plus.
    rewrite (sum_cross_delta_left s (s + length pa) j pa pb Hlen).
    rewrite (sum_no_dependence_right _ _ (s + j));
      [|intros y Hy;
        apply (fresh_independent_of_older (s + length pa) pb); auto;
        apply in_seq in Hj; lia].
    rewrite (sum_no_dependence_left _ _ (s + length pa + j));
      [|intros x Hx; apply (fresh_independent_of_later s pa); auto; lia].
    rewrite (sum_cross_delta_right s (s + length pa) j pa pb Hlen).
    rewrite <- !(map_nth fst), <- !(map_nth snd). simpl. ring.
  - rewrite map_app, !map_tag_fresh_tags, <- Hlen, <- seq_app.
    apply seq_NoDup.
  - apply variables_among_dot_value.
    + eapply Forall_impl; [|apply fresh_variables_among].
      intros x Hx. eapply variables_among_incl; [|exact Hx].
      apply incl_appl, incl_refl.
    + eapply Forall_impl; [|apply fresh_variables_among].
      intros x Hx. eapply variables_among_incl; [|exact Hx].
      apply incl_appr, incl_refl.
Qed.

Lemma combine_fst_snd {A B : Type} (l : list (A * B)) :
  combine (map fst l) (map snd l) = l.
Proof.
  induction l as [|[x y] l IH]; simpl; [reflexivity|now rewrite IH].
Qed.

Lemma product_variance_nonzero (a sa b sb : R) :
  a <> 0 -> b <> 0 ->
  product_variance a sa b sb = (b * sa) ^ 2 + (a * sb) ^ 2.
Proof.
  intros Ha Hb. unfold product_variance.
  destruct (Req_dec_T a 0); [contradiction|].
  destruct (Req_dec_T b 0); [contradiction|].
  field. now split.
Qed.

Lemma unit_components_nonzero (s : nat) (ps : list (R * R)) (p : R * R) :
  Forall (fun q => fst q <> 0) ps ->
  norm2 (map fst ps) <> 0 ->
  In p (map (fun x => (nominal_value x, std_dev x))
            (map (fun x => quotient x (norm_value (fresh_variables s ps)))
                 (fresh_variables s ps))) ->
  fst p <> 0.
Proof.
  intros Hnz HN Hin. rewrite map_map in Hin.
  apply in_map_iff in Hin. destruct Hin as [x [<- Hx]]. simpl.
  rewrite nominal_values_fresh.
  assert (Hxn : nominal_value x <> 0).
  { assert (H : In (nominal_value x) (nominal_values (fresh_variables s ps)))
      by now apply in_map.
    rewrite nominal_values_fresh in H. apply in_map_iff in H.
    destruct H as [q [<- Hq]]. rewrite Forall_forall in Hnz. now apply Hnz. }
  intros H0. apply Rmult_integral in H0. destruct H0 as [H0|H0].
  - contradiction.
  - now apply (Rinv_neq_0_compat _ HN).
Qed.

(** Two vectors of independent variables from different files, no component
    zero, no norms supplied: manual mode and automatic mode return the same
    nominal value and the same uncertainty. *)
Theorem manual_and_automatic_uncertainty_agree (sa sb : nat)
  (psa psb : list (R * R)) (fa fe : string) (s1 s2 : nat) :
  let a := fresh_variables sa psa in
  let b := fresh_variables sb psb in
  length psa = length psb ->
  Forall (fun p => 0 <= snd p) psa ->
  Forall (fun p => 0 <= snd p) psb ->
  Forall (fun p => fst p <> 0) psa ->
  Forall (fun p => fst p <> 0) psb ->
  norm2 (map fst psa) <> 0 ->
  norm2 (map fst psb) <> 0 ->
  fa <> fe ->
  exists E1 s1' E2 s2',
    Engine.calculate_E_from_sensitivity_vecs a b (Some fa) (Some fe)
                                             "automatic" None None s1
    = Ok (E1, s1')
    /\ Engine.calculate_E_from_sensitivity_vecs a b (Some fa) (Some fe)
                                                "manual" None None s2
       = Ok (E2, s2')
    /\ nominal_value E1 = nominal_value E2
    /\ std_dev E1 = std_dev E2.
Proof.
  intros a b Hlen Hsa Hsb Hza Hzb HNa HNb Hf.
  assert (Hlab : length a = length b)
    by (unfold a, b; now rewrite !length_fresh_variables).
  assert (Hna : nominal_value (norm_value a) <> 0)
    by (unfold a; simpl; now rewrite nominal_values_fresh).
  assert (Hnb : nominal_value (norm_value b) <> 0)
    by (unfold b; simpl; now rewrite nominal_values_fresh).
  set (pa := map (fun x => (nominal_value x, std_dev x))
                 (map (fun x => quotient x (norm_value a)) a)).
  set (pb := map (fun x => (nominal_value x, std_dev x))
                 (map (fun x => quotient x (norm_value b)) b)).
  assert (Hpa : length pa = length a) by (unfold pa; now rewrite !length_map).
  assert (Hpab : length pa = length pb)
    by (unfold pa, pb; now rewrite !length_map).
  eexists. eexists. eexists. eexists. split; [|split; [|split]].
  - apply (calculate_E_automatic_other_run a b fa fe None None
             (norm_value a) (norm_value b) s1 Hf Hlab (norms_for_none a b)
             Hna Hnb).
  - apply (calculate_E_manual_run a b (Some fa) (Some fe) "manual" None None
             (norm_value a) (norm_value b) s2);
      [discriminate|apply norm2_nonzero_nonempty; unfold a;
                    now rewrite nominal_values_fresh
      |exact Hlab|apply norms_for_none|exact Hna|exact Hnb].
  - rewrite nominal_dot_broken. apply nominal_dot_quotients.
  - rewrite std_dev_variable by apply manual_uncertainty_nonneg.
    fold pa. fold pb. rewrite <- Hpa.
    rewrite (variance_of_independent_dot s1 pa pb Hpab).
    unfold manual_uncertainty. f_equal.
    assert (Hca : combine (map (fun x => x / nominal_value (norm_value a))
                               (nominal_values a))
                          (Engine.unit_vector_uncertainty_propagation a)
                  = pa).
    { unfold a at 3.
      rewrite manual_unit_vector_uncertainty_matches_constructive
        by assumption.
      fold a. rewrite <- nominal_values_quotients.
      unfold pa, nominal_values, std_devs.
      rewrite <- (combine_fst_snd
                    (map (fun x => (nominal_value x, std_dev x))
                         (map (fun x => quotient x (norm_value a)) a))).
      now rewrite !map_map. }
    assert (Hcb : combine (map (fun x => x / nominal_value (norm_value b))
                               (nominal_values b))
                          (Engine.unit_vector_uncertainty_propagation b)
                  = pb).
    { unfold b at 3.
      rewrite manual_unit_vector_uncertainty_matches_constructive
        by assumption.
      fold b. rewrite <- nominal_values_quotients.
      unfold pb, nominal_values, std_devs.
      rewrite <- (combine_fst_snd
                    (map (fun x => (nominal_value x, std_dev x))
                         (map (fun x => quotient x (norm_value b)) b))).
      now rewrite !map_map. }
    rewrite Hca, Hcb.
    apply Rsum_map_ext. intros [p q] Hin. cbn [fst snd].
    rewrite product_variance_nonzero; [reflexivity| |].
    + apply (unit_components_nonzero sa psa p Hza HNa).
      eapply in_combine_l. exact Hin.
    + apply (unit_components_nonzero sb psb q Hzb HNb).
      eapply in_combine_r. exact Hin.
Qed.

Lemma manual_and_automatic_uncertainty_agree_witness :
  exists E1 s1' E2 s2',
    Engine.calculate_E_from_sensitivity_vecs
      (fresh_variables 0 [(1, 1); (2, 1); (3, 1)])
      (fresh_variables 3 [(1, 1); (2, 1); (3, 1)])
      (Some "a.sdf") (Some "e.sdf") "automatic" None None 6%nat
    = Ok (E1, s1')
    /\ Engine.calculate_E_from_sensitivity_vecs
         (fresh_variables 0 [(1, 1); (2, 1); (3, 1)])
         (fresh_variables 3 [(1, 1); (2, 1); (3, 1)])
         (Some "a.sdf") (Some "e.sdf") "manual" None None 6%nat
       = Ok (E2, s2')
    /\ nominal_value E1 = nominal_value E2
    /\ std_dev E1 = std_dev E2.
Proof.
  apply (manual_and_automatic_uncertainty_agree 0 3
           [(1, 1); (2, 1); (3, 1)] [(1, 1); (2, 1); (3, 1)]
           "a.sdf" "e.sdf" 6%nat 6%nat).
  - reflexivity.
  - repeat constructor; simpl; lra.
  - repeat constructor; simpl; lra.
  - repeat constructor; simpl; lra.
  - repeat constructor; simpl; lra.
  - exact norm2_123_nonzero.
  - exact norm2_123_nonzero.
  - discriminate.
Defined.

(** Automatic mode with two different file names: the uncertainty of [E] is
    that of a sum of products of independent factors, each unit-vector
    component keeping only its own standard deviation. *)
Theorem decorrelated_uncertainty (a b : list UFloat) (fa fe : string)
  (eno ano : option UFloat) (an en : UFloat) (s : nat) :
  fa <> fe ->
  length a = length b ->
  Engine.norms_for a b eno ano = Ok (Some an, Some en) ->
  nominal_value an <> 0 ->
  nominal_value en <> 0 ->
  exists E s',
    Engine.calculate_E_from_sensitivity_vecs a b (Some fa) (Some fe)
                                             "automatic" eno ano s
    = Ok (E, s')
    /\ std_dev E
       = sqrt (Rsum (map (fun xy =>
                            (nominal_value (snd xy) * std_dev (fst xy)) ^ 2
                            + (nominal_value (fst xy) * std_dev (snd xy)) ^ 2)
                         (combine (map (fun x => quotient x an) a)
                                  (map (fun x => quotient x en) b)))).
Proof.
  intros Hf Hlen Hnorms Han Hen.
  eexists. eexists. split.
  - apply (calculate_E_automatic_other_run a b fa fe eno ano an en s);
      assumption.
  - set (ua := map (fun x => quotient x an) a).
    set (ub := map (fun x => quotient x en) b).
    set (pa := map (fun x => (nominal_value x, std_dev x)) ua).
    set (pb := map (fun x => (nominal_value x, std_dev x)) ub).
    assert (Hpa : length pa = length a)
      by (unfold pa, ua; now rewrite !length_map).
    assert (Hpab : length pa = length pb)
      by (unfold pa, pb, ua, ub; now rewrite !length_map).
    rewrite <- Hpa, (variance_of_independent_dot s pa pb Hpab).
    f_equal. unfold pa, pb. rewrite combine_map, map_map. reflexivity.
Qed.

Lemma decorrelated_uncertainty_witness :
  exists E s',
    Engine.calculate_E_from_sensitivity_vecs
      (fresh_variables 0 [(2, 1)]) (fresh_variables 1 [(2, 1)])
      (Some "a.sdf") (Some "e.sdf") "automatic"
      (Some (uconst 4)) (Some (uconst 4)) 2%nat
    = Ok (E, s')
    /\ std_dev E
       = sqrt (Rsum (map (fun xy =>
                            (nominal_value (snd xy) * std_dev (fst xy)) ^ 2
                            + (nominal_value (fst xy) * std_dev (snd xy)) ^ 2)
                         (combine
                            (map (fun x => quotient x (uconst 4))
                                 (fresh_variables 0 [(2, 1)]))
                            (map (fun x => quotient x (uconst 4))
                                 (fresh_variables 1 [(2, 1)]))))).
Proof.
  apply (decorrelated_uncertainty
           (fresh_variables 0 [(2, 1)]) (fresh_variables 1 [(2, 1)])
           "a.sdf" "e.sdf" (Some (uconst 4)) (Some (uconst 4))
           (uconst 4) (uconst 4) 2%nat).
  - discriminate.
  - reflexivity.
  - reflexivity.
  - simpl. lra.
  - simpl. lra.
Defined.

(** ** [calculate_E] on files *)

Lemma Forall2_filter {A B : Type} (P : A -> B -> Prop) (p : A -> bool)
  (q : B -> bool) (l : list A) (l' : list B) :
  (forall a b, P a b -> p a = q b) ->
  Forall2 P l l' -> Forall2 P (filter p l) (filter q l').
Proof.
  intros Hpq H. induction H as [|a b l l' Hab _ IH]; simpl.
  - constructor.
  - rewrite (Hpq a b Hab). destruct (q b); [constructor|]; assumption.
Qed.

Lemma Forall2_map_eq {A B C : Type} (P : A -> B -> Prop) (f : A -> C)
  (g : B -> C) (l : list A) (l' : list B) :
  (forall a b, P a b -> f a = g b) ->
  Forall2 P l l' -> map f l = map g l'.
Proof.
  intros Hfg H. induction H as [|a b l l' Hab _ IH]; simpl.
  - reflexivity.
  - now rewrite (Hfg a b Hab), IH.
Qed.

Lemma filter_andb {A : Type} (p q : A -> bool) (l : list A) :
  filter (fun a => p a && q a) l = filter q (filter p l).
Proof.
  induction l as [|a l IH]; simpl; [reflexivity|].
  destruct (p a); simpl; [|exact IH].
  destruct (q a); now rewrite IH.
Qed.

Section LegacyFiles.

Variable parse_sdf : string -> result parsed_sdf.
Variable file : string.
Variable data : parsed_sdf.
Hypothesis parsed : parse_sdf file = Ok data.
Hypothesis well_formed : well_formed_sdf data.

Lemma legacy_read_sdf_ok (s : nat) :
  exists profiles s',
    Legacy._read_sdf parse_sdf file s
    = Ok ((parsed_energy_boundaries data, profiles), s')
    /\ Forall2 (legacy_profile_of (num_groups data))
               (parsed_matches data) profiles.
Proof.
  unfold Legacy._read_sdf.
  erewrite bind_run by (unfold lift; rewrite parsed; reflexivity).
  destruct (mapM_Forall2
              (fun m => to_profile m
                          (firstn (num_groups data) (m_data_block m))
                          (skipn (num_groups data) (m_data_block m)))
              (legacy_profile_of (num_groups data))
              (parsed_matches data)) with (s := s)
    as [profiles [s' [Hrun Hall]]].
  - intros m Hm s0.
    destruct (well_formed m Hm) as [Hlen [Hunc [Heis Hsos]]].
    assert (Hl : length (firstn (num_groups data) (m_data_block m))
                 = length (skipn (num_groups data) (m_data_block m)))
      by (rewrite length_firstn, length_skipn; lia).
    destruct (to_profile_ok m _ _ s0 Hl Hunc Heis Hsos)
      as [p [Hp [Hsens [Hi [Hr [Hz Hv]]]]]].
    exists p. eexists. split; [exact Hp|].
    unfold legacy_profile_of. repeat (split; [assumption|]). split.
    + rewrite Hsens, nominal_values_fresh. now apply map_fst_combine.
    + rewrite Hsens, std_devs_fresh by now apply Forall_snd_combine.
      now apply map_snd_combine.
  - exists profiles, s'. erewrite bind_run by exact Hrun. now split.
Qed.

Lemma legacy_region_integrated_ok (s : nat) :
  exists profiles s',
    Legacy.region_integrated_sdf_data parse_sdf file s
    = Ok ((parsed_energy_boundaries data, profiles), s')
    /\ Forall2 (legacy_profile_of (num_groups data))
               (filter (fun m => Z.eqb (m_zone_number m) 0
                                 && Z.eqb (m_zone_volume m) 0)
                       (parsed_matches data))
               profiles.
Proof.
  destruct (legacy_read_sdf_ok s) as [all [s' [Hread Hall]]].
  exists (filter region_integrated all), s'.
  unfold Legacy.region_integrated_sdf_data.
  erewrite bind_run by exact Hread. split; [reflexivity|].
  apply Forall2_filter; [|exact Hall].
  intros m p [_ [_ [Hz [Hv _]]]]. unfold region_integrated.
  now rewrite Hz, Hv.
Qed.

Lemma legacy_profiles_ok (reaction : string) (s : nat) :
  exists profiles s',
    (r <- Legacy.RegionIntegratedSdfReader parse_sdf file ;;
     Legacy.get_sensitivity_profiles parse_sdf r reaction) s
    = Ok (profiles, s')
    /\ map nominal_values profiles
       = map (fun m => firstn (num_groups data) (m_data_block m))
             (filter (selected reaction) (parsed_matches data)).
Proof.
  destruct (legacy_region_integrated_ok s) as [first [s1 [Hfirst _]]].
  destruct (legacy_region_integrated_ok s1) as [again [s2 [Hagain Hall]]].
  unfold Legacy.RegionIntegratedSdfReader.
  erewrite bind_run;
    [|erewrite bind_run by exact Hfirst; reflexivity].
  unfold Legacy.get_sensitivity_profiles. cbn [filename].
  erewrite bind_run by exact Hagain.
  assert (Hsel : forall q,
            (forall m p, legacy_profile_of (num_groups data) m p ->
                         (String.eqb reaction "all"
                          || String.eqb (m_reaction_type m) reaction)
                         = q p) ->
            map nominal_values (map sensitivities (filter q again))
            = map (fun m => firstn (num_groups data) (m_data_block m))
                  (filter (selected reaction) (parsed_matches data))).
  { intros q Hq. rewrite map_map. symmetry.
    apply (Forall2_map_eq (legacy_profile_of (num_groups data))).
    - intros m p [_ [_ [_ [_ [Hn _]]]]]. now symmetry.
    - unfold selected.
      rewrite (filter_andb
                 (fun m => Z.eqb (m_zone_number m) 0
                           && Z.eqb (m_zone_volume m) 0)
                 (fun m => String.eqb reaction "all"
                           || String.eqb (m_reaction_type m) reaction)).
      now apply Forall2_filter. }
  destruct (String.eqb reaction "all") eqn:Eall.
  - eexists. eexists. split; [reflexivity|].
    rewrite <- (Hsel (fun _ => true)) by reflexivity.
    do 2 f_equal. clear. induction again as [|p l IH]; simpl; [|rewrite <- IH];
      reflexivity.
  - eexists. eexists. split; [reflexivity|].
    apply Hsel. intros m p [_ [Hr _]]. simpl. now rewrite Hr.
Qed.

End LegacyFiles.

Lemma mapM_singleton {A B : Type} (f : A -> M B) (a : A) (s : nat) (b : B)
  (s' : nat) :
  f a s = Ok (b, s') -> mapM f [a] s = Ok ([b], s').
Proof.
  intros H. simpl. unfold bind, ret. now rewrite H.
Qed.

Lemma length_concat_nominal_std (sdfs : list (list UFloat)) :
  length (concat (map nominal_values sdfs))
  = length (concat (map std_devs sdfs)).
Proof.
  induction sdfs as [|v sdfs IH]; simpl; [reflexivity|].
  rewrite !length_app, IH. unfold nominal_values, std_devs.
  now rewrite !length_map.
Qed.

Lemma create_sensitivity_vector_ok (sdfs : list (list UFloat)) (s : nat) :
  sdfs <> [] ->
  exists vector s',
    Engine.create_sensitivity_vector sdfs s = Ok (vector, s')
    /\ nominal_values vector = concat (map nominal_values sdfs)
    /\ std_devs vector = concat (map std_devs sdfs).
Proof.
  intros Hne. unfold Engine.create_sensitivity_vector.
  assert (Hnonneg : Forall (fun sd => 0 <= sd) (concat (map std_devs sdfs))).
  { apply Forall_forall. intros sd Hsd. apply in_concat in Hsd.
    destruct Hsd as [l [Hl Hsd]]. apply in_map_iff in Hl.
    destruct Hl as [v [<- _]]. apply in_map_iff in Hsd.
    destruct Hsd as [x [<- _]]. apply std_dev_nonneg. }
  destruct sdfs as [|v sdfs]; [contradiction|].
  unfold bind, lift, np_concatenate.
  cbn [map]. 
  rewrite (uarray_ok _ _ _ (length_concat_nominal_std (v :: sdfs)) Hnonneg).
  eexists. eexists. split; [reflexivity|]. split.
  - rewrite nominal_values_fresh. apply map_fst_combine.
    apply (length_concat_nominal_std (v :: sdfs)).
  - rewrite std_devs_fresh by now apply Forall_snd_combine.
    apply map_snd_combine. apply (length_concat_nominal_std (v :: sdfs)).
Qed.


Lemma example_well_formed (iso : string) :
  well_formed_sdf
    {| num_groups := 1; parsed_energy_boundaries := [20; 0];
       parsed_matches := [example_match iso "fission" 1] |}.
Proof.
  intros m [<-|[]]. simpl.
  split; [reflexivity|]. split; [repeat constructor; lra|]. split; lra.
Qed.


(** ** Contributions add up *)

Lemma calculate_E_manual_inv (a b : list UFloat) (fa fe : option string)
  (unc : string) (en an : UFloat) (s : nat) (E : UFloat) (s' : nat) :
  unc <> "automatic" ->
  Engine.calculate_E_from_sensitivity_vecs a b fa fe unc (Some en) (Some an) s
  = Ok (E, s') ->
  length a = length b
  /\ nominal_value E
     = scaled_dot (nominal_values a) (nominal_values b)
                  (nominal_value an) (nominal_value en).
Proof.
  intros Hunc H. pose proof H as H0.
  unfold Engine.calculate_E_from_sensitivity_vecs in H.
  pose proof Hunc as Hunc'. apply String.eqb_neq in Hunc'. rewrite Hunc' in H.
  unfold bind, lift in H.
  change (Engine.norms_for a b (Some en) (Some an))
    with (Ok (Some an, Some en) : result (option UFloat * option UFloat)) in H.
  cbv iota beta in H.
  destruct a as [|x a].
  - simpl in H.
    destruct (array_div b (Some en)) as [[|y ub]|e]; simpl in H; discriminate.
  - destruct (Req_dec_T (nominal_value an) 0) as [Han|Han].
    + rewrite array_div_zero in H by (auto; discriminate). discriminate.
    + destruct b as [|y b].
      * rewrite (array_div_ok _ an Han) in H. simpl in H. discriminate.
      * destruct (Req_dec_T (nominal_value en) 0) as [Hen|Hen].
        -- rewrite (array_div_ok _ an Han) in H.
           rewrite array_div_zero in H by (auto; discriminate). discriminate.
        -- destruct (Nat.eq_dec (length (x :: a)) (length (y :: b)))
             as [Hlen|Hlen].
           ++ split; [exact Hlen|].
              rewrite (calculate_E_manual_run (x :: a) (y :: b) fa fe unc
                         (Some en) (Some an) an en s Hunc) in H0;
                [|discriminate|exact Hlen|reflexivity|exact Han|exact Hen].
              injection H0 as <- _. reflexivity.
           ++ rewrite (array_div_ok _ an Han), (array_div_ok _ en Hen) in H.
              rewrite np_dot_mismatch in H
                by (rewrite !length_map; exact Hlen).
              discriminate.
Qed.

Lemma create_sensitivity_vector_inv (sdfs : list (list UFloat)) (s : nat)
  (vector : list UFloat) (s' : nat) :
  Engine.create_sensitivity_vector sdfs s = Ok (vector, s') ->
  nominal_values vector = concat (map nominal_values sdfs).
Proof.
  intros H. destruct sdfs as [|v sdfs].
  - unfold Engine.create_sensitivity_vector, bind, lift in H. simpl in H.
    discriminate.
  - destruct (create_sensitivity_vector_ok (v :: sdfs) s)
      as [vec [s1 [Hrun [Hn _]]]]; [discriminate|].
    rewrite Hrun in H. injection H as <- _. exact Hn.
Qed.

Lemma rmap_Ok_Forall2 {A B : Type} (f : A -> result B) (l : list A)
  (bs : list B) :
  rmap f l = Ok bs -> Forall2 (fun a b => f a = Ok b) l bs.
Proof.
  revert bs. induction l as [|a l IH]; intros bs H; simpl in H.
  - injection H as <-. constructor.
  - destruct (f a) as [b|e] eqn:Ea; simpl in H; [|discriminate].
    destruct (rmap f l) as [rest|e]; simpl in H; [|discriminate].
    injection H as <-. constructor; [exact Ea|now apply IH].
Qed.

Lemma combine_app_same {A B : Type} (a a' : list A) (b b' : list B) :
  length a = length b ->
  combine (a ++ a') (b ++ b') = combine a b ++ combine a' b'.
Proof.
  revert b. induction a as [|x a IH]; intros [|y b] H; simpl in *;
    try discriminate; [reflexivity|].
  f_equal. apply IH. lia.
Qed.

(** The dot product of two concatenations of blocks of matching lengths is
    the sum of the dot products of the blocks. *)
Lemma scaled_dot_concat (As Bs : list (list R)) (na nb : R) :
  Forall2 (fun a b => length a = length b) As Bs ->
  scaled_dot (concat As) (concat Bs) na nb
  = Rsum (map (fun ab => scaled_dot (fst ab) (snd ab) na nb) (combine As Bs)).
Proof.
  intros H. induction H as [|a b As Bs Hab _ IH]; simpl.
  - reflexivity.
  - rewrite Rsum_cons, <- IH. unfold scaled_dot.
    rewrite (combine_app_same _ _ _ _ Hab), map_app, Rsum_app. reflexivity.
Qed.

Section Additivity.

Variables application experiment : dict (dict sdf_profile).
Variables application_norm experiment_norm : UFloat.
Variable isotope : string.

Lemma reaction_wise_entries (all_reactions : list string) (s : nat)
  (rw : list reaction_contribution) (s' : nat) :
  Legacy.get_reaction_wise_E_contributions application experiment isotope
    all_reactions application_norm experiment_norm s = Ok (rw, s') ->
  Forall2 (reaction_entry_of application experiment application_norm
                             experiment_norm isotope)
          all_reactions rw.
Proof.
  unfold Legacy.get_reaction_wise_E_contributions.
  apply mapM_Ok_Forall2. intros r t x t' Hx.
  apply bind_Ok in Hx. destruct Hx as [a [t1 [Ha Hx]]].
  apply lift_Ok in Ha. destruct Ha as [Ha _].
  apply bind_Ok in Hx. destruct Hx as [b [t2 [Hb Hx]]].
  apply lift_Ok in Hb. destruct Hb as [Hb _].
  apply bind_Ok in Hx. destruct Hx as [E [t3 [HE Hx]]].
  apply ret_Ok in Hx. destruct Hx as [-> _].
  apply calculate_E_manual_inv in HE; [|discriminate].
  destruct HE as [Hlen HE].
  split; [reflexivity|]. split; [reflexivity|].
  exists a, b. repeat split; assumption.
Qed.

Lemma sum_of_reaction_entries (all_reactions : list string)
  (ap ep : list (list UFloat)) (rw : list reaction_contribution) :
  Forall2 (fun r a => Legacy.profile_sensitivities application isotope r = Ok a)
          all_reactions ap ->
  Forall2 (fun r b => Legacy.profile_sensitivities experiment isotope r = Ok b)
          all_reactions ep ->
  Forall2 (reaction_entry_of application experiment application_norm
                             experiment_norm isotope)
          all_reactions rw ->
  Forall2 (fun a b => length a = length b)
          (map nominal_values ap) (map nominal_values ep)
  /\ Rsum (map (fun x => nominal_value (rc_contribution x)) rw)
     = Rsum (map (fun ab => scaled_dot (fst ab) (snd ab)
                                       (nominal_value application_norm)
                                       (nominal_value experiment_norm))
                 (combine (map nominal_values ap) (map nominal_values ep))).
Proof.
  intros Hap. revert ep rw.
  induction Hap as [|r a rs ap Ha _ IH]; intros ep rw Hep Hrw.
  - inversion Hep; subst. inversion Hrw; subst. simpl. split; constructor.
  - inversion Hep as [|? b ? ep' Hb Hep']; subst.
    inversion Hrw as [|? x ? rw' Hx Hrw']; subst.
    destruct (IH ep' rw' Hep' Hrw') as [Hlens Hsum].
    destruct Hx as [_ [_ [a0 [b0 [Ha0 [Hb0 [Hlen Hn]]]]]]].
    assert (a0 = a) by congruence. assert (b0 = b) by congruence. subst.
    simpl. split.
    + constructor; [|exact Hlens]. unfold nominal_values.
      now rewrite !length_map.
    + rewrite !Rsum_cons, Hsum, Hn. reflexivity.
Qed.


End Additivity.

Lemma example_present_step :
  exists acc' s',
    Legacy.isotope_step
      [("u-235", [("fission", example_profile "u-235" "fission" 1 0)])]
      [("u-235", [("fission", example_profile "u-235" "fission" 1 3)])]
      ["fission"]
      {| nominal_value := 1; linear_part := [] |}
      {| nominal_value := 1; linear_part := [] |}
      ([], []) "u-235" 6%nat
    = Ok (acc', s').
Proof.
  unfold Legacy.isotope_step.
  change (Legacy.isotope_does_not_contribute _ _ _) with false. cbv iota.
  set (an := {| nominal_value := 1; linear_part := [] |}).
  assert (Han : nominal_value an <> 0) by (simpl; lra).
  set (pa := fresh_variables 0 [(1, 0)]).
  set (pe := fresh_variables 3 [(1, 0)]).
  destruct (create_sensitivity_vector_ok [pa] 6) as [av [s1 [Hav [Hna _]]]];
    [discriminate|].
  destruct (create_sensitivity_vector_ok [pe] s1) as [ev [s2 [Hev [Hne _]]]];
    [discriminate|].
  assert (Hla : length av = 1%nat).
  { unfold nominal_values in Hna.
    apply (f_equal (@length R)) in Hna. now rewrite length_map in Hna. }
  assert (Hle : length ev = 1%nat).
  { unfold nominal_values in Hne.
    apply (f_equal (@length R)) in Hne. now rewrite length_map in Hne. }
  erewrite bind_run by reflexivity.
  erewrite bind_run by exact Hav.
  erewrite bind_run by reflexivity.
  erewrite bind_run by exact Hev.
  erewrite bind_run;
    [|apply (calculate_E_manual_run av ev None None "manual"
               (Some an) (Some an) an an s2);
      [discriminate|destruct av; [discriminate|discriminate]|congruence
      |reflexivity|exact Han|exact Han]].
  unfold Legacy.get_reaction_wise_E_contributions. simpl mapM.
  erewrite bind_run.
  2:{ erewrite bind_run.
      2:{ erewrite bind_run by reflexivity.
          erewrite bind_run by reflexivity.
          erewrite bind_run;
            [|apply (calculate_E_manual_run pa pe None None "manual"
                       (Some an) (Some an) an an);
              [discriminate|discriminate|reflexivity|reflexivity
              |exact Han|exact Han]].
          reflexivity. }
      reflexivity. }
  eexists. eexists. reflexivity.
Qed.


(** ** Range and symmetry of the index *)

Lemma scaled_dot_factor (a b : list R) (na nb : R) :
  na <> 0 -> nb <> 0 ->
  scaled_dot a b na nb
  = Rsum (map (fun ab => fst ab * snd ab) (combine a b)) / (na * nb).
Proof.
  intros Ha Hb. unfold scaled_dot.
  rewrite (Rsum_map_ext _ (fun ab => / (na * nb) * (fst ab * snd ab)))
    by (intros ab _; field; split; assumption).
  rewrite Rsum_map_scal. field. split; assumption.
Qed.

Lemma dot_squared_le (a b : list R) :
  Rsum (map (fun ab => fst ab * snd ab) (combine a b)) ^ 2
  <= Rsum (map (fun x => x ^ 2) a) * Rsum (map (fun x => x ^ 2) b).
Proof.
  revert b. induction a as [|x a IH]; intros b.
  - simpl. rewrite !Rsum_nil. lra.
  - destruct b as [|y b].
    + simpl. rewrite !Rsum_nil. lra.
    + simpl. rewrite !Rsum_cons. simpl fst. simpl snd.
      pose proof (IH b) as H.
      pose proof (Rsum_squares_nonneg a) as HA.
      pose proof (Rsum_squares_nonneg b) as HB.
      set (D := Rsum (map (fun ab => fst ab * snd ab) (combine a b))) in *.
      set (A := Rsum (map (fun x => x ^ 2) a)) in *.
      set (B := Rsum (map (fun x => x ^ 2) b)) in *.
      assert (Hcross : 2 * (x * y) * D <= x ^ 2 * B + y ^ 2 * A).
      { assert (Hsq : (2 * (x * y) * D) ^ 2 <= (x ^ 2 * B + y ^ 2 * A) ^ 2).
        { assert (H1 : (x * y) ^ 2 * D ^ 2 <= (x * y) ^ 2 * (A * B)).
          { apply Rmult_le_compat_l; [apply pow2_ge_0|exact H]. }
          pose proof (pow2_ge_0 (x ^ 2 * B - y ^ 2 * A)) as H2.
          replace ((2 * (x * y) * D) ^ 2) with (4 * ((x * y) ^ 2 * D ^ 2))
            by ring.
          replace ((x ^ 2 * B + y ^ 2 * A) ^ 2)
            with ((x ^ 2 * B - y ^ 2 * A) ^ 2 + 4 * ((x * y) ^ 2 * (A * B)))
            by ring.
          lra. }
        assert (Hpos : 0 <= x ^ 2 * B + y ^ 2 * A).
        { pose proof (pow2_ge_0 x). pose proof (pow2_ge_0 y).
          apply Rplus_le_le_0_compat; apply Rmult_le_pos; assumption. }
        destruct (Rle_dec (2 * (x * y) * D) (x ^ 2 * B + y ^ 2 * A))
          as [Hle|Hgt]; [exact Hle|].
        apply Rnot_le_lt in Hgt.
        set (u := 2 * (x * y) * D) in *.
        set (v := x ^ 2 * B + y ^ 2 * A) in *.
        assert (Huv : v * v < u * u)
          by (apply Rmult_le_0_lt_compat; assumption).
        replace (u ^ 2) with (u * u) in Hsq by ring.
        replace (v ^ 2) with (v * v) in Hsq by ring.
        lra. }
      replace ((x * y + D) ^ 2) with ((x * y) ^ 2 + 2 * (x * y) * D + D ^ 2)
        by ring.
      replace ((x ^ 2 + A) * (y ^ 2 + B))
        with ((x * y) ^ 2 + (x ^ 2 * B + y ^ 2 * A) + A * B) by ring.
      lra.
Qed.



Lemma combine_swap_map {A B : Type} (f : A * B -> R) (l1 : list A)
  (l2 : list B) :
  map f (combine l1 l2) = map (fun p => f (snd p, fst p)) (combine l2 l1).
Proof.
  revert l2. induction l1 as [|x l1 IH]; intros [|y l2]; simpl;
    try reflexivity.
  now rewrite IH.
Qed.

Lemma product_variance_sym (a sa b sb : R) :
  product_variance a sa b sb = product_variance b sb a sa.
Proof.
  unfold product_variance.
  destruct (Req_dec_T a 0), (Req_dec_T b 0); try reflexivity. ring.
Qed.

Lemma scaled_dot_sym (a b : list R) (na nb : R) :
  scaled_dot a b na nb = scaled_dot b a nb na.
Proof.
  unfold scaled_dot. rewrite combine_swap_map. f_equal.
  apply map_ext. intros [x y]. simpl. ring.
Qed.

Lemma manual_uncertainty_sym (a b : list UFloat) (na nb : R) :
  manual_uncertainty a b na nb = manual_uncertainty b a nb na.
Proof.
  unfold manual_uncertainty. f_equal. rewrite combine_swap_map. f_equal.
  apply map_ext. intros [[x sx] [y sy]]. simpl. apply product_variance_sym.
Qed.

(** In manual mode, exchanging application and experiment (and the norms,
    when supplied) changes neither the nominal value nor the uncertainty of
    [E]. *)
Theorem manual_mode_symmetric (a b : list UFloat) (fa fe : option string)
  (unc : string) (eno ano : option UFloat) (an en : UFloat) (s t : nat) :
  unc <> "automatic" ->
  a <> [] ->
  length a = length b ->
  Engine.norms_for a b eno ano = Ok (Some an, Some en) ->
  Engine.norms_for b a ano eno = Ok (Some en, Some an) ->
  nominal_value an <> 0 ->
  nominal_value en <> 0 ->
  exists E E' s' t',
    Engine.calculate_E_from_sensitivity_vecs a b fa fe unc eno ano s
    = Ok (E, s')
    /\ Engine.calculate_E_from_sensitivity_vecs b a fe fa unc ano eno t
       = Ok (E', t')
    /\ nominal_value E' = nominal_value E
    /\ std_dev E' = std_dev E.
Proof.
  intros Hunc Hne Hlen Hn Hn' Han Hen.
  assert (Hne' : b <> []).
  { destruct a; [contradiction|]. destruct b; discriminate. }
  eexists. eexists. eexists. eexists. split.
  - apply (calculate_E_manual_run a b fa fe unc eno ano an en s); assumption.
  - split.
    + apply (calculate_E_manual_run b a fe fa unc ano eno en an t);
        [assumption|assumption|now symmetry|assumption|assumption|assumption].
    + split.
      * simpl. apply scaled_dot_sym.
      * rewrite !std_dev_variable by apply manual_uncertainty_nonneg.
        apply manual_uncertainty_sym.
Qed.

Lemma manual_mode_symmetric_witness :
  exists E E' s' t',
    Engine.calculate_E_from_sensitivity_vecs
      (fresh_variables 0 [(1, 0); (2, 0); (3, 0)])
      (fresh_variables 3 [(3, 0); (2, 0); (1, 0)])
      None None "manual" None None 6%nat
    = Ok (E, s')
    /\ Engine.calculate_E_from_sensitivity_vecs
         (fresh_variables 3 [(3, 0); (2, 0); (1, 0)])
         (fresh_variables 0 [(1, 0); (2, 0); (3, 0)])
         None None "manual" None None 6%nat
       = Ok (E', t')
    /\ nominal_value E' = nominal_value E
    /\ std_dev E' = std_dev E.
Proof.
  assert (H123 : nominal_value
                   (norm_value (fresh_variables 0 [(1, 0); (2, 0); (3, 0)]))
                 <> 0) by exact norm2_123_nonzero.
  assert (H321 : nominal_value
                   (norm_value (fresh_variables 3 [(3, 0); (2, 0); (1, 0)]))
                 <> 0).
  { simpl. intros H0. pose proof (norm2_sqr [3; 2; 1]) as Hsq.
    rewrite H0 in Hsq. simpl in Hsq.
    rewrite !Rsum_cons, Rsum_nil in Hsq. lra. }
  apply (manual_mode_symmetric
           (fresh_variables 0 [(1, 0); (2, 0); (3, 0)])
           (fresh_variables 3 [(3, 0); (2, 0); (1, 0)])
           None None "manual" None None
           (norm_value (fresh_variables 0 [(1, 0); (2, 0); (3, 0)]))
           (norm_value (fresh_variables 3 [(3, 0); (2, 0); (1, 0)]))
           6%nat 6%nat).
  - discriminate.
  - discriminate.
  - reflexivity.
  - apply norms_for_none.
  - apply norms_for_none.
  - exact H123.
  - exact H321.
Defined.

(** ** Nested dictionaries and filters *)

Lemma insert_keyed_perm (p : Z * string) (l : list (Z * string)) :
  Permutation (insert_keyed p l) (p :: l).
Proof.
  induction l as [|q l IH]; simpl.
  - apply Permutation_refl.
  - destruct (fst p <=? fst q)%Z.
    + apply Permutation_refl.
    + apply perm_trans with (q :: p :: l);
        [now apply perm_skip|apply perm_swap].
Qed.

Lemma sort_keyed_perm (l : list (Z * string)) :
  Permutation (sort_keyed l) l.
Proof.
  induction l as [|p l IH]; simpl.
  - apply perm_nil.
  - apply perm_trans with (p :: sort_keyed l);
      [apply insert_keyed_perm|now apply perm_skip].
Qed.

Lemma insert_keyed_sorted (p : Z * string) (l : list (Z * string)) :
  StronglySorted (fun x y => (fst x <= fst y)%Z) l ->
  StronglySorted (fun x y => (fst x <= fst y)%Z) (insert_keyed p l).
Proof.
  induction 1 as [|q l Hs IH Hq]; simpl.
  - repeat constructor.
  - destruct (fst p <=? fst q)%Z eqn:E.
    + apply Z.leb_le in E. constructor.
      * now constructor.
      * constructor; [exact E|].
        apply Forall_forall. intros x Hx.
        rewrite Forall_forall in Hq. specialize (Hq x Hx). lia.
    + apply Z.leb_gt in E. constructor; [exact IH|].
      apply Forall_forall. intros x Hx.
      apply (Permutation_in _ (insert_keyed_perm p l)) in Hx.
      destruct Hx as [<-|Hx]; [lia|].
      rewrite Forall_forall in Hq. now apply Hq.
Qed.

Lemma sort_keyed_sorted (l : list (Z * string)) :
  StronglySorted (fun x y => (fst x <= fst y)%Z) (sort_keyed l).
Proof.
  induction l as [|p l IH]; simpl.
  - constructor.
  - now apply insert_keyed_sorted.
Qed.

Lemma combine_map_key (key : string -> Z) (l : list string) :
  combine (map key l) l = map (fun x => (key x, x)) l.
Proof.
  induction l as [|x l IH]; simpl; [reflexivity|now rewrite IH].
Qed.

Lemma sort_by_keys_perm (key : string -> Z) (l : list string) :
  Permutation (sort_by_keys (map key l) l) l.
Proof.
  unfold sort_by_keys. rewrite combine_map_key.
  apply perm_trans with (map snd (map (fun x => (key x, x)) l)).
  - apply Permutation_map, sort_keyed_perm.
  - rewrite map_map. simpl. rewrite map_id. apply Permutation_refl.
Qed.

Lemma StronglySorted_map_snd (key : string -> Z) (l : list (Z * string)) :
  Forall (fun p => fst p = key (snd p)) l ->
  StronglySorted (fun x y => (fst x <= fst y)%Z) l ->
  StronglySorted (fun x y => (key x <= key y)%Z) (map snd l).
Proof.
  intros Hkeys Hs. induction Hs as [|p l Hs IH Hp]; simpl.
  - constructor.
  - inversion Hkeys as [|? ? Hk Hkeys']; subst.
    constructor; [now apply IH|].
    apply Forall_forall. intros y Hy. apply in_map_iff in Hy.
    destruct Hy as [q [<- Hq]].
    rewrite Forall_forall in Hp, Hkeys'.
    rewrite <- Hk, <- (Hkeys' q Hq). now apply Hp.
Qed.

Lemma sort_by_keys_sorted (key : string -> Z) (l : list string) :
  StronglySorted (fun x y => (key x <= key y)%Z)
                 (sort_by_keys (map key l) l).
Proof.
  unfold sort_by_keys. rewrite combine_map_key.
  apply StronglySorted_map_snd; [|apply sort_keyed_sorted].
  apply Forall_forall. intros p Hp.
  apply (Permutation_in _ (sort_keyed_perm _)) in Hp.
  apply in_map_iff in Hp. destruct Hp as [x [<- _]]. reflexivity.
Qed.

Lemma dict_keys_empty_dicts_from {V : Type} (l : list string)
  (d : dict (dict V)) :
  dict_keys (fold_left (fun d isotope => dict_set d isotope []) l d)
  = fold_left add_key l (dict_keys d).
Proof.
  revert d. induction l as [|k l IH]; intros d; simpl.
  - reflexivity.
  - now rewrite IH, dict_keys_set_add.
Qed.

Lemma fold_add_key_NoDup (l seen : list string) :
  NoDup (seen ++ l) -> fold_left add_key l seen = seen ++ l.
Proof.
  revert seen. induction l as [|k l IH]; intros seen Hnd; simpl.
  - now rewrite app_nil_r.
  - assert (Hk : existsb (String.eqb k) seen = false).
    { destruct (existsb (String.eqb k) seen) eqn:E; [|reflexivity].
      apply existsb_exists in E. destruct E as [x [Hx E]].
      apply String.eqb_eq in E. subst x.
      apply NoDup_remove_2 in Hnd. exfalso. apply Hnd.
      apply in_or_app. now left. }
    unfold add_key at 2. rewrite Hk.
    rewrite IH by (rewrite <- app_assoc; exact Hnd).
    now rewrite <- app_assoc.
Qed.

Lemma dict_keys_empty_dicts {V : Type} (l : list string) :
  NoDup l -> dict_keys (@empty_dicts V l) = l.
Proof.
  intros Hnd. unfold empty_dicts.
  etransitivity; [apply dict_keys_empty_dicts_from|].
  now apply fold_add_key_NoDup.
Qed.

Lemma empty_dicts_values_from {V : Type} (l : list string)
  (d : dict (dict V)) :
  (forall k v, dict_get d k = Some v -> v = []) ->
  forall k v,
    dict_get (fold_left (fun d isotope => dict_set d isotope []) l d) k
    = Some v ->
    v = [].
Proof.
  revert d. induction l as [|x l IH]; intros d Hd k v; simpl.
  - apply Hd.
  - apply IH. intros k' v' Hget.
    destruct (string_dec x k') as [->|Hne].
    + rewrite dict_get_set_same in Hget. now injection Hget as <-.
    + rewrite dict_get_set_other in Hget by exact Hne. now apply (Hd k').
Qed.

Lemma lookup2_empty_dicts {V : Type} (l : list string)
  (nuclide reaction : string) :
  lookup2 (@empty_dicts V l) nuclide reaction = None.
Proof.
  unfold lookup2. destruct (dict_get (empty_dicts l) nuclide) as [v|] eqn:E;
    [|reflexivity].
  apply empty_dicts_values_from in E; [now subst v|].
  intros k v'. discriminate.
Qed.

Lemma lookup2_store {V : Type} (d : dict (dict V)) (inner : dict V)
  (isotope reaction : string) (value : V) (nuclide reaction' : string) :
  dict_get d isotope = Some inner ->
  lookup2 (dict_set d isotope (dict_set inner reaction value))
          nuclide reaction'
  = if String.eqb isotope nuclide && String.eqb reaction reaction'
    then Some value else lookup2 d nuclide reaction'.
Proof.
  intros Hinner. unfold lookup2.
  destruct (String.eqb isotope nuclide) eqn:En.
  - apply String.eqb_eq in En. subst nuclide. rewrite dict_get_set_same.
    rewrite Hinner.
    destruct (String.eqb reaction reaction') eqn:Er; simpl.
    + apply String.eqb_eq in Er. subst reaction'. apply dict_get_set_same.
    + apply String.eqb_neq in Er. now rewrite dict_get_set_other.
  - apply String.eqb_neq in En. simpl. now rewrite dict_get_set_other.
Qed.

Lemma dict_mem_get {V : Type} (d : dict V) (k : string) :
  dict_mem d k = true -> exists v, dict_get d k = Some v.
Proof.
  unfold dict_mem. destruct (dict_get d k) as [v|]; [|discriminate].
  intros _. now exists v.
Qed.

Lemma rfold_store_entry {V : Type} (field : string) (l : list (entry V))
  (d : dict (dict (string + V))) :
  (forall e, In e l -> entry_get e field <> None) ->
  (forall e, In e l -> In (entry_isotope e) (dict_keys d)) ->
  exists d',
    rfold (store_entry field) l d = Ok d'
    /\ dict_keys d' = dict_keys d
    /\ forall nuclide reaction,
         lookup2 d' nuclide reaction
         = fold_left (fun found e =>
                        if String.eqb (entry_isotope e) nuclide
                           && String.eqb (entry_reaction_type e) reaction
                        then entry_get e field else found)
                     l (lookup2 d nuclide reaction).
Proof.
  revert d. induction l as [|e l IH]; intros d Hfield Hkeys; simpl.
  - exists d. repeat split.
  - destruct (entry_get e field) as [v|] eqn:Hv;
      [|now destruct (Hfield e (or_introl eq_refl))].
    assert (Hmem : dict_mem d (entry_isotope e) = true)
      by (apply dict_mem_keys, Hkeys; now left).
    destruct (dict_mem_get _ _ Hmem) as [inner Hinner].
    unfold store_entry at 1. unfold entry_getitem, dict_getitem.
    rewrite Hv, Hinner. cbn [rbind].
    set (d1 := dict_set d (entry_isotope e)
                        (dict_set inner (entry_reaction_type e) v)).
    assert (Hk1 : dict_keys d1 = dict_keys d).
    { unfold d1. rewrite dict_keys_set. now rewrite Hmem. }
    destruct (IH d1) as [d' [Hrun [Hk Hl]]].
    + intros e' He'. apply Hfield. now right.
    + intros e' He'. rewrite Hk1. apply Hkeys. now right.
    + exists d'. split; [exact Hrun|]. split; [congruence|].
      intros nuclide reaction. rewrite Hl. unfold d1.
      rewrite (lookup2_store d inner _ _ v nuclide reaction Hinner).
      reflexivity.
Qed.

Lemma rfold_store_entry_missing {V : Type} (field : string)
  (l : list (entry V)) (d : dict (dict (string + V))) (e : entry V) :
  (forall e', In e' l -> In (entry_isotope e') (dict_keys d)) ->
  In e l ->
  entry_get e field = None ->
  rfold (store_entry field) l d = Raise KeyError.
Proof.
  revert d. induction l as [|e0 l IH]; intros d Hkeys He Hmissing.
  - contradiction.
  - cbn [rfold]. unfold store_entry at 1. unfold entry_getitem, dict_getitem.
    destruct (entry_get e0 field) as [v|] eqn:Ev.
    + assert (Hmem : dict_mem d (entry_isotope e0) = true)
        by (apply dict_mem_keys, Hkeys; now left).
      destruct (dict_mem_get _ _ Hmem) as [inner Hinner].
      rewrite Hinner. cbn [rbind].
      apply IH.
      * intros e' He'. rewrite dict_keys_set, Hmem. apply Hkeys. now right.
      * destruct He as [->|He]; [|exact He]. congruence.
      * exact Hmissing.
    + reflexivity.
Qed.

Lemma int_of_digits_nonneg (ds : list ascii) : (0 <= int_of_digits ds)%Z.
Proof.
  unfold int_of_digits.
  assert (H : forall n, (0 <= n)%Z ->
            (0 <= fold_left (fun n c =>
                               (10 * n + Z.of_nat (nat_of_ascii c - 48))%Z)
                            ds n)%Z).
  { induction ds as [|c ds IH]; intros n Hn; cbn [fold_left]; [exact Hn|].
    apply IH. pose proof (Nat2Z.is_nonneg (nat_of_ascii c - 48)). lia. }
  apply H. lia.
Qed.

Lemma findall_digits_first_has_digit (s : string) :
  findall_digits_first s = None <-> has_digit s = false.
Proof.
  induction s as [|c s IH]; simpl.
  - split; reflexivity.
  - destruct (is_digit c); simpl; [split; discriminate|exact IH].
Qed.

Lemma get_atomic_number_digitless (s : string) :
  has_digit s = false -> Utils.get_atomic_number s = (-1)%Z.
Proof.
  intros H. apply findall_digits_first_has_digit in H.
  unfold Utils.get_atomic_number. now rewrite H.
Qed.

Lemma get_atomic_number_digits (s : string) :
  has_digit s = true -> (0 <= Utils.get_atomic_number s)%Z.
Proof.
  intros H. unfold Utils.get_atomic_number.
  destruct (findall_digits_first s) as [ds|] eqn:E.
  - apply int_of_digits_nonneg.
  - apply findall_digits_first_has_digit in E. congruence.
Qed.

Section NestedDictProperties.

Context {V : Type}.
Variable set_order : list string -> list string.
Hypothesis set_order_once : iterates_once set_order.

Lemma nested_dict_run (l : list (entry V)) (field : string) :
  (forall e, In e l -> entry_get e field <> None) ->
  exists d,
    Utils.isotope_reaction_list_to_nested_dict set_order l field = Ok d
    /\ dict_keys d
       = sort_by_keys (map Utils.get_atomic_number
                           (set_order (map entry_isotope l)))
                      (set_order (map entry_isotope l))
    /\ forall nuclide reaction,
         lookup2 d nuclide reaction
         = last_entry_value field nuclide reaction l.
Proof.
  intros Hfield. unfold Utils.isotope_reaction_list_to_nested_dict.
  set (S0 := set_order (map entry_isotope l)).
  set (sorted := sort_by_keys (map Utils.get_atomic_number S0) S0).
  destruct (set_order_once (map entry_isotope l)) as [Hnd Hin].
  fold S0 in Hnd, Hin.
  assert (Hperm : Permutation sorted S0) by apply sort_by_keys_perm.
  assert (Hnd' : NoDup sorted).
  { apply (Permutation_NoDup (Permutation_sym Hperm) Hnd). }
  destruct (rfold_store_entry field l (empty_dicts sorted) Hfield)
    as [d [Hrun [Hk Hl]]].
  - intros e He. rewrite dict_keys_empty_dicts by exact Hnd'.
    apply (Permutation_in _ (Permutation_sym Hperm)). apply Hin.
    now apply in_map.
  - exists d. split; [exact Hrun|]. split.
    + rewrite Hk. now apply dict_keys_empty_dicts.
    + intros nuclide reaction. rewrite Hl, lookup2_empty_dicts. reflexivity.
Qed.

(** [isotope_reaction_list_to_nested_dict] of [utils.py] returns when every
    entry has the key asked for, and then looking up a nuclide and a
    reaction in the result gives the field of the last entry with that pair,
    and nothing for a pair that no entry has. *)
Theorem nested_dict_lookup (l : list (entry V)) (field : string) :
  (forall e, In e l -> entry_get e field <> None) ->
  exists d,
    Utils.isotope_reaction_list_to_nested_dict set_order l field = Ok d
    /\ (forall nuclide reaction,
          lookup2 d nuclide reaction
          = last_entry_value field nuclide reaction l)
    /\ (forall nuclide reaction,
          (forall e, In e l ->
             entry_isotope e <> nuclide \/ entry_reaction_type e <> reaction) ->
          lookup2 d nuclide reaction = None).
Proof.
  intros Hfield. destruct (nested_dict_run l field Hfield) as [d [Hrun [_ Hl]]].
  exists d. split; [exact Hrun|]. split; [exact Hl|].
  intros nuclide reaction Hnone. rewrite Hl. unfold last_entry_value.
  clear - Hnone. induction l as [|e l IH] using rev_ind; [reflexivity|].
  rewrite fold_left_app. simpl.
  destruct (Hnone e) as [Hn|Hr]; [apply in_or_app; right; now left| |].
  - apply String.eqb_neq in Hn. rewrite Hn. simpl.
    apply IH. intros e' He'. apply Hnone. apply in_or_app. now left.
  - apply String.eqb_neq in Hr. rewrite Hr, andb_false_r.
    apply IH. intros e' He'. apply Hnone. apply in_or_app. now left.
Qed.

(** The keys of the result are the nuclides of the list, each once, in
    order of atomic number; a name without a digit has the number [-1], so
    that after a name with a digit only names with a digit follow. *)
Theorem nested_dict_keys_by_atomic_number (l : list (entry V))
  (field : string) :
  (forall e, In e l -> entry_get e field <> None) ->
  exists d,
    Utils.isotope_reaction_list_to_nested_dict set_order l field = Ok d
    /\ NoDup (dict_keys d)
    /\ (forall k, In k (dict_keys d) <-> In k (map entry_isotope l))
    /\ by_atomic_number (dict_keys d)
    /\ (forall before y after,
          dict_keys d = before ++ y :: after ->
          has_digit y = true ->
          forall x, In x after -> has_digit x = true).
Proof.
  intros Hfield. destruct (nested_dict_run l field Hfield) as [d [Hrun [Hk _]]].
  destruct (set_order_once (map entry_isotope l)) as [Hnd Hin].
  pose proof (sort_by_keys_perm Utils.get_atomic_number
                (set_order (map entry_isotope l))) as Hperm.
  pose proof (sort_by_keys_sorted Utils.get_atomic_number
                (set_order (map entry_isotope l))) as Hsorted.
  rewrite <- Hk in Hperm, Hsorted.
  exists d. split; [exact Hrun|]. split; [|split; [|split]].
  - apply (Permutation_NoDup (Permutation_sym Hperm) Hnd).
  - intros k. rewrite <- Hin. split.
    + apply (Permutation_in _ Hperm).
    + apply (Permutation_in _ (Permutation_sym Hperm)).
  - exact Hsorted.
  - intros before y after Hkeys Hy x Hx.
    rewrite Hkeys in Hsorted.
    assert (Hle : (Utils.get_atomic_number y <= Utils.get_atomic_number x)%Z).
    { clear - Hsorted Hx. induction before as [|b before IH]; simpl in *.
      - inversion Hsorted as [|? ? _ Hall]; subst.
        rewrite Forall_forall in Hall. now apply Hall.
      - inversion Hsorted; subst. now apply IH. }
    destruct (has_digit x) eqn:Ex; [reflexivity|].
    pose proof (get_atomic_number_digitless x Ex).
    pose proof (get_atomic_number_digits y Hy). lia.
Qed.

(** The version of [tsunami_ip_utils.py] raises [IndexError] as soon as the
    name of one nuclide of the list holds no digit, before any entry is
    stored. *)
Theorem legacy_nested_dict_needs_digits (l : list (entry V))
  (field : string) (e : entry V) :
  In e l ->
  has_digit (entry_isotope e) = false ->
  LegacyUtils.isotope_reaction_list_to_nested_dict set_order l field
  = Raise IndexError.
Proof.
  intros He Hdigit. unfold LegacyUtils.isotope_reaction_list_to_nested_dict.
  destruct (set_order_once (map entry_isotope l)) as [_ Hin].
  rewrite (rmap_raises LegacyUtils.get_atomic_number IndexError).
  - reflexivity.
  - intros a _ e'. unfold LegacyUtils.get_atomic_number.
    destruct (findall_digits_first a); [discriminate|congruence].
  - exists (entry_isotope e). split.
    + apply Hin. now apply in_map.
    + unfold LegacyUtils.get_atomic_number.
      apply findall_digits_first_has_digit in Hdigit. now rewrite Hdigit.
Qed.

(** When the name of every nuclide of the list holds a digit, the two
    versions of [isotope_reaction_list_to_nested_dict] return the same, or
    raise the same. *)
Theorem legacy_nested_dict_agrees (l : list (entry V)) (field : string) :
  (forall e, In e l -> has_digit (entry_isotope e) = true) ->
  LegacyUtils.isotope_reaction_list_to_nested_dict set_order l field
  = Utils.isotope_reaction_list_to_nested_dict set_order l field.
Proof.
  intros Hdigits. unfold LegacyUtils.isotope_reaction_list_to_nested_dict,
    Utils.isotope_reaction_list_to_nested_dict.
  destruct (set_order_once (map entry_isotope l)) as [_ Hin].
  rewrite (rmap_ok LegacyUtils.get_atomic_number Utils.get_atomic_number).
  - reflexivity.
  - intros a Ha. apply Hin in Ha. apply in_map_iff in Ha.
    destruct Ha as [e [<- He]]. specialize (Hdigits e He).
    unfold LegacyUtils.get_atomic_number, Utils.get_atomic_number.
    destruct (findall_digits_first (entry_isotope e)) eqn:E; [reflexivity|].
    apply findall_digits_first_has_digit in E. congruence.
Qed.

(** An entry without the key asked for makes the version of [utils.py]
    raise [KeyError], whatever the other entries hold. *)
Theorem nested_dict_missing_field_raises (l : list (entry V))
  (field : string) (e : entry V) :
  In e l ->
  entry_get e field = None ->
  Utils.isotope_reaction_list_to_nested_dict set_order l field
  = Raise KeyError.
Proof.
  intros He Hmissing. unfold Utils.isotope_reaction_list_to_nested_dict.
  set (S0 := set_order (map entry_isotope l)).
  set (sorted := sort_by_keys (map Utils.get_atomic_number S0) S0).
  destruct (set_order_once (map entry_isotope l)) as [Hnd Hin].
  fold S0 in Hnd, Hin.
  assert (Hperm : Permutation sorted S0) by apply sort_by_keys_perm.
  assert (Hnd' : NoDup sorted).
  { apply (Permutation_NoDup (Permutation_sym Hperm) Hnd). }
  apply rfold_store_entry_missing with (e := e); [|exact He|exact Hmissing].
  intros e' He'. rewrite dict_keys_empty_dicts by exact Hnd'.
  apply (Permutation_in _ (Permutation_sym Hperm)). apply Hin.
  now apply in_map.
Qed.

End NestedDictProperties.

Lemma nodup_iterates_once : iterates_once (nodup string_dec).
Proof.
  intros l. split.
  - apply NoDup_nodup.
  - intros k. apply nodup_In.
Qed.

Lemma example_entries_have_field (e : entry Z) :
  In e example_entries -> entry_get e "contribution" <> None.
Proof. intros [<-|[<-|[<-|[]]]]; discriminate. Qed.

Lemma nested_dict_lookup_witness :
  exists d,
    Utils.isotope_reaction_list_to_nested_dict
      (nodup string_dec) example_entries "contribution" = Ok d
    /\ lookup2 d "h-1" "capture" = Some (inr 3%Z)
    /\ lookup2 d "c" "capture" = None.
Proof.
  destruct (nested_dict_lookup (nodup string_dec) nodup_iterates_once
              example_entries "contribution" example_entries_have_field)
    as [d [Hrun [Hl _]]].
  exists d. split; [exact Hrun|].
  split; rewrite Hl; reflexivity.
Defined.

Lemma nested_dict_keys_by_atomic_number_witness :
  exists d,
    Utils.isotope_reaction_list_to_nested_dict
      (nodup string_dec) example_entries "contribution" = Ok d
    /\ NoDup (dict_keys d)
    /\ (forall k, In k (dict_keys d)
                  <-> In k (map entry_isotope example_entries))
    /\ by_atomic_number (dict_keys d)
    /\ (forall before y after,
          dict_keys d = before ++ y :: after ->
          has_digit y = true ->
          forall x, In x after -> has_digit x = true).
Proof.
  apply (nested_dict_keys_by_atomic_number (nodup string_dec)
           nodup_iterates_once example_entries "contribution"
           example_entries_have_field).
Defined.

Lemma legacy_nested_dict_needs_digits_witness :
  LegacyUtils.isotope_reaction_list_to_nested_dict
    (nodup string_dec) example_entries "contribution"
  = Raise IndexError.
Proof.
  apply (legacy_nested_dict_needs_digits (nodup string_dec)
           nodup_iterates_once example_entries "contribution"
           {| entry_isotope := "c"; entry_reaction_type := "elastic";
              entry_fields := [("contribution", 2%Z)] |}).
  - right. left. reflexivity.
  - reflexivity.
Defined.

Lemma legacy_nested_dict_agrees_witness :
  LegacyUtils.isotope_reaction_list_to_nested_dict
    (nodup string_dec) example_entries_with_digits "contribution"
  = Utils.isotope_reaction_list_to_nested_dict
      (nodup string_dec) example_entries_with_digits "contribution".
Proof.
  apply (legacy_nested_dict_agrees (nodup string_dec) nodup_iterates_once
           example_entries_with_digits "contribution").
  intros e [<-|[<-|[]]]; reflexivity.
Defined.

Lemma nested_dict_missing_field_raises_witness :
  Utils.isotope_reaction_list_to_nested_dict
    (nodup string_dec) example_entries "sensitivities"
  = Raise KeyError.
Proof.
  apply (nested_dict_missing_field_raises (nodup string_dec)
           nodup_iterates_once example_entries "sensitivities"
           {| entry_isotope := "c"; entry_reaction_type := "elastic";
              entry_fields := [("contribution", 2%Z)] |}).
  - right. left. reflexivity.
  - reflexivity.
Defined.

(** *** The filters *)

Lemma dict_get_map_values {V W : Type} (f : string -> V -> W) (d : dict V)
  (k : string) :
  dict_get (map (fun item => (fst item, f (fst item) (snd item))) d) k
  = option_map (f k) (dict_get d k).
Proof.
  induction d as [|[k' v] d IH]; simpl; [reflexivity|].
  destruct (String.eqb k' k) eqn:E; [|exact IH].
  apply String.eqb_eq in E. now subst k'.
Qed.

Lemma dict_get_filter_keys {V : Type} (p : string -> bool) (d : dict V)
  (k : string) :
  dict_get (filter (fun item => p (fst item)) d) k
  = if p k then dict_get d k else None.
Proof.
  induction d as [|[k' v] d IH]; simpl.
  - now destruct (p k).
  - destruct (p k') eqn:Ep; simpl.
    + destruct (String.eqb k' k) eqn:E; [|exact IH].
      apply String.eqb_eq in E. subst k'. now rewrite Ep.
    + rewrite IH. destruct (String.eqb k' k) eqn:E; [|reflexivity].
      apply String.eqb_eq in E. subst k'. now rewrite Ep.
Qed.

Lemma lookup2_map_inner {V : Type} (f : string -> dict V -> dict V)
  (d : dict (dict V)) (nuclide reaction : string) :
  lookup2 (map (fun item => (fst item, f (fst item) (snd item))) d)
          nuclide reaction
  = match dict_get d nuclide with
    | Some inner => dict_get (f nuclide inner) reaction
    | None => None
    end.
Proof.
  unfold lookup2.
  rewrite (dict_get_map_values f). now destruct (dict_get d nuclide).
Qed.

(** [filter_redundant_reactions] keeps every nuclide, in order; a reaction
    of the list is found under no nuclide afterwards, every other lookup is
    unchanged; and filtering a second time changes nothing. *)
Theorem filter_redundant_reactions_lookup {V : Type}
  (data_dict : dict (dict V)) (redundant_reactions : list string) :
  dict_keys (Utils.filter_redundant_reactions data_dict redundant_reactions)
  = dict_keys data_dict
  /\ (forall nuclide reaction,
        lookup2 (Utils.filter_redundant_reactions data_dict
                   redundant_reactions) nuclide reaction
        = if existsb (String.eqb reaction) redundant_reactions then None
          else lookup2 data_dict nuclide reaction)
  /\ Utils.filter_redundant_reactions
       (Utils.filter_redundant_reactions data_dict redundant_reactions)
       redundant_reactions
     = Utils.filter_redundant_reactions data_dict redundant_reactions.
Proof.
  unfold Utils.filter_redundant_reactions. split; [|split].
  - unfold dict_keys. rewrite map_map. reflexivity.
  - intros nuclide reaction.
    etransitivity;
      [apply (lookup2_map_inner
                (fun _ inner =>
                   filter (fun rv => negb (existsb (String.eqb (fst rv))
                                                   redundant_reactions))
                          inner))|].
    unfold lookup2.
    destruct (dict_get data_dict nuclide) as [inner|].
    + etransitivity;
        [apply (dict_get_filter_keys
                  (fun r => negb (existsb (String.eqb r)
                                          redundant_reactions)))|].
      now destruct (existsb (String.eqb reaction) redundant_reactions).
    + now destruct (existsb (String.eqb reaction) redundant_reactions).
  - rewrite map_map. apply map_ext. intros [k inner]. simpl. f_equal.
    induction inner as [|[r v] inner IH]; simpl; [reflexivity|].
    destruct (existsb (String.eqb r) redundant_reactions) eqn:E; simpl.
    + exact IH.
    + rewrite E. simpl. now rewrite IH.
Qed.

Lemma filter_by_nuclie_run {V : Type} (data_dict : dict (dict V))
  (nuclide_reactions : dict (list string)) :
  Utils.filter_by_nuclie_reaction_dict data_dict nuclide_reactions
  = Ok (map (fun item =>
               (fst item,
                filter (fun rx =>
                          existsb (String.eqb (fst rx))
                                  (match dict_get nuclide_reactions (fst item)
                                   with
                                   | Some allowed => allowed
                                   | None => []
                                   end))
                       (snd item)))
            (filter (fun item => dict_mem nuclide_reactions (fst item))
                    data_dict)).
Proof.
  unfold Utils.filter_by_nuclie_reaction_dict. apply rmap_ok.
  intros [nuclide reactions] Hin. apply filter_In in Hin.
  destruct Hin as [_ Hmem]. simpl in Hmem. simpl.
  destruct reactions as [|rx reactions]; [reflexivity|].
  unfold dict_getitem. unfold dict_mem in Hmem.
  destruct (dict_get nuclide_reactions nuclide); [reflexivity|discriminate].
Qed.

(** [filter_by_nuclie_reaction_dict] never raises: a nuclide is looked up in
    [nuclide_reactions] only when it is one of its keys.  In the result a
    nuclide and a reaction are found exactly when the nuclide is a key of
    [nuclide_reactions] and the reaction is in its list, and then with the
    value they had. *)
Theorem filter_by_nuclie_reaction_dict_lookup {V : Type}
  (data_dict : dict (dict V)) (nuclide_reactions : dict (list string)) :
  exists filtered,
    Utils.filter_by_nuclie_reaction_dict data_dict nuclide_reactions
    = Ok filtered
    /\ dict_keys filtered
       = filter (fun nuclide => dict_mem nuclide_reactions nuclide)
                (dict_keys data_dict)
    /\ forall nuclide reaction,
         lookup2 filtered nuclide reaction
         = match dict_get nuclide_reactions nuclide with
           | Some allowed =>
               if existsb (String.eqb reaction) allowed
               then lookup2 data_dict nuclide reaction else None
           | None => None
           end.
Proof.
  eexists. split; [apply filter_by_nuclie_run|]. split.
  - unfold dict_keys. rewrite map_map. simpl.
    induction data_dict as [|[k v] d IH]; simpl; [reflexivity|].
    destruct (dict_mem nuclide_reactions k); simpl; now rewrite IH.
  - intros nuclide reaction.
    etransitivity;
      [apply (lookup2_map_inner
                (fun k inner =>
                   filter (fun rx =>
                             existsb (String.eqb (fst rx))
                                     (match dict_get nuclide_reactions k with
                                      | Some allowed => allowed
                                      | None => []
                                      end))
                          inner))|].
    rewrite (dict_get_filter_keys (fun k => dict_mem nuclide_reactions k)).
    unfold dict_mem, lookup2.
    destruct (dict_get nuclide_reactions nuclide) as [allowed|];
      [|reflexivity].
    destruct (dict_get data_dict nuclide) as [inner|].
    + apply (dict_get_filter_keys (fun r => existsb (String.eqb r) allowed)).
    + now destruct (existsb (String.eqb reaction) allowed).
Qed.

Lemma filter_comm {A : Type} (p q : A -> bool) (l : list A) :
  filter p (filter q l) = filter q (filter p l).
Proof.
  induction l as [|a l IH]; simpl; [reflexivity|].
  destruct (p a) eqn:Ep, (q a) eqn:Eq; simpl;
    rewrite ?Ep, ?Eq; now rewrite IH.
Qed.

(** The two filters can be applied in either order. *)
Theorem filters_commute {V : Type} (data_dict : dict (dict V))
  (redundant_reactions : list string)
  (nuclide_reactions : dict (list string)) :
  exists filtered,
    Utils.filter_by_nuclie_reaction_dict data_dict nuclide_reactions
    = Ok filtered
    /\ Utils.filter_by_nuclie_reaction_dict
         (Utils.filter_redundant_reactions data_dict redundant_reactions)
         nuclide_reactions
       = Ok (Utils.filter_redundant_reactions filtered redundant_reactions).
Proof.
  eexists. split; [apply filter_by_nuclie_run|].
  rewrite filter_by_nuclie_run. f_equal.
  unfold Utils.filter_redundant_reactions.
  induction data_dict as [|[k inner] d IH]; simpl; [reflexivity|].
  destruct (dict_mem nuclide_reactions k); simpl.
  - rewrite IH. f_equal. f_equal. apply filter_comm.
  - exact IH.
Qed.
